(** * A shallow embedding of huffman.c

    The compressor and decompressor of [src/huffman.c], modelled as Rocq
    functions, and the properties its specification states about them.

    Conventions of the embedding:
    - [uint8_t], [uint16_t], [uint32_t] and [uint64_t] values are integers of
      [Z], reduced modulo [2^w] wherever the C code stores into a variable of
      that width;
    - a byte of a file is a [Z] in [0, 256); a file is a [list Z];
    - the arrays [freq[256]] and [table[256]] are lists, read with [get] and
      written with [set] (stdpp's list lookup and insert);
    - a [Node *] is a value of [Node], whose constructor [NULL] is the null
      pointer and whose constructor [make_node] is the C function of that name;
    - the priority queue ([ListNode *]) is the list of the trees it links;
    - [exit(EXIT_FAILURE)] after [die_msg] leaves the bytes already written in
      the output file: a run returns its exit status together with the output
      written so far and the input left unread;
    - failures of the C library ([malloc], [fwrite], [ferror], [fseek]) are
      outside the model; of [fopen], the failure on a missing input file is
      modelled (module [Cli]).

    The file has three parts: the program, the vocabulary in which its
    properties are stated, and the properties with their proofs, first those
    that the specification states, then further properties of the code. *)

From stdpp Require Import base list strings sorting gmap.
From Stdlib Require Import ZArith Lia.

Open Scope Z_scope.

(** ** Machine integers *)

Definition wrap (w z : Z) : Z := z mod 2 ^ w.

Definition u8 : Z -> Z := wrap 8.
Definition u16 : Z -> Z := wrap 16.
Definition u32 : Z -> Z := wrap 32.
Definition u64 : Z -> Z := wrap 64.

(** ** Arrays indexed by a C integer *)

Definition get {A} (d : A) (a : list A) (i : Z) : A :=
  default d (a !! Z.to_nat i).

Definition set {A} (a : list A) (i : Z) (x : A) : list A :=
  <[ Z.to_nat i := x ]> a.

(** ** Data structures *)

(** [struct Node] behind a [Node *]. *)
Inductive Node : Type :=
| NULL
| make_node (freq : Z) (is_leaf : bool) (symbol : Z) (l r : Node).

Definition node_freq (n : Node) : Z :=
  match n with NULL => 0 | make_node f _ _ _ _ => f end.

Definition node_is_leaf (n : Node) : bool :=
  match n with NULL => false | make_node _ b _ _ _ => b end.

Definition node_symbol (n : Node) : Z :=
  match n with NULL => 0 | make_node _ _ s _ _ => s end.

Definition node_left (n : Node) : Node :=
  match n with NULL => NULL | make_node _ _ _ l _ => l end.

Definition node_right (n : Node) : Node :=
  match n with NULL => NULL | make_node _ _ _ _ r => r end.

Definition is_null (n : Node) : bool :=
  match n with NULL => true | _ => false end.

(** The [while] loop of [list_insert_sorted]: [cur] is already known to stay
    before the new tree; advance while the next element is not heavier. *)
Fixpoint insert_after (cur : Node) (next : list Node) (tree : Node) : list Node :=
  match next with
  | n :: next' =>
      if node_freq n <=? node_freq tree
      then cur :: insert_after n next' tree
      else cur :: tree :: next
  | [] => [cur; tree]
  end.

Definition list_insert_sorted (head : list Node) (tree : Node) : list Node :=
  match head with
  | [] => [tree]
  | h :: rest =>
      if node_freq h >? node_freq tree then tree :: head
      else insert_after h rest tree
  end.

Definition list_pop_front (head : list Node) : Node * list Node :=
  match head with
  | [] => (NULL, [])
  | t :: rest => (t, rest)
  end.

(** ** Huffman core *)

(** One iteration of the first loop of [build_huffman_tree]. *)
Definition collect_leaf (freq : list Z) (st : list Node * Z) (i : nat)
  : list Node * Z :=
  let '(pq, symbols) := st in
  if get 0 freq (Z.of_nat i) >? 0 then
    (list_insert_sorted pq
       (make_node (get 0 freq (Z.of_nat i)) true (u16 (Z.of_nat i)) NULL NULL),
     symbols + 1)
  else (pq, symbols).

Definition collect_leaves (freq : list Z) : list Node * Z :=
  foldl (collect_leaf freq) ([], 0) (seq 0 256).

(** One iteration of [while (pq && pq->next)]; [None] when the loop exits. *)
Definition merge_step (pq : list Node) : option (list Node) :=
  match pq with
  | a :: b :: rest =>
      Some (list_insert_sorted rest
              (make_node (u32 (node_freq a + node_freq b)) false 0 a b))
  | _ => None
  end.

Fixpoint merge_loop (fuel : nat) (pq : list Node) : list Node :=
  match fuel with
  | O => pq
  | S fuel' =>
      match merge_step pq with
      | Some pq' => merge_loop fuel' pq'
      | None => pq
      end
  end.

(** Every iteration shortens the queue by one, so [length pq] iterations
    always reach the exit of the loop (lemma [merge_loop_exits]). *)
Definition build_huffman_tree (freq : list Z) : Node :=
  let '(pq, symbols) := collect_leaves freq in
  if symbols =? 0 then NULL
  else if symbols =? 1 then
    let '(only, _) := list_pop_front pq in
    make_node (node_freq only) false 0 only NULL
  else
    let '(root, _) := list_pop_front (merge_loop (length pq) pq) in
    root.

Record Code : Type := mk_code { code : Z; len : Z }.

Fixpoint build_codes_dfs (n : Node) (table : list Code) (path depth : Z)
  : list Code :=
  match n with
  | NULL => table
  | make_node _ true sym _ _ =>
      set table sym
        {| code := if depth =? 0 then 0 else path;
           len := if depth =? 0 then 1 else depth |}
  | make_node _ false _ l r =>
      let table := build_codes_dfs l table
                     (u32 (Z.lor (Z.shiftl path 1) 0)) (u8 (depth + 1)) in
      build_codes_dfs r table
        (u32 (Z.lor (Z.shiftl path 1) 1)) (u8 (depth + 1))
  end.

Definition build_code_table (root : Node) : list Code :=
  let table := replicate 256 (mk_code 0 0) in
  if is_null root then table else build_codes_dfs root table 0 0.

(** ** Bit I/O *)

(** [bw_f] is the content of the output file [f] so far. *)
Record BitWriter : Type :=
  mk_bw { bw_f : list Z; bw_buf : Z; bw_bits_filled : Z }.

Definition bw_init (f : list Z) : BitWriter :=
  {| bw_f := f; bw_buf := 0; bw_bits_filled := 0 |}.

Definition bw_write_bit (bw : BitWriter) (bit : Z) : BitWriter :=
  let buf := u8 (Z.lor (Z.shiftl (bw_buf bw) 1) (if bit =? 0 then 0 else 1)) in
  let filled := bw_bits_filled bw + 1 in
  if filled =? 8
  then {| bw_f := bw_f bw ++ [buf]; bw_buf := 0; bw_bits_filled := 0 |}
  else {| bw_f := bw_f bw; bw_buf := buf; bw_bits_filled := filled |}.

(** The loop [for (i = len - 1; i >= 0; --i)], with [n = i + 1] bits still to
    write.  C leaves [code >> i] undefined for [i >= 32]; the model takes the
    mathematical shift there. *)
Fixpoint bw_write_bits_from (n : nat) (bw : BitWriter) (code : Z) : BitWriter :=
  match n with
  | O => bw
  | S i =>
      let bit := Z.land (Z.shiftr code (Z.of_nat i)) 1 in
      bw_write_bits_from i (bw_write_bit bw bit) code
  end.

Definition bw_write_bits (bw : BitWriter) (code len : Z) : BitWriter :=
  bw_write_bits_from (Z.to_nat len) bw code.

Definition bw_flush (bw : BitWriter) : BitWriter :=
  if bw_bits_filled bw >? 0 then
    let buf := u8 (Z.shiftl (bw_buf bw) (8 - bw_bits_filled bw)) in
    {| bw_f := bw_f bw ++ [buf]; bw_buf := 0; bw_bits_filled := 0 |}
  else bw.

(** [br_f] is what is left to read of the input file [f]. *)
Record BitReader : Type :=
  mk_br { br_f : list Z; br_buf : Z; br_bits_left : Z }.

Definition br_init (f : list Z) : BitReader :=
  {| br_f := f; br_buf := 0; br_bits_left := 0 |}.

Definition br_take_bit (br : BitReader) : Z * bool * BitReader :=
  (Z.land (Z.shiftr (br_buf br) 7) 1, true,
   {| br_f := br_f br;
      br_buf := u8 (Z.shiftl (br_buf br) 1);
      br_bits_left := br_bits_left br - 1 |}).

(** Returns the bit, the flag [*ok] and the reader after the call. *)
Definition br_read_bit (br : BitReader) : Z * bool * BitReader :=
  if br_bits_left br =? 0 then
    match br_f br with
    | [] => (0, false, br)
    | b :: rest =>
        br_take_bit {| br_f := rest; br_buf := b; br_bits_left := 8 |}
    end
  else br_take_bit br.

(** ** File header *)

Definition MAGIC : list Z := [72; 85; 70; 49].

(** The [n] bytes of an unsigned integer in memory, least significant first. *)
Fixpoint le_bytes (n : nat) (z : Z) : list Z :=
  match n with
  | O => []
  | S n' => z mod 256 :: le_bytes n' (z / 256)
  end.

Fixpoint le_value (bs : list Z) : Z :=
  match bs with
  | [] => 0
  | b :: bs' => b + 256 * le_value bs'
  end.

Definition write_header (out : list Z) (original_size : Z) (freq : list Z)
  : list Z :=
  foldl (fun out i => out ++ le_bytes 4 (get 0 freq (Z.of_nat i)))
        ((out ++ MAGIC) ++ le_bytes 8 original_size)
        (seq 0 256).

(** [fread] of [n] bytes: the bytes obtained and the rest of the file. *)
Definition fread (n : nat) (inp : list Z) : list Z * list Z :=
  (take n inp, drop n inp).

Inductive result (A : Type) : Type :=
| Ok (a : A)
| Fatal (msg : string).
Arguments Ok {A} a.
Arguments Fatal {A} msg.

(** The loop over [freq[i]] of [read_header], [n] entries still to read. *)
Fixpoint read_freqs (n : nat) (inp : list Z) (freq : list Z)
  : result (list Z) * list Z :=
  match n with
  | O => (Ok freq, inp)
  | S n' =>
      let '(got, rest) := fread 4 inp in
      if (length got =? 4)%nat
      then read_freqs n' rest (freq ++ [le_value got])
      else (Fatal "Truncated header (freq).", rest)
  end.

(** The header read, or the message of [die_msg]; and the unread input. *)
Definition read_header (inp : list Z) : result (Z * list Z) * list Z :=
  let '(magic, in1) := fread 4 inp in
  if negb (length magic =? 4)%nat
  then (Fatal "Invalid or truncated file (magic).", in1)
  else if negb (bool_decide (magic = MAGIC))
  then (Fatal "Not a HUF1 file (bad magic).", in1)
  else
    let '(size_bytes, in2) := fread 8 in1 in
    if negb (length size_bytes =? 8)%nat
    then (Fatal "Truncated header (size).", in2)
    else
      match read_freqs 256 in2 [] with
      | (Ok freq, in3) => (Ok (le_value size_bytes, freq), in3)
      | (Fatal msg, in3) => (Fatal msg, in3)
      end.

(** ** Runs of the program *)

Inductive status : Type :=
| EXIT_SUCCESS
| EXIT_FAILURE (msg : string)
| Unfinished.

(** ** Compression *)

(** The counting pass.  The C code reads the file in chunks of 32768 bytes
    and adds each chunk's length to [original_size]; the model visits the
    same bytes in the same order, one at a time. *)
Definition count_byte (st : Z * list Z) (b : Z) : Z * list Z :=
  let '(original_size, freq) := st in
  (u64 (original_size + 1), set freq b (u32 (get 0 freq b + 1))).

Definition count_frequencies (data : list Z) : Z * list Z :=
  foldl count_byte (0, replicate 256 0) data.

(** The encoding pass; [false] when it dies on a missing code. *)
Fixpoint encode_loop (table : list Code) (bw : BitWriter) (data : list Z)
  : bool * BitWriter :=
  match data with
  | [] => (true, bw)
  | b :: data' =>
      let c := get (mk_code 0 0) table b in
      if len c =? 0 then (false, bw)
      else encode_loop table (bw_write_bits bw (code c) (len c)) data'
  end.

Definition compress_file (data : list Z) : status * list Z :=
  let '(original_size, freq) := count_frequencies data in
  let root := build_huffman_tree freq in
  let table := build_code_table root in
  let out := write_header [] original_size freq in
  let bw := bw_init out in
  if original_size >? 0 then
    match encode_loop table bw data with
    | (false, bw') => (EXIT_FAILURE "Internal error: missing code.", bw_f bw')
    | (true, bw') => (EXIT_SUCCESS, bw_f (bw_flush bw'))
    end
  else (EXIT_SUCCESS, bw_f (bw_flush bw)).

(** ** Decompression *)

Record run : Type :=
  mk_run { exit_status : status; output : list Z; unread : list Z }.

Record decoder : Type :=
  mk_decoder { written : Z; cur : Node; br : BitReader; out : list Z }.

(** One iteration of [while (written < original_size)]: the next state of
    the loop, or the way the function ends. *)
Definition decode_step (root : Node) (original_size : Z) (st : decoder)
  : decoder + run :=
  if written st <? original_size then
    if node_is_leaf (cur st) then
      inl {| written := u64 (written st + 1);
             cur := root;
             br := br st;
             out := out st ++ [u8 (node_symbol (cur st))] |}
    else
      let '(bit, ok, br') := br_read_bit (br st) in
      if negb ok then
        inr {| exit_status := EXIT_FAILURE "Unexpected end of encoded data.";
               output := out st; unread := br_f br' |}
      else
        let next := if bit =? 0 then node_left (cur st) else node_right (cur st) in
        if is_null next then
          inr {| exit_status := EXIT_FAILURE "Corrupt Huffman tree or data.";
                 output := out st; unread := br_f br' |}
        else
          inl {| written := written st; cur := next; br := br'; out := out st |}
  else
    inr {| exit_status := EXIT_SUCCESS;
           output := out st; unread := br_f (br st) |}.

Fixpoint decode_loop (fuel : nat) (root : Node) (original_size : Z)
  (st : decoder) : run :=
  match fuel with
  | O => {| exit_status := Unfinished;
            output := out st; unread := br_f (br st) |}
  | S fuel' =>
      match decode_step root original_size st with
      | inl st' => decode_loop fuel' root original_size st'
      | inr r => r
      end
  end.

(** Iterations that are enough for a payload of [n] bytes: the loop reads a
    bit at least every second iteration (theorem [decompress_file_finishes]). *)
Definition decode_fuel (n : nat) : nat := 16 * n + 2.

Definition decompress_file (inp : list Z) : run :=
  match read_header inp with
  | (Fatal msg, rest) =>
      {| exit_status := EXIT_FAILURE msg; output := []; unread := rest |}
  | (Ok (original_size, freq), rest) =>
      let root := build_huffman_tree freq in
      if original_size =? 0 then
        {| exit_status := EXIT_SUCCESS; output := []; unread := rest |}
      else if is_null root then
        {| exit_status := EXIT_FAILURE "Corrupt file: missing Huffman tree.";
           output := []; unread := rest |}
      else
        decode_loop (decode_fuel (length rest)) root original_size
          {| written := 0; cur := root; br := br_init rest; out := [] |}
  end.

(** ** Releasing a tree *)

(** [free_tree]: the nodes handed to [free], in the order of the calls (the
    left subtree, then the right subtree, then the node itself). *)
Fixpoint free_tree (root : Node) : list Node :=
  match root with
  | NULL => []
  | make_node _ _ _ l r => free_tree l ++ free_tree r ++ [root]
  end.

(** ** The command line *)

Module Cli.

(** The files, by path.  The file system is that of a POSIX system on which
    every path can be opened for writing: [fopen(path, "rb")] fails exactly
    when there is no file at [path]; [fopen(path, "wb")] makes the file at
    [path] empty, also when it is the file already open for reading, which
    then reads as empty.  [exit] writes out what the output stream holds. *)
Abbreviation files := (gmap string (list Z)).

Definition newline : string := String (Ascii.ascii_of_nat 10) EmptyString.

(** [usage]: the text printed on [stderr]. *)
Definition usage (prog : string) : string :=
  "Usage:" +:+ newline
  +:+ "  " +:+ prog +:+ " -c <input> <output.huf>   Compress" +:+ newline
  +:+ "  " +:+ prog +:+ " -d <input.huf> <output>   Decompress" +:+ newline.

(** [compress_file(inpath, outpath)]: the two [fopen] calls, then the passes
    over the content of the input file.  [die("fopen input")] is the exit
    with the message [fopen input] (to which [perror] adds the reason). *)
Definition compress_file (inpath outpath : string) (fs : files)
  : status * files :=
  match fs !! inpath with
  | None => (EXIT_FAILURE "fopen input", fs)
  | Some _ =>
      let fs := <[outpath := []]> fs in
      let '(st, out) := compress_file (default [] (fs !! inpath)) in
      (st, <[outpath := out]> fs)
  end.

(** [decompress_file(inpath, outpath)]. *)
Definition decompress_file (inpath outpath : string) (fs : files)
  : status * files :=
  match fs !! inpath with
  | None => (EXIT_FAILURE "fopen input", fs)
  | Some _ =>
      let fs := <[outpath := []]> fs in
      let r := decompress_file (default [] (fs !! inpath)) in
      (exit_status r, <[outpath := output r]> fs)
  end.

(** [argv[i]]; the C code reads [argv[1..3]] only when [argc] is 4. *)
Definition arg (argv : list string) (i : nat) : string :=
  default "" (argv !! i).

(** [main]: the exit status of the process and the files it leaves. *)
Definition main (argv : list string) (fs : files) : status * files :=
  if negb (length argv =? 4)%nat then (EXIT_FAILURE (usage (arg argv 0)), fs)
  else if String.eqb (arg argv 1) "-c" then
    compress_file (arg argv 2) (arg argv 3) fs
  else if String.eqb (arg argv 1) "-d" then
    decompress_file (arg argv 2) (arg argv 3) fs
  else (EXIT_FAILURE (usage (arg argv 0)), fs).

End Cli.

(** * Vocabulary of the properties *)

(** ** Concrete inputs *)

(** The frequency table that holds the given counts and 0 elsewhere. *)
Definition freq_table (l : list (Z * Z)) : list Z :=
  foldl (fun a '(i, x) => set a i x) (replicate 256 0) l.

(** A frequency table with 66 symbols, all counts below [2^27], whose tree
    has two branches of depth 33. *)
Definition deep_freq : list Z :=
  freq_table
    [(65, 1); (66, 1); (67, 1); (68, 2); (69, 2); (70, 3); (71, 4); (72, 5);
     (73, 7); (74, 9); (75, 12); (76, 16); (77, 21); (78, 28); (79, 37);
     (80, 49); (81, 65); (82, 86); (83, 114); (84, 151); (85, 200);
     (86, 265); (87, 351); (88, 465); (89, 616); (90, 816); (91, 1081);
     (92, 1432); (93, 1897); (94, 2513); (95, 3329); (96, 4410); (97, 5842);
     (98, 7739); (99, 10252); (100, 13581); (101, 17991); (102, 23833);
     (103, 31572); (104, 41824); (105, 55405); (106, 73396); (107, 97229);
     (108, 128801); (109, 170625); (110, 226030); (111, 299426);
     (112, 396655); (113, 525456); (114, 696081); (115, 922111);
     (116, 1221537); (117, 1618192); (118, 2143648); (119, 2839729);
     (120, 3761840); (121, 4983377); (122, 6601569); (123, 8745217);
     (124, 11584946); (125, 15346786); (126, 20330163); (127, 26931732);
     (128, 35676949); (129, 47261895); (130, 62608681)].

(** The container of nine bytes 0x41, cut after the first byte of its
    payload. *)
Definition truncated_container : list Z :=
  take 1037 (compress_file (replicate 9 65)).2.

(** The state in which the decoder of [truncated_container] finds its bit
    reader exhausted: eight bytes are written, the ninth needs a bit. *)
Definition exhausted_decoder : decoder :=
  {| written := 8;
     cur := make_node 9 false 0 (make_node 9 true 65 NULL NULL) NULL;
     br := {| br_f := []; br_buf := 0; br_bits_left := 0 |};
     out := [65; 65; 65; 65; 65; 65; 65; 65] |}.

(** A container that declares size 0, with a nonzero frequency entry and
    one payload byte. *)
Definition zero_size_container : list Z :=
  write_header [] 0 (freq_table [(65, 3)]) ++ [255].

(** ** Bytes and messages *)

(** A value that fits a [uint8_t]. *)
Definition byte (b : Z) : Prop := 0 <= b < 256.

(** Whether a value is a byte can be computed. *)
Global Instance byte_dec (b : Z) : Decision (byte b).
Proof. unfold byte. apply _. Defined.

(** The messages of the format failures of [read_header]. *)
Definition format_error (msg : string) : Prop :=
  msg ∈ ["Invalid or truncated file (magic).";
         "Not a HUF1 file (bad magic).";
         "Truncated header (size).";
         "Truncated header (freq)."].

(** The messages with which the decoder gives up after the header is read. *)
Definition decoding_error (msg : string) : Prop :=
  msg ∈ ["Corrupt file: missing Huffman tree.";
         "Unexpected end of encoded data.";
         "Corrupt Huffman tree or data."].

(** ** Frequency tables *)

(** The leaf that [build_huffman_tree] makes for the symbol [i]. *)
Definition leaf_of (freq : list Z) (i : nat) : Node :=
  make_node (get 0 freq (Z.of_nat i)) true (u16 (Z.of_nat i)) NULL NULL.

(** The symbols that occur, in increasing order. *)
Definition used_symbols (freq : list Z) : list nat :=
  filter (fun i : nat => 0 < get 0 freq (Z.of_nat i)) (seq 0 256).

(** The sum of the entries of a frequency table. *)
Definition sum_entries (freq : list Z) : Z := foldr Z.add 0 freq.

(** The 1024 bytes that [write_header] writes for the frequency table. *)
Definition freq_bytes (freq : list Z) : list Z :=
  concat (map (fun i : nat => le_bytes 4 (get 0 freq (Z.of_nat i))) (seq 0 256)).

(** ** Trees *)

(** Every internal node has two children and the symbol field 0; every leaf
    has no child and a symbol in 0..255. *)
Fixpoint full (n : Node) : bool :=
  match n with
  | NULL => false
  | make_node _ true s l r =>
      is_null l && is_null r && bool_decide (0 <= s < 256)
  | make_node _ false s l r =>
      bool_decide (s = 0) && full l && full r
  end.

(** The symbols of the leaves, from left to right. *)
Fixpoint symbols (n : Node) : list Z :=
  match n with
  | NULL => []
  | make_node _ true s _ _ => [s]
  | make_node _ false _ l r => symbols l ++ symbols r
  end.

(** The leaves with their paths, from left to right: 0 for a step to the
    left, 1 for a step to the right. *)
Fixpoint leaf_paths (n : Node) : list (Z * list Z) :=
  match n with
  | NULL => []
  | make_node _ true s _ _ => [(s, [])]
  | make_node _ false _ l r =>
      (prod_map id (cons 0) <$> leaf_paths l)
      ++ (prod_map id (cons 1) <$> leaf_paths r)
  end.

(** The length of the longest path. *)
Fixpoint height (n : Node) : nat :=
  match n with
  | NULL => 0
  | make_node _ true _ _ _ => 0
  | make_node _ false _ l r => S (height l `max` height r)
  end.

(** The path from [n] to the first leaf that carries [s]: 0 for a step to
    the left, 1 for a step to the right. *)
Fixpoint find_path (n : Node) (s : Z) : option (list Z) :=
  match n with
  | NULL => None
  | make_node _ true sym _ _ => if sym =? s then Some [] else None
  | make_node _ false _ l r =>
      match find_path l s with
      | Some p => Some (0 :: p)
      | None =>
          match find_path r s with
          | Some p => Some (1 :: p)
          | None => None
          end
      end
  end.

(** ** Codes and bits *)

(** A bit, as the bit writer and the bit reader pass it. *)
Definition is_bit (b : Z) : Prop := b = 0 \/ b = 1.

(** The number whose binary digits are those of [acc] followed by [p]. *)
Definition bits_value (acc : Z) (p : list Z) : Z :=
  foldl (fun a b => 2 * a + b) acc p.

(** The bits of a table entry, in the order in which [bw_write_bits] writes
    them. *)
Definition code_bits (c : Code) : list Z :=
  map (fun i : nat => Z.land (Z.shiftr (code c) (Z.of_nat i)) 1)
      (rev (seq 0 (Z.to_nat (len c)))).

(** The eight bits of a byte, most significant first. *)
Definition byte_bits (b : Z) : list Z := code_bits (mk_code b 8).

(** The bits of a sequence of bytes. *)
Definition bits_of_bytes (bytes : list Z) : list Z := bytes ≫= byte_bits.

(** The table entry that [build_codes_dfs], called with [path] and [depth],
    writes for a leaf that lies [p] below. *)
Fixpoint path_code (path depth : Z) (p : list Z) : Code :=
  match p with
  | [] => {| code := if depth =? 0 then 0 else path;
             len := if depth =? 0 then 1 else depth |}
  | b :: p' => path_code (u32 (Z.lor (Z.shiftl path 1) b)) (u8 (depth + 1)) p'
  end.

(** The write that [build_codes_dfs] does for one leaf. *)
Definition store_code (path depth : Z) (table : list Code)
  (sp : Z * list Z) : list Code :=
  set table sp.1 (path_code path depth sp.2).

(** ** The states of the bit writer and of the bit reader *)

(** The writer [bw] has received [bits] after the file held [hdr]: the bytes
    since written hold the first bits, and the buffer holds the rest. *)
Definition bw_holds (hdr bits : list Z) (bw : BitWriter) : Prop :=
  exists bytes q,
    bw_f bw = hdr ++ bytes
    /\ bits = bits_of_bytes bytes ++ q
    /\ Forall is_bit q
    /\ bw_bits_filled bw = Z.of_nat (length q)
    /\ (length q < 8)%nat
    /\ bw_buf bw = bits_value 0 q.

(** The bits that the reader will deliver: those left in its buffer, then
    those of the bytes not yet read. *)
Definition br_stream (rd : BitReader) : list Z :=
  take (Z.to_nat (br_bits_left rd)) (byte_bits (br_buf rd))
  ++ bits_of_bytes (br_f rd).

(** ** Runs of the decoding loop *)

(** Twice the bits still available to the reader, plus one when the current
    node is a leaf: every iteration of the loop lowers it. *)
Definition decode_measure (st : decoder) : nat :=
  2 * (Z.to_nat (br_bits_left (br st)) + 8 * length (br_f (br st)))
  + (if node_is_leaf (cur st) then 1 else 0).

(** The state after [n] iterations that all continue the loop. *)
Fixpoint decode_steps (n : nat) (root : Node) (original_size : Z)
  (st : decoder) : option decoder :=
  match n with
  | O => Some st
  | S n' =>
      match decode_step root original_size st with
      | inl st' => decode_steps n' root original_size st'
      | inr _ => None
      end
  end.

(** ** The order of the priority queue *)

(** No heavier than: the order in which the queue is kept. *)
Definition freq_le (a b : Node) : Prop := node_freq a <= node_freq b.

(** Lighter, or as heavy and with a smaller symbol: the order of the leaves
    in the queue. *)
Definition leaf_lt (a b : Node) : Prop :=
  node_freq a < node_freq b
  \/ (node_freq a = node_freq b /\ node_symbol a < node_symbol b).

(** Both orders can be computed. *)
Global Instance freq_le_dec : RelDecision freq_le.
Proof. intros a b. unfold freq_le. apply _. Defined.

Global Instance leaf_lt_dec : RelDecision leaf_lt.
Proof. intros a b. unfold leaf_lt. apply _. Defined.

(** ** Frequencies in a tree *)

(** Every internal node carries the sum, modulo [2^32], of what its children
    carry. *)
Fixpoint carries_sums (n : Node) : bool :=
  match n with
  | NULL => true
  | make_node _ true _ _ _ => true
  | make_node f false _ l r =>
      bool_decide (f = u32 (node_freq l + node_freq r))
      && carries_sums l && carries_sums r
  end.

(** The leaves, from left to right. *)
Fixpoint leaf_nodes (n : Node) : list Node :=
  match n with
  | NULL => []
  | make_node _ true _ _ _ => [n]
  | make_node _ false _ l r => leaf_nodes l ++ leaf_nodes r
  end.

(** The sum of the frequencies of the leaves. *)
Definition weight (n : Node) : Z := sum_entries (node_freq <$> leaf_nodes n).

(** ** Occurrences *)

(** How often the byte [b] occurs in [data]. *)
Definition occurrences (b : Z) (data : list Z) : Z :=
  Z.of_nat (length (filter (fun x => x = b) data)).

(** ** Sequences of calls of the bit I/O *)

(** The bits that [n] successive calls of [br_read_bit] deliver, or [None]
    when one of the calls finds the input exhausted. *)
Fixpoint read_bits (n : nat) (rd : BitReader) : option (list Z) :=
  match n with
  | O => Some []
  | S n' =>
      let '(bit, ok, rd') := br_read_bit rd in
      if ok then cons bit <$> read_bits n' rd' else None
  end.

(** The writer after a call of [bw_write_bits] for each of the codes. *)
Definition write_codes (bw : BitWriter) (codes : list Code) : BitWriter :=
  foldl (fun bw c => bw_write_bits bw (code c) (len c)) bw codes.


(** ** Files *)

(** A file system that holds one file. *)
Definition sample_files : gmap string (list Z) :=
  {[ "a.txt" := [65; 65; 65; 66; 67]%Z ]}.

(** ** The depth of a tree of merges *)

(** The Fibonacci numbers 0, 1, 1, 2, 3, 5, ... *)
Fixpoint fib (n : nat) : Z :=
  match n with
  | O => 0
  | S m => match m with O => 1 | S k => fib m + fib k end
  end.

(** What the heavier child of an internal node carries; 0 for a leaf. *)
Definition top (n : Node) : Z :=
  match n with
  | make_node _ false _ l r => node_freq l `max` node_freq r
  | _ => 0
  end.

(** Every leaf carries at least 1, every internal node carries the sum of
    what its two children carry, and no child of a child is heavier than the
    other child. *)
Fixpoint merged_in_order (n : Node) : Prop :=
  match n with
  | NULL => False
  | make_node f true _ _ _ => 1 <= f
  | make_node f false _ l r =>
      f = node_freq l + node_freq r
      /\ top l <= node_freq r /\ top r <= node_freq l
      /\ merged_in_order l /\ merged_in_order r
  end.

(** The queue is in ascending order, its trees are merged in order, and no
    child in a tree of the queue is heavier than a tree of the queue. *)
Definition queue_ok (pq : list Node) : Prop :=
  StronglySorted freq_le pq
  /\ Forall merged_in_order pq
  /\ (forall t u, t ∈ pq -> u ∈ pq -> top t <= node_freq u).

(** * Properties *)

(** ** The priority queue *)

Lemma insert_after_split cur next tree :
  exists l1 l2, next = l1 ++ l2 /\
    insert_after cur next tree = cur :: l1 ++ tree :: l2.
Proof.
  revert cur. induction next as [|n next IH]; intros cur; simpl.
  - exists [], []. done.
  - destruct (node_freq n <=? node_freq tree).
    + destruct (IH n) as (l1 & l2 & -> & ->).
      exists (n :: l1), l2. done.
    + exists [], (n :: next). done.
Qed.

Lemma list_insert_sorted_split head tree :
  exists l1 l2, head = l1 ++ l2 /\
    list_insert_sorted head tree = l1 ++ tree :: l2.
Proof.
  destruct head as [|h rest]; simpl.
  - exists [], []. done.
  - destruct (node_freq h >? node_freq tree).
    + exists [], (h :: rest). done.
    + destruct (insert_after_split h rest tree) as (l1 & l2 & -> & ->).
      exists (h :: l1), l2. done.
Qed.

Lemma list_insert_sorted_perm head tree :
  list_insert_sorted head tree ≡ₚ tree :: head.
Proof.
  destruct (list_insert_sorted_split head tree) as (l1 & l2 & -> & ->).
  symmetry. apply Permutation_middle.
Qed.

Lemma list_insert_sorted_length head tree :
  length (list_insert_sorted head tree) = S (length head).
Proof. by rewrite list_insert_sorted_perm. Qed.

Lemma list_insert_sorted_Forall (P : Node -> Prop) head tree :
  Forall P head -> P tree -> Forall P (list_insert_sorted head tree).
Proof.
  intros Hh Ht. rewrite list_insert_sorted_perm. by constructor.
Qed.

(** ** The merging loop *)

Lemma merge_step_length pq pq' :
  merge_step pq = Some pq' -> S (length pq') = length pq.
Proof.
  destruct pq as [|a [|b rest]]; simpl; try done.
  intros [= <-]. by rewrite list_insert_sorted_length.
Qed.

(** The loop always exits, with exactly one tree left of a queue that was
    not empty. *)
Lemma merge_loop_exits fuel pq :
  (length pq <= fuel)%nat -> pq <> [] ->
  exists root, merge_loop fuel pq = [root].
Proof.
  revert pq. induction fuel as [|fuel IH]; intros pq Hlen Hne.
  - destruct pq; simpl in *; [done | lia].
  - simpl. destruct (merge_step pq) as [pq'|] eqn:Hstep.
    + pose proof (merge_step_length _ _ Hstep) as Hl.
      apply IH; [lia|]. intros ->.
      destruct pq as [|a [|b rest]]; simpl in *; try done; lia.
    + destruct pq as [|a [|b rest]]; simpl in *; try done. by exists a.
Qed.

Lemma merge_loop_Forall (P : Node -> Prop) fuel pq :
  (forall a b, P a -> P b ->
     P (make_node (u32 (node_freq a + node_freq b)) false 0 a b)) ->
  Forall P pq -> Forall P (merge_loop fuel pq).
Proof.
  intros Hmerge. revert pq. induction fuel as [|fuel IH]; intros pq Hpq; simpl.
  - done.
  - destruct pq as [|a [|b rest]]; simpl; try done.
    apply IH. inversion_clear Hpq as [|? ? Ha Hpq'].
    inversion_clear Hpq' as [|? ? Hb Hrest].
    apply list_insert_sorted_Forall; auto.
Qed.

(** ** The leaves collected from a frequency table *)

Lemma collect_leaves_fold freq (idx : list nat) pq0 n0 :
  exists pq,
    foldl (collect_leaf freq) (pq0, n0) idx
      = (pq, n0 + Z.of_nat
                    (length (filter (fun i : nat => 0 < get 0 freq (Z.of_nat i)) idx)))
    /\ pq ≡ₚ map (leaf_of freq)
               (filter (fun i : nat => 0 < get 0 freq (Z.of_nat i)) idx) ++ pq0.
Proof.
  revert pq0 n0. induction idx as [|i idx IH]; intros pq0 n0; simpl.
  - exists pq0. split; [f_equal; lia | done].
  - rewrite filter_cons. destruct (Z.gtb_spec (get 0 freq (Z.of_nat i)) 0) as [Hpos|Hle].
    + rewrite decide_True by lia. fold (leaf_of freq i).
      destruct (IH (list_insert_sorted pq0 (leaf_of freq i)) (n0 + 1))
        as (pq & -> & Hperm).
      exists pq. split; [f_equal; simpl; lia|].
      rewrite Hperm, list_insert_sorted_perm. simpl.
      by rewrite Permutation_middle.
    + rewrite decide_False by lia. apply IH.
Qed.

Lemma collect_leaves_spec freq :
  exists pq,
    collect_leaves freq = (pq, Z.of_nat (length (used_symbols freq)))
    /\ pq ≡ₚ map (leaf_of freq) (used_symbols freq).
Proof.
  destruct (collect_leaves_fold freq (seq 0 256) [] 0) as (pq & Heq & Hperm).
  exists pq. split; [exact Heq|]. by rewrite app_nil_r in Hperm.
Qed.

Lemma used_symbols_lt freq i : i ∈ used_symbols freq -> (i < 256)%nat.
Proof.
  unfold used_symbols. rewrite list_elem_of_filter, elem_of_seq. lia.
Qed.

Lemma used_symbols_pos freq i :
  i ∈ used_symbols freq -> 0 < get 0 freq (Z.of_nat i).
Proof. unfold used_symbols. rewrite list_elem_of_filter. tauto. Qed.

Lemma u16_symbol i : (i < 256)%nat -> u16 (Z.of_nat i) = Z.of_nat i.
Proof. intros. unfold u16, wrap. apply Z.mod_small. lia. Qed.

(** ** The shape of the tree *)

Lemma full_leaf_of freq i : (i < 256)%nat -> full (leaf_of freq i) = true.
Proof.
  intros Hi. simpl. rewrite u16_symbol by done.
  apply bool_decide_eq_true. lia.
Qed.

Lemma collect_leaves_full freq pq n :
  collect_leaves freq = (pq, n) -> Forall (fun t => full t = true) pq.
Proof.
  destruct (collect_leaves_spec freq) as (pq' & -> & Hperm).
  intros [= <- _]. rewrite Hperm. apply Forall_forall.
  intros t (i & -> & Hi)%list_elem_of_fmap.
  apply full_leaf_of. by eapply used_symbols_lt.
Qed.

(** C3, as the specification states it, fails on a table with one symbol:
    the root made for it is an internal node with a left child only. *)
Lemma single_symbol_root_has_one_child :
  let t := build_huffman_tree (freq_table [(65, 3)]) in
  t = make_node 3 false 0 (make_node 3 true 65 NULL NULL) NULL
  /\ node_is_leaf t = false /\ node_right t = NULL /\ full t = false.
Proof. vm_compute. done. Qed.

(** The tree of a table in which exactly one symbol occurs. *)
Lemma build_huffman_tree_single (freq : list Z) (s : nat) :
  used_symbols freq = [s] ->
  (s < 256)%nat /\
  build_huffman_tree freq =
    make_node (get 0 freq (Z.of_nat s)) false 0
      (make_node (get 0 freq (Z.of_nat s)) true (Z.of_nat s) NULL NULL)
      NULL.
Proof.
  intros Hused. unfold build_huffman_tree.
  destruct (collect_leaves_spec freq) as (pq & -> & Hperm).
  pose proof (used_symbols_lt freq s) as Hs.
  rewrite Hused in *. apply Permutation_singleton_r in Hperm as ->.
  assert (s < 256)%nat as Hlt by (apply Hs; left).
  split; [done|]. unfold leaf_of. by rewrite u16_symbol.
Qed.

(** C3, amended: the tree built from a frequency table is [NULL] when no
    symbol occurs; when exactly one symbol occurs it is an internal root with
    symbol field 0 whose left child is the leaf of that symbol and whose right
    child is [NULL]; when two or more symbols occur every internal node has
    exactly two children and symbol field 0, and every leaf has no child and
    a symbol in 0..255. *)
Theorem build_huffman_tree_shape (freq : list Z) :
  match used_symbols freq with
  | [] => build_huffman_tree freq = NULL
  | [s] =>
      (s < 256)%nat /\
      build_huffman_tree freq =
        make_node (get 0 freq (Z.of_nat s)) false 0
          (make_node (get 0 freq (Z.of_nat s)) true (Z.of_nat s) NULL NULL)
          NULL
  | _ :: _ :: _ => full (build_huffman_tree freq) = true
  end.
Proof.
  destruct (used_symbols freq) as [|s [|s' used]] eqn:Hused.
  - unfold build_huffman_tree.
    destruct (collect_leaves_spec freq) as (pq & -> & _). by rewrite Hused.
  - by apply build_huffman_tree_single.
  - unfold build_huffman_tree.
    destruct (collect_leaves_spec freq) as (pq & Hc & Hperm).
    pose proof (collect_leaves_full _ _ _ Hc) as Hfull.
    rewrite Hc, Hused. simpl length.
    rewrite !(proj2 (Z.eqb_neq _ _)) by lia.
    destruct (merge_loop_exits (length pq) pq) as [root Hroot].
    + done.
    + intros ->. rewrite Hused in Hperm. by apply Permutation_nil_l in Hperm.
    + rewrite Hroot. simpl.
      assert (Forall (fun t => full t = true) [root]) as Hr.
      { rewrite <- Hroot. apply merge_loop_Forall; [|done].
        intros a b Ha Hb. simpl. by rewrite Ha, Hb. }
      by inversion Hr.
Qed.

(** ** The header written by the encoder *)

Lemma le_bytes_length n z : length (le_bytes n z) = n.
Proof. revert z. induction n; intros; simpl; auto. Qed.

Lemma foldl_append {A B} (g : B -> list A) (acc : list A) (l : list B) :
  foldl (fun out i => out ++ g i) acc l = acc ++ concat (map g l).
Proof.
  revert acc. induction l as [|x l IH]; intros acc; simpl.
  - by rewrite app_nil_r.
  - by rewrite IH, <- app_assoc.
Qed.

Lemma write_header_eq out original_size freq :
  write_header out original_size freq
  = out ++ MAGIC ++ le_bytes 8 original_size ++ freq_bytes freq.
Proof.
  unfold write_header, freq_bytes. rewrite foldl_append.
  by rewrite <- !app_assoc.
Qed.

Lemma concat_length_const {A} (k : nat) (ls : list (list A)) :
  Forall (fun l => length l = k) ls -> length (concat ls) = (length ls * k)%nat.
Proof.
  induction 1 as [|l ls Hl _ IH]; simpl; [done|].
  rewrite length_app, IH, Hl. done.
Qed.

Lemma freq_bytes_length freq : length (freq_bytes freq) = 1024%nat.
Proof.
  unfold freq_bytes. rewrite (concat_length_const 4).
  - by rewrite length_map, length_seq.
  - apply Forall_forall. intros l (i & -> & _)%list_elem_of_fmap.
    apply le_bytes_length.
Qed.

Lemma write_header_length out original_size freq :
  length (write_header out original_size freq) = (length out + 1036)%nat.
Proof.
  rewrite write_header_eq, !length_app, le_bytes_length, freq_bytes_length.
  simpl. lia.
Qed.

(** The bit writer and the encoding loop only append to the file. *)

Lemma bw_write_bit_prefix bw bit : bw_f bw `prefix_of` bw_f (bw_write_bit bw bit).
Proof.
  unfold bw_write_bit. destruct (bw_bits_filled bw + 1 =? 8); simpl.
  - by apply prefix_app_r.
  - done.
Qed.

Lemma bw_write_bits_from_prefix n bw c :
  bw_f bw `prefix_of` bw_f (bw_write_bits_from n bw c).
Proof.
  revert bw. induction n as [|n IH]; intros bw; simpl; [done|].
  etrans; [apply bw_write_bit_prefix | apply IH].
Qed.

Lemma bw_flush_prefix bw : bw_f bw `prefix_of` bw_f (bw_flush bw).
Proof.
  unfold bw_flush. destruct (bw_bits_filled bw >? 0); simpl; [|done].
  by apply prefix_app_r.
Qed.

Lemma encode_loop_prefix table bw data :
  bw_f bw `prefix_of` bw_f (encode_loop table bw data).2.
Proof.
  revert bw. induction data as [|b data IH]; intros bw; simpl; [done|].
  destruct (len (get (mk_code 0 0) table b) =? 0); simpl; [done|].
  etrans; [apply bw_write_bits_from_prefix | apply IH].
Qed.

(** C2, as the specification states it, fails: the header written for the
    empty input is not 1032 bytes long. *)
Lemma header_of_empty_input_is_not_1032_bytes :
  let '(original_size, freq) := count_frequencies [] in
  (compress_file []).2 = write_header [] original_size freq
  /\ length (write_header [] original_size freq) <> 1032%nat.
Proof. vm_compute. split; [done | lia]. Qed.

(** C2, amended: for every input, the output of the encoder starts with the
    header (magic, original size, 256 frequency entries), and that header is
    exactly 1036 = 4 + 8 + 256 * 4 bytes long, whatever the payload. *)
Theorem header_is_1036_bytes (data : list Z) :
  let '(original_size, freq) := count_frequencies data in
  length (write_header [] original_size freq) = 1036%nat
  /\ write_header [] original_size freq `prefix_of` (compress_file data).2.
Proof.
  unfold compress_file.
  destruct (count_frequencies data) as [original_size freq].
  split; [by rewrite write_header_length|].
  set (hdr := write_header [] original_size freq).
  destruct (original_size >? 0).
  - pose proof (encode_loop_prefix
      (build_code_table (build_huffman_tree freq)) (bw_init hdr) data) as Hp.
    destruct (encode_loop _ _ _) as [[] bw']; simpl in *.
    + etrans; [exact Hp | apply bw_flush_prefix].
    + exact Hp.
  - simpl. apply (bw_flush_prefix (bw_init hdr)).
Qed.

(** ** Reading the header *)

Lemma read_freqs_short n inp freq :
  (length inp < 4 * n)%nat ->
  exists rest, read_freqs n inp freq = (Fatal "Truncated header (freq).", rest).
Proof.
  revert inp freq. induction n as [|n IH]; intros inp freq Hlen; [lia|].
  simpl. rewrite length_take.
  destruct (Nat.eqb_spec (4 `min` length inp) 4) as [Hfull|Hshort].
  - apply IH. rewrite length_drop. lia.
  - by eexists.
Qed.

Lemma read_freqs_long n inp freq :
  (4 * n <= length inp)%nat ->
  exists more, length more = n /\
    read_freqs n inp freq = (Ok (freq ++ more), drop (4 * n) inp).
Proof.
  revert inp freq. induction n as [|n IH]; intros inp freq Hlen.
  - exists []. by rewrite app_nil_r.
  - simpl read_freqs. rewrite length_take.
    rewrite (proj2 (Nat.eqb_eq _ _)) by lia.
    destruct (IH (drop 4 inp) (freq ++ [le_value (take 4 inp)]))
      as (more & Hmore & ->); [rewrite length_drop; lia|].
    exists (le_value (take 4 inp) :: more). split; [simpl; lia|].
    rewrite <- app_assoc, drop_drop. simpl app.
    by replace (4 + 4 * n)%nat with (4 * S n)%nat by lia.
Qed.

(** A header is read when, and only when, the file has the magic and at
    least 1036 bytes; the payload is then left unread. *)
Lemma read_header_ok inp original_size freq rest :
  read_header inp = (Ok (original_size, freq), rest) ->
  take 4 inp = MAGIC /\ (1036 <= length inp)%nat
  /\ original_size = le_value (take 8 (drop 4 inp))
  /\ length freq = 256%nat /\ rest = drop 1036 inp.
Proof.
  unfold read_header, fread. rewrite !length_take, length_drop.
  destruct (Nat.eqb_spec (4 `min` length inp) 4) as [H4|]; [|done]. cbn [negb].
  case_bool_decide as Hmagic; [|done]. cbn [negb].
  destruct (Nat.eqb_spec (8 `min` (length inp - 4)) 8) as [H8|]; [|done]. cbn [negb].
  destruct (decide (length inp < 1036)%nat) as [Hshort|Hlong].
  - destruct (read_freqs_short 256 (drop 8 (drop 4 inp)) []) as [r ->];
      [rewrite !length_drop; lia | done].
  - destruct (read_freqs_long 256 (drop 8 (drop 4 inp)) [])
      as (more & Hmore & ->); [rewrite !length_drop; lia|].
    intros [= <- <- <-]. repeat split; try done; [lia|].
    by rewrite !drop_drop.
Qed.

Lemma read_header_bad inp :
  take 4 inp <> MAGIC \/ (length inp < 1036)%nat ->
  exists msg rest, read_header inp = (Fatal msg, rest) /\ format_error msg.
Proof.
  intros Hbad. unfold read_header, fread, format_error.
  rewrite !length_take, length_drop.
  destruct (Nat.eqb_spec (4 `min` length inp) 4) as [H4|]; cbn [negb];
    [|do 2 eexists; split; [done | repeat constructor]].
  case_bool_decide as Hmagic; cbn [negb];
    [|do 2 eexists; split; [done | repeat constructor]].
  destruct (Nat.eqb_spec (8 `min` (length inp - 4)) 8) as [H8|]; cbn [negb];
    [|do 2 eexists; split; [done | repeat constructor]].
  destruct Hbad as [|Hshort]; [done|].
  destruct (read_freqs_short 256 (drop 8 (drop 4 inp)) []) as [r ->];
    [rewrite !length_drop; lia|].
  do 2 eexists; split; [done | repeat constructor].
Qed.

(** C8: an input whose first four bytes are not the magic "HUF1", or that is
    shorter than the 1036-byte header, makes decompression fail with one of
    the format errors of the header reader, and nothing is written to the
    output. *)
Theorem bad_header_fails_without_output (inp : list Z) :
  take 4 inp <> MAGIC \/ (length inp < 1036)%nat ->
  exists msg,
    exit_status (decompress_file inp) = EXIT_FAILURE msg
    /\ format_error msg
    /\ output (decompress_file inp) = [].
Proof.
  intros Hbad. unfold decompress_file.
  destruct (read_header_bad inp Hbad) as (msg & rest & -> & Hmsg).
  by exists msg.
Qed.

Lemma bad_header_fails_without_output_witness :
  (take 4 [72; 85; 70; 50; 0; 0; 0; 0] <> MAGIC
   \/ (length [72; 85; 70; 50; 0; 0; 0; 0] < 1036)%nat)
  /\ exists msg,
       exit_status (decompress_file [72; 85; 70; 50; 0; 0; 0; 0])
         = EXIT_FAILURE msg
       /\ format_error msg
       /\ output (decompress_file [72; 85; 70; 50; 0; 0; 0; 0]) = [].
Proof.
  assert (take 4 [72; 85; 70; 50; 0; 0; 0; 0] <> MAGIC
          \/ (length [72; 85; 70; 50; 0; 0; 0; 0] < 1036)%nat) as Hbad.
  { left. vm_compute. discriminate. }
  split; [exact Hbad|].
  exact (bad_header_fails_without_output [72; 85; 70; 50; 0; 0; 0; 0] Hbad).
Defined.

(** ** The root of a built tree is never a leaf *)

Lemma merge_loop_root_internal fuel pq root :
  (2 <= length pq)%nat -> merge_loop fuel pq = [root] ->
  node_is_leaf root = false.
Proof.
  revert pq. induction fuel as [|fuel IH]; intros pq Hlen.
  - simpl. intros ->. simpl in Hlen. lia.
  - destruct pq as [|a [|b rest]]; simpl in Hlen; try lia.
    simpl merge_loop.
    set (m := make_node (u32 (node_freq a + node_freq b)) false 0 a b).
    destruct rest as [|c rest].
    + simpl. destruct fuel; simpl; by intros [= <-].
    + apply IH. rewrite list_insert_sorted_length. simpl. lia.
Qed.

Lemma build_huffman_tree_not_leaf freq :
  node_is_leaf (build_huffman_tree freq) = false.
Proof.
  unfold build_huffman_tree.
  destruct (collect_leaves_spec freq) as (pq & -> & Hperm).
  apply Permutation_length in Hperm. rewrite length_map in Hperm.
  destruct (Z.eqb_spec (Z.of_nat (length (used_symbols freq))) 0); [done|].
  destruct (Z.eqb_spec (Z.of_nat (length (used_symbols freq))) 1)
    as [|Hmany].
  - by destruct (list_pop_front pq).
  - destruct (merge_loop_exits (length pq) pq) as [root Hroot];
      [done | by intros ->; simpl in Hperm; lia |].
    rewrite Hroot. simpl.
    apply (merge_loop_root_internal (length pq) pq); [lia | done].
Qed.

(** ** The decoding loop ends *)

Lemma br_read_bit_ok rd bit rd' :
  0 <= br_bits_left rd ->
  br_read_bit rd = (bit, true, rd') ->
  0 <= br_bits_left rd'
  /\ (S (Z.to_nat (br_bits_left rd') + 8 * length (br_f rd'))
      = Z.to_nat (br_bits_left rd) + 8 * length (br_f rd))%nat.
Proof.
  intros Hge. unfold br_read_bit, br_take_bit.
  destruct (Z.eqb_spec (br_bits_left rd) 0) as [Hz|Hnz].
  - destruct (br_f rd) as [|b rest]; [done|].
    intros [= <- <-]. cbn [br_bits_left br_f length]. rewrite Hz. split; lia.
  - intros [= <- <-]. simpl. lia.
Qed.

Lemma decode_step_measure root original_size st st' :
  node_is_leaf root = false ->
  0 <= br_bits_left (br st) ->
  decode_step root original_size st = inl st' ->
  0 <= br_bits_left (br st') /\ (decode_measure st' < decode_measure st)%nat.
Proof.
  intros Hroot Hge. unfold decode_step, decode_measure.
  destruct (written st <? original_size); [|done].
  destruct (node_is_leaf (cur st)) eqn:Hleaf.
  - intros [= <-]. simpl. rewrite Hroot. lia.
  - destruct (br_read_bit (br st)) as [[bit ok] rd'] eqn:Hread.
    destruct ok; simpl; [|done].
    destruct (is_null _); [done|]. intros [= <-]. simpl.
    destruct (br_read_bit_ok _ _ _ Hge Hread) as [Hge' Hbits].
    split; [done|].
    destruct (node_is_leaf
                (if bit =? 0 then node_left (cur st) else node_right (cur st)));
      lia.
Qed.

Lemma decode_loop_finishes fuel root original_size st :
  node_is_leaf root = false ->
  0 <= br_bits_left (br st) ->
  (decode_measure st < fuel)%nat ->
  exit_status (decode_loop fuel root original_size st) <> Unfinished.
Proof.
  intros Hroot. revert st.
  induction fuel as [|fuel IH]; intros st Hge Hfuel; [lia|].
  simpl. destruct (decode_step root original_size st) as [st'|r] eqn:Hstep.
  - destruct (decode_step_measure _ _ _ _ Hroot Hge Hstep) as [Hge' Hlt].
    apply IH; [done | lia].
  - revert Hstep. unfold decode_step.
    repeat (case_match; try done); by intros [= <-].
Qed.

(** The fuel that [decompress_file] gives the loop is never used up. *)
Theorem decompress_file_finishes (inp : list Z) :
  exit_status (decompress_file inp) <> Unfinished.
Proof.
  unfold decompress_file.
  destruct (read_header inp) as [[[original_size freq]|msg] rest]; [|done].
  destruct (original_size =? 0); [done|].
  destruct (is_null _); [done|].
  apply decode_loop_finishes.
  - apply build_huffman_tree_not_leaf.
  - done.
  - unfold decode_measure, decode_fuel.
    cbn [br cur br_init br_bits_left br_f].
    rewrite build_huffman_tree_not_leaf. lia.
Qed.

(** ** Runs of the decoding loop *)

Lemma decode_loop_steps n fuel root original_size st st' :
  node_is_leaf root = false ->
  0 <= br_bits_left (br st) ->
  (decode_measure st < fuel)%nat ->
  decode_steps n root original_size st = Some st' ->
  exists fuel', (decode_measure st' < fuel')%nat
    /\ decode_loop fuel root original_size st
       = decode_loop fuel' root original_size st'.
Proof.
  intros Hroot. revert fuel st.
  induction n as [|n IH]; intros fuel st Hge Hfuel; simpl.
  - intros [= <-]. by exists fuel.
  - destruct (decode_step root original_size st) as [st1|] eqn:Hstep; [|done].
    intros Hsteps.
    destruct (decode_step_measure _ _ _ _ Hroot Hge Hstep) as [Hge1 Hlt].
    destruct fuel as [|fuel]; [lia|].
    destruct (IH fuel st1 Hge1 ltac:(lia) Hsteps) as (fuel' & Hfuel' & Heq).
    exists fuel'. split; [done|]. simpl. by rewrite Hstep.
Qed.

(** The output holds exactly the bytes counted by [written]. *)
Lemma decode_steps_written n root original_size st st' :
  original_size < 2 ^ 64 ->
  written st = Z.of_nat (length (out st)) ->
  decode_steps n root original_size st = Some st' ->
  written st' = Z.of_nat (length (out st')).
Proof.
  intros Hsize. revert st. induction n as [|n IH]; intros st Hw; simpl.
  - by intros [= <-].
  - destruct (decode_step root original_size st) as [st1|] eqn:Hstep; [|done].
    apply IH. revert Hstep. unfold decode_step.
    destruct (Z.ltb_spec (written st) original_size) as [Hlt|]; [|done].
    destruct (node_is_leaf (cur st)).
    + intros [= <-]. simpl. rewrite length_app. simpl.
      unfold u64, wrap. rewrite Z.mod_small; lia.
    + destruct (br_read_bit (br st)) as [[bit ok] rd'].
      destruct ok; simpl; [|done].
      destruct (is_null _); [done|]. by intros [= <-].
Qed.

Lemma le_value_range bs :
  Forall byte bs -> 0 <= le_value bs < 256 ^ Z.of_nat (length bs).
Proof.
  induction 1 as [|b bs Hb _ IH]; simpl le_value; simpl length.
  - simpl. lia.
  - rewrite Nat2Z.inj_succ, Z.pow_succ_r by lia. unfold byte in Hb. lia.
Qed.

Lemma read_header_size_range inp original_size freq rest :
  Forall byte inp ->
  read_header inp = (Ok (original_size, freq), rest) ->
  0 <= original_size < 2 ^ 64.
Proof.
  intros Hbytes (_ & Hlen & -> & _)%read_header_ok.
  pose proof (le_value_range (take 8 (drop 4 inp))) as Hr.
  rewrite length_take, length_drop in Hr.
  replace (8 `min` (length inp - 4))%nat with 8%nat in Hr by lia.
  apply Hr. by apply Forall_take, Forall_drop.
Qed.

(** C7: take a container whose header declares an original size greater
    than 0 and from whose frequency table a tree is built.  If, after some
    iterations of the decoding loop, fewer bytes than declared have been
    written, the decoder needs a bit, and the bit reader has no bit and no
    byte left, then decompression ends with the fatal message "Unexpected
    end of encoded data." and the bytes written until then stay in the
    output. *)
Theorem exhausted_bit_reader_is_fatal
  (inp : list Z) (original_size : Z) (freq rest : list Z)
  (n : nat) (st : decoder) :
  Forall byte inp ->
  read_header inp = (Ok (original_size, freq), rest) ->
  0 < original_size ->
  build_huffman_tree freq <> NULL ->
  decode_steps n (build_huffman_tree freq) original_size
    {| written := 0; cur := build_huffman_tree freq;
       br := br_init rest; out := [] |} = Some st ->
  written st < original_size ->
  node_is_leaf (cur st) = false ->
  br_bits_left (br st) = 0 ->
  br_f (br st) = [] ->
  decompress_file inp =
    {| exit_status := EXIT_FAILURE "Unexpected end of encoded data.";
       output := out st; unread := [] |}
  /\ Z.of_nat (length (out st)) = written st.
Proof.
  intros Hbytes Hhdr Hpos Hroot Hsteps Hless Hnode Hbits Hf.
  pose proof (read_header_size_range _ _ _ _ Hbytes Hhdr) as Hsize.
  split.
  - unfold decompress_file. rewrite Hhdr.
    rewrite (proj2 (Z.eqb_neq _ _)) by lia.
    destruct (build_huffman_tree freq) as [|f lf s l r] eqn:Htree; [done|].
    cbn [is_null]. rewrite <- Htree in *.
    pose proof (build_huffman_tree_not_leaf freq) as Hnl.
    set (st0 := {| written := 0; cur := build_huffman_tree freq;
                   br := br_init rest; out := [] |}) in *.
    assert (decode_measure st0 < decode_fuel (length rest))%nat as Hfuel.
    { unfold decode_measure, decode_fuel, st0.
      cbn [br cur br_init br_bits_left br_f]. rewrite Hnl. lia. }
    destruct (decode_loop_steps n _ _ _ st0 _ Hnl (Z.le_refl 0) Hfuel Hsteps)
      as (fuel' & Hfuel' & ->).
    destruct fuel' as [|fuel']; [lia|].
    simpl. unfold decode_step.
    rewrite (proj2 (Z.ltb_lt _ _)) by done. rewrite Hnode.
    unfold br_read_bit. rewrite Hbits, Hf. simpl. by rewrite Hf.
  - symmetry.
    apply (decode_steps_written n (build_huffman_tree freq) original_size
             {| written := 0; cur := build_huffman_tree freq;
                br := br_init rest; out := [] |} st); [lia | done | done].
Qed.

(** The theorem at [truncated_container]: eight bytes are written, then the
    reader is exhausted. *)
Lemma exhausted_bit_reader_is_fatal_witness :
  Forall byte truncated_container
  /\ read_header truncated_container = (Ok (9, freq_table [(65, 9)]), [0])
  /\ 0 < 9
  /\ build_huffman_tree (freq_table [(65, 9)]) <> NULL
  /\ decode_steps 16 (build_huffman_tree (freq_table [(65, 9)])) 9
       {| written := 0; cur := build_huffman_tree (freq_table [(65, 9)]);
          br := br_init [0]; out := [] |} = Some exhausted_decoder
  /\ written exhausted_decoder < 9
  /\ node_is_leaf (cur exhausted_decoder) = false
  /\ br_bits_left (br exhausted_decoder) = 0
  /\ br_f (br exhausted_decoder) = []
  /\ decompress_file truncated_container =
       {| exit_status := EXIT_FAILURE "Unexpected end of encoded data.";
          output := [65; 65; 65; 65; 65; 65; 65; 65]; unread := [] |}
  /\ Z.of_nat (length [65; 65; 65; 65; 65; 65; 65; 65]) = 8.
Proof.
  assert (Forall byte truncated_container) as H1
    by (refine (bool_decide_unpack _ _); vm_compute; exact I).
  assert (read_header truncated_container
          = (Ok (9, freq_table [(65, 9)]), [0])) as H2
    by (vm_compute; reflexivity).
  assert (0 < 9) as H3 by lia.
  assert (build_huffman_tree (freq_table [(65, 9)]) <> NULL) as H4
    by (vm_compute; discriminate).
  assert (decode_steps 16 (build_huffman_tree (freq_table [(65, 9)])) 9
            {| written := 0; cur := build_huffman_tree (freq_table [(65, 9)]);
               br := br_init [0]; out := [] |} = Some exhausted_decoder) as H5
    by (vm_compute; reflexivity).
  assert (written exhausted_decoder < 9) as H6 by (simpl; lia).
  assert (node_is_leaf (cur exhausted_decoder) = false) as H7 by reflexivity.
  assert (br_bits_left (br exhausted_decoder) = 0) as H8 by reflexivity.
  assert (br_f (br exhausted_decoder) = []) as H9 by reflexivity.
  repeat (split; [assumption|]).
  exact (exhausted_bit_reader_is_fatal truncated_container 9
           (freq_table [(65, 9)]) [0] 16 exhausted_decoder
           H1 H2 H3 H4 H5 H6 H7 H8 H9).
Defined.

(** ** Containers that declare size 0 *)

Lemma decode_loop_not_missing_tree fuel root original_size st :
  exit_status (decode_loop fuel root original_size st)
  <> EXIT_FAILURE "Corrupt file: missing Huffman tree.".
Proof.
  revert st. induction fuel as [|fuel IH]; intros st; simpl; [done|].
  destruct (decode_step root original_size st) as [st'|r] eqn:Hstep; [apply IH|].
  revert Hstep. unfold decode_step.
  repeat (case_match; try done); by intros [= <-].
Qed.

(** C10: for a container with a complete header (valid magic, 8 size bytes,
    256 frequency entries), whatever the frequency entries are: when the
    declared size is 0, decompression succeeds with empty output and leaves
    every byte after the 1036-byte header unread; and decompression fails
    with "Corrupt file: missing Huffman tree." exactly when the declared size
    is greater than 0 and no tree is built from the table. *)
Theorem zero_size_skips_tree_check
  (inp : list Z) (original_size : Z) (freq rest : list Z) :
  Forall byte inp ->
  read_header inp = (Ok (original_size, freq), rest) ->
  (original_size = 0 ->
     decompress_file inp =
       {| exit_status := EXIT_SUCCESS; output := [];
          unread := drop 1036 inp |})
  /\ (exit_status (decompress_file inp)
        = EXIT_FAILURE "Corrupt file: missing Huffman tree."
      <-> 0 < original_size /\ build_huffman_tree freq = NULL).
Proof.
  intros Hbytes Hhdr.
  pose proof (read_header_size_range _ _ _ _ Hbytes Hhdr) as Hsize.
  pose proof (read_header_ok _ _ _ _ Hhdr) as (_ & _ & _ & _ & Hrest).
  unfold decompress_file. rewrite Hhdr. split.
  - intros ->. simpl. by rewrite Hrest.
  - destruct (Z.eqb_spec original_size 0) as [Hz|Hnz].
    + simpl. split; [done | lia].
    + destruct (build_huffman_tree freq) as [|f lf s l r] eqn:Htree.
      * simpl. split; [intros _; split; [lia | done] | done].
      * cbn [is_null]. split.
        -- intros Hfail. by apply decode_loop_not_missing_tree in Hfail.
        -- intros [_ [=]].
Qed.

(** The theorem at [zero_size_container]: nothing is decoded and the payload
    byte stays unread. *)
Lemma zero_size_skips_tree_check_witness :
  Forall byte zero_size_container
  /\ read_header zero_size_container = (Ok (0, freq_table [(65, 3)]), [255])
  /\ (0 = 0 ->
      decompress_file zero_size_container =
        {| exit_status := EXIT_SUCCESS; output := [];
           unread := drop 1036 zero_size_container |})
  /\ (exit_status (decompress_file zero_size_container)
        = EXIT_FAILURE "Corrupt file: missing Huffman tree."
      <-> 0 < 0 /\ build_huffman_tree (freq_table [(65, 3)]) = NULL)
  /\ drop 1036 zero_size_container = [255].
Proof.
  assert (Forall byte zero_size_container) as H1
    by (refine (bool_decide_unpack _ _); vm_compute; exact I).
  assert (read_header zero_size_container
          = (Ok (0, freq_table [(65, 3)]), [255])) as H2
    by (vm_compute; reflexivity).
  split; [exact H1|]. split; [exact H2|].
  destruct (zero_size_skips_tree_check zero_size_container 0
              (freq_table [(65, 3)]) [255] H1 H2) as [Hzero Htree].
  split; [exact Hzero|]. split; [exact Htree|].
  vm_compute. reflexivity.
Defined.

(** ** The scenario "AAABC" *)

(** C6: for the input [0x41,0x41,0x41,0x42,0x43]: the counting pass finds
    size 5 and the frequencies 0x41:3, 0x42:1, 0x43:1; the queue holds the
    two leaves of frequency 1 first, in the order of their insertion; the
    first merge takes these two (0x42 left, 0x43 right), the second merges
    that pair (left) with the leaf of 0x41 (right); the codes are 1 (one bit)
    for 0x41, 00 and 01 (two bits) for 0x42 and 0x43; after encoding the five
    bytes 7 bits are pending and no payload byte is written yet; the flush
    writes the single payload byte 11100010, whose last bit is the padding;
    and decompressing the container gives the input back. *)
Theorem aaabc_scenario :
  let data := [65; 65; 65; 66; 67] in
  let freq := freq_table [(65, 3); (66, 1); (67, 1)] in
  let A := make_node 3 true 65 NULL NULL in
  let B := make_node 1 true 66 NULL NULL in
  let C := make_node 1 true 67 NULL NULL in
  let BC := make_node 2 false 0 B C in
  let table := build_code_table (build_huffman_tree freq) in
  let header := write_header [] 5 freq in
  count_frequencies data = (5, freq)
  /\ collect_leaves freq = ([B; C; A], 3)
  /\ merge_step [B; C; A] = Some [BC; A]
  /\ merge_step [BC; A] = Some [make_node 5 false 0 BC A]
  /\ build_huffman_tree freq = make_node 5 false 0 BC A
  /\ get (mk_code 0 0) table 65 = mk_code 1 1
  /\ get (mk_code 0 0) table 66 = mk_code 0 2
  /\ get (mk_code 0 0) table 67 = mk_code 1 2
  /\ encode_loop table (bw_init header) data
     = (true, {| bw_f := header; bw_buf := 113; bw_bits_filled := 7 |})
  /\ compress_file data = (EXIT_SUCCESS, header ++ [226])
  /\ decompress_file (header ++ [226])
     = {| exit_status := EXIT_SUCCESS; output := data; unread := [] |}.
Proof. vm_compute. repeat split; reflexivity. Qed.

(** ** The counters of the counting pass *)

Lemma get_set_eq {A} (d : A) (a : list A) (i : Z) (x : A) :
  (Z.to_nat i < length a)%nat -> get d (set a i x) i = x.
Proof. intros. unfold get, set. by rewrite list_lookup_insert_eq. Qed.

Lemma get_set_ne {A} (d : A) (a : list A) (i j : Z) (x : A) :
  Z.to_nat i <> Z.to_nat j -> get d (set a i x) j = get d a j.
Proof. intros. unfold get, set. by rewrite list_lookup_insert_ne. Qed.

Lemma get_replicate {A} (d : A) (n : nat) (i : Z) :
  get d (replicate n d) i = d.
Proof.
  unfold get. destruct (replicate n d !! Z.to_nat i) eqn:Hl; [|done].
  by apply lookup_replicate in Hl as [-> _].
Qed.

Lemma set_length {A} (a : list A) (i : Z) (x : A) :
  length (set a i x) = length a.
Proof. apply length_insert. Qed.

Lemma wrap_wrap_add w x y : wrap w (wrap w x + y) = wrap w (x + y).
Proof. unfold wrap. apply Zplus_mod_idemp_l. Qed.

(** Counting [n] copies of one byte adds [n] to its counter modulo [2^32],
    and to the size modulo [2^64]. *)
Lemma count_replicate (n : nat) (b size : Z) (freq : list Z) :
  (Z.to_nat b < length freq)%nat ->
  foldl count_byte (u64 size, set freq b (u32 (get 0 freq b))) (replicate n b)
  = (u64 (size + Z.of_nat n), set freq b (u32 (get 0 freq b + Z.of_nat n))).
Proof.
  intros Hb. revert size freq Hb.
  induction n as [|n IH]; intros size freq Hb.
  - simpl. by rewrite !Z.add_0_r.
  - cbn [replicate foldl count_byte].
    rewrite get_set_eq by done.
    unfold u64, u32 in *. rewrite !wrap_wrap_add.
    pose proof (IH (size + 1) (set freq b (get 0 freq b + 1))) as IH'.
    rewrite set_length, get_set_eq in IH' by done.
    unfold set in *. rewrite !list_insert_insert_eq in *.
    rewrite IH' by done. f_equal; f_equal; [lia | f_equal; lia].
Qed.

Lemma count_frequencies_replicate (n : nat) (b : Z) :
  byte b ->
  count_frequencies (replicate n b)
  = (u64 (Z.of_nat n), set (replicate 256 0) b (u32 (Z.of_nat n))).
Proof.
  intros Hb. unfold count_frequencies.
  pose proof (count_replicate n b 0 (replicate 256 0)) as H.
  rewrite get_replicate in H. unfold set in *.
  rewrite insert_replicate in H. apply H.
  rewrite length_replicate. unfold byte in Hb. lia.
Qed.

(** ** Inputs of 4 GiB and more *)

Lemma build_huffman_tree_no_symbol : build_huffman_tree (replicate 256 0) = NULL.
Proof. vm_compute. reflexivity. Qed.

(** When the counter of a byte of the input has wrapped around to 0 and no
    other byte occurs, no code exists for the first byte to encode. *)
Lemma compress_file_counter_wrap (n : nat) (b : Z) :
  byte b -> (0 < n)%nat -> Z.of_nat n < 2 ^ 64 -> u32 (Z.of_nat n) = 0 ->
  compress_file (replicate n b)
  = (EXIT_FAILURE "Internal error: missing code.",
     write_header [] (Z.of_nat n) (replicate 256 0)).
Proof.
  intros Hb Hn Hsmall Hwrap. unfold compress_file.
  rewrite count_frequencies_replicate, Hwrap by done.
  unfold set. rewrite insert_replicate.
  replace (u64 (Z.of_nat n)) with (Z.of_nat n)
    by (unfold u64, wrap; rewrite Z.mod_small; lia).
  rewrite build_huffman_tree_no_symbol.
  rewrite (proj2 (Z.gtb_gt _ _)) by lia.
  change (build_code_table NULL) with (replicate 256 (mk_code 0 0)).
  destruct n as [|n]; [lia|].
  change (replicate (S n) b) with (b :: replicate n b).
  cbn [encode_loop]. rewrite get_replicate. reflexivity.
Qed.

Lemma to_nat_succ (z : Z) : 0 <= z -> Z.to_nat (z + 1) = S (Z.to_nat z).
Proof. intros. rewrite <- Z2Nat.inj_succ by done. f_equal. Qed.

(** C1, at the input of 4294967296 bytes 0x41: the 32-bit counter of 0x41
    wraps around to 0, so the encoder stops on "Internal error: missing code."
    after it has written the header, and what it has written is not decoded
    either: decompression stops on "Corrupt file: missing Huffman tree.".
    The round trip of C1 does not hold for this input. *)
Theorem four_gib_of_one_byte_is_not_compressed :
  compress_file (replicate (Z.to_nat 4294967296) 65)
  = (EXIT_FAILURE "Internal error: missing code.",
     write_header [] 4294967296 (replicate 256 0))
  /\ decompress_file (write_header [] 4294967296 (replicate 256 0))
     = {| exit_status := EXIT_FAILURE "Corrupt file: missing Huffman tree.";
          output := []; unread := [] |}.
Proof.
  split; [|vm_compute; reflexivity].
  pose proof (compress_file_counter_wrap (Z.to_nat 4294967296) 65) as H.
  rewrite Z2Nat.id in H by done. apply H.
  - unfold byte. lia.
  - change 4294967296 with (4294967295 + 1). rewrite to_nat_succ by done. lia.
  - reflexivity.
  - reflexivity.
Qed.

(** C5, at the input of N = 4294967296 bytes 0x42 (one byte value repeated
    N >= 1 times): the frequency table counted for it has no nonzero entry,
    and compression stops on "Internal error: missing code." instead of
    producing a container of N copies of the byte. *)
Theorem single_symbol_counter_wraps :
  (1 <= Z.to_nat 4294967296)%nat
  /\ (count_frequencies (replicate (Z.to_nat 4294967296) 66)).2
     = replicate 256 0
  /\ used_symbols (replicate 256 0) = []
  /\ (compress_file (replicate (Z.to_nat 4294967296) 66)).1
     = EXIT_FAILURE "Internal error: missing code.".
Proof.
  assert (Z.to_nat 4294967296 = S (Z.to_nat 4294967295)) as Hs.
  { change 4294967296 with (4294967295 + 1). by rewrite to_nat_succ. }
  assert (byte 66) as Hb by (unfold byte; lia).
  split; [rewrite Hs; lia|]. split; [|split].
  - rewrite count_frequencies_replicate, Z2Nat.id by done.
    reflexivity.
  - vm_compute. reflexivity.
  - rewrite compress_file_counter_wrap; [done | done | rewrite Hs; lia | |].
    + by rewrite Z2Nat.id.
    + by rewrite Z2Nat.id.
Qed.

(** C9, at the input of 4294967297 bytes 0x41: the size that goes into the
    header is 4294967297, the 32-bit counter of 0x41 has wrapped around to 1,
    and the sum of the 256 entries is 1: not zero, and not the size. *)
Theorem counters_wrap_but_size_does_not :
  count_frequencies (replicate (Z.to_nat 4294967297) 65)
  = (4294967297, freq_table [(65, 1)])
  /\ sum_entries (freq_table [(65, 1)]) = 1.
Proof.
  split; [|vm_compute; reflexivity].
  rewrite count_frequencies_replicate, Z2Nat.id by (unfold byte; lia).
  reflexivity.
Qed.

(** ** Codes and root-to-leaf paths *)

(** C4, at the frequency table [deep_freq]: in the tree built from it the
    leaves of the symbols 65 and 67 are at depth 33 and their paths differ in
    the first step; the 32-bit [path] of [build_codes_dfs] has lost that step,
    and the table holds the same code and length for both symbols: each code
    is a prefix of the other, and the code of 67 is not its path. *)
Theorem deep_tree_codes_collide :
  let root := build_huffman_tree deep_freq in
  let table := build_code_table root in
  find_path root 65 = Some (0 :: replicate 31 1 ++ [0])
  /\ find_path root 67 = Some (1 :: replicate 31 1 ++ [0])
  /\ get (mk_code 0 0) table 65 = mk_code 4294967294 33
  /\ get (mk_code 0 0) table 67 = mk_code 4294967294 33
  /\ code_bits (get (mk_code 0 0) table 65)
     `prefix_of` code_bits (get (mk_code 0 0) table 67).
Proof.
  vm_compute. repeat split; try reflexivity. by exists [].
Qed.

(** ** The counting pass on inputs shorter than 4 GiB *)

Lemma sum_entries_insert (freq : list Z) (i : nat) (x y : Z) :
  freq !! i = Some x ->
  sum_entries (<[i := y]> freq) = sum_entries freq - x + y.
Proof.
  revert i. induction freq as [|z freq IH]; intros [|i]; simpl; try done.
  - intros [= ->]. lia.
  - intros Hi. rewrite (IH i Hi). lia.
Qed.

Lemma entry_le_sum (freq : list Z) (i : nat) (x : Z) :
  Forall (fun z => 0 <= z) freq -> freq !! i = Some x -> x <= sum_entries freq.
Proof.
  intros Hpos. revert i. induction Hpos as [|z freq Hz Hpos IH]; intros [|i];
    simpl; try done.
  - intros [= ->]. clear IH.
    assert (0 <= sum_entries freq); [|lia].
    induction Hpos; simpl; lia.
  - intros Hi. specialize (IH i Hi). lia.
Qed.

Lemma count_byte_small (size : Z) (freq : list Z) (b : Z) :
  byte b -> length freq = 256%nat ->
  Forall (fun z => 0 <= z) freq ->
  sum_entries freq = size -> size + 1 < 2 ^ 32 ->
  exists x,
    freq !! Z.to_nat b = Some x /\ 0 <= x
    /\ count_byte (size, freq) b = (size + 1, <[Z.to_nat b := x + 1]> freq).
Proof.
  intros Hb Hlen Hpos Hsum Hsmall.
  destruct (lookup_lt_is_Some_2 freq (Z.to_nat b)) as [x Hx];
    [unfold byte in Hb; lia|].
  pose proof (entry_le_sum _ _ _ Hpos Hx) as Hle.
  assert (0 <= x) as Hx0.
  { eapply (proj1 (Forall_lookup _ _) Hpos); exact Hx. }
  exists x. split; [done|]. split; [done|].
  unfold count_byte, get, set. rewrite Hx. simpl.
  unfold u64, u32, wrap. rewrite !Z.mod_small; [done | lia | lia].
Qed.

Lemma count_fold_small (data : list Z) (size : Z) (freq : list Z) :
  Forall byte data -> length freq = 256%nat ->
  Forall (fun z => 0 <= z) freq ->
  sum_entries freq = size ->
  size + Z.of_nat (length data) < 2 ^ 32 ->
  exists freq',
    foldl count_byte (size, freq) data = (size + Z.of_nat (length data), freq')
    /\ length freq' = 256%nat
    /\ Forall (fun z => 0 <= z) freq'
    /\ sum_entries freq' = size + Z.of_nat (length data)
    /\ (forall c, get 0 freq c <= get 0 freq' c)
    /\ (forall c, c ∈ data -> 0 < get 0 freq' c).
Proof.
  intros Hdata. revert size freq.
  induction Hdata as [|b data Hb Hdata IH]; intros size freq Hlen Hpos Hsum Hsmall.
  - exists freq. simpl. rewrite Z.add_0_r.
    repeat split; try done. intros c Hc. by apply elem_of_nil in Hc.
  - simpl length in *.
    destruct (count_byte_small size freq b) as (x & Hx & Hx0 & Hstep);
      [done | done | done | done | lia |].
    destruct (IH (size + 1) (<[Z.to_nat b := x + 1]> freq))
      as (freq' & Hfold & Hlen' & Hpos' & Hsum' & Hmono & Hin).
    + by rewrite length_insert.
    + apply Forall_insert; [done | lia].
    + rewrite (sum_entries_insert _ _ x) by done. lia.
    + lia.
    + assert (forall c, get 0 freq c <= get 0 (<[Z.to_nat b := x + 1]> freq) c)
        as Hstepmono.
      { intros c. unfold get.
        destruct (decide (Z.to_nat b = Z.to_nat c)) as [<-|Hne].
        - rewrite list_lookup_insert_eq, Hx by (unfold byte in Hb; lia).
          simpl. lia.
        - by rewrite list_lookup_insert_ne. }
      exists freq'. cbn [foldl]. rewrite Hstep, Hfold.
      split; [f_equal; lia|]. split; [done|]. split; [done|].
      split; [lia|]. split.
      * intros c. etrans; [apply Hstepmono | apply Hmono].
      * intros c [->|Hc]%elem_of_cons; [|by apply Hin].
        eapply Z.lt_le_trans; [|apply Hmono]. unfold get.
        rewrite list_lookup_insert_eq by (unfold byte in Hb; lia).
        simpl. lia.
Qed.

(** While the input is shorter than [2^32] bytes no counter wraps around:
    the size is the length of the input, the entries sum up to it, and every
    byte of the input has a positive count. *)
Lemma count_frequencies_small (data : list Z) :
  Forall byte data -> Z.of_nat (length data) < 2 ^ 32 ->
  exists freq,
    count_frequencies data = (Z.of_nat (length data), freq)
    /\ length freq = 256%nat
    /\ Forall (fun z => 0 <= z < 2 ^ 32) freq
    /\ sum_entries freq = Z.of_nat (length data)
    /\ (forall c, c ∈ data -> 0 < get 0 freq c).
Proof.
  intros Hdata Hsmall.
  destruct (count_fold_small data 0 (replicate 256 0))
    as (freq & Hfold & Hlen & Hpos & Hsum & _ & Hin); try done.
  - apply Forall_replicate. lia.
  - exists freq. split; [exact Hfold|]. split; [done|]. split; [|done].
    apply Forall_lookup. intros i x Hx.
    pose proof (entry_le_sum _ _ _ Hpos Hx).
    pose proof (proj1 (Forall_lookup _ _) Hpos i x Hx). simpl in *. lia.
Qed.

(** ** Reading back a header that was written *)

Lemma le_value_le_bytes (n : nat) (z : Z) :
  0 <= z < 256 ^ Z.of_nat n -> le_value (le_bytes n z) = z.
Proof.
  revert z. induction n as [|n IH]; intros z Hz.
  - simpl in *. lia.
  - cbn [le_bytes le_value]. rewrite IH.
    + pose proof (Z.div_mod z 256). lia.
    + rewrite Nat2Z.inj_succ, Z.pow_succ_r in Hz by lia.
      split; [apply Z.div_pos; lia|].
      apply Z.div_lt_upper_bound; lia.
Qed.

Lemma read_freqs_written (xs : list Z) (rest freq : list Z) :
  Forall (fun z => 0 <= z < 2 ^ 32) xs ->
  read_freqs (length xs) (concat (map (le_bytes 4) xs) ++ rest) freq
  = (Ok (freq ++ xs), rest).
Proof.
  intros Hxs. revert freq.
  induction Hxs as [|x xs Hx Hxs IH]; intros freq.
  - simpl. by rewrite app_nil_r.
  - cbn [length map concat read_freqs fread]. rewrite <- app_assoc.
    rewrite take_app_length', drop_app_length' by by rewrite le_bytes_length.
    rewrite le_bytes_length, le_value_le_bytes by (simpl; lia).
    cbn [Nat.eqb]. by rewrite IH, <- app_assoc.
Qed.

Lemma freq_bytes_eq (freq : list Z) :
  length freq = 256%nat -> freq_bytes freq = concat (map (le_bytes 4) freq).
Proof.
  intros Hlen. unfold freq_bytes. f_equal.
  change (fun i : nat => le_bytes 4 (get 0 freq (Z.of_nat i)))
    with (le_bytes 4 ∘ (fun i : nat => get 0 freq (Z.of_nat i))).
  rewrite list_fmap_compose.
  f_equal. apply list_eq_same_length with 256%nat;
    [done | by rewrite length_fmap, length_seq |].
  intros i x y Hi. rewrite list_lookup_fmap, lookup_seq_lt by done.
  simpl. unfold get. rewrite Nat2Z.id. intros [= <-] ->. done.
Qed.

Lemma read_header_written (original_size : Z) (freq payload : list Z) :
  0 <= original_size < 2 ^ 64 ->
  length freq = 256%nat ->
  Forall (fun z => 0 <= z < 2 ^ 32) freq ->
  read_header (write_header [] original_size freq ++ payload)
  = (Ok (original_size, freq), payload).
Proof.
  intros Hsize Hlen Hfreq.
  rewrite write_header_eq, freq_bytes_eq by done.
  unfold read_header, fread. rewrite app_nil_l, <- !app_assoc.
  rewrite (take_app_length' MAGIC), (drop_app_length' MAGIC) by done.
  rewrite bool_decide_true by done. cbn [length MAGIC Nat.eqb negb].
  rewrite take_app_length', drop_app_length' by by rewrite le_bytes_length.
  rewrite le_bytes_length, le_value_le_bytes by (simpl; lia).
  cbn [Nat.eqb negb].
  rewrite <- Hlen at 1. by rewrite read_freqs_written.
Qed.

(** ** The leaves of the built tree *)

Lemma merge_loop_symbols fuel pq :
  merge_loop fuel pq ≫= symbols ≡ₚ pq ≫= symbols.
Proof.
  revert pq. induction fuel as [|fuel IH]; intros pq; simpl; [done|].
  destruct pq as [|a [|b rest]]; simpl; try done.
  rewrite IH, list_insert_sorted_perm, bind_cons. simpl.
  by rewrite <- app_assoc.
Qed.

Lemma leaves_symbols freq (idx : list nat) :
  (leaf_of freq <$> idx) ≫= symbols = (fun i : nat => u16 (Z.of_nat i)) <$> idx.
Proof.
  induction idx as [|i idx IH]; [done|].
  by rewrite !fmap_cons, bind_cons, IH.
Qed.

Lemma used_symbols_u16 freq :
  (fun i : nat => u16 (Z.of_nat i)) <$> used_symbols freq
  = Z.of_nat <$> used_symbols freq.
Proof.
  apply Forall_fmap_ext_1, Forall_forall. intros i Hi.
  apply u16_symbol. by eapply used_symbols_lt.
Qed.

(** The leaves of the tree are the symbols that occur, each once. *)
Lemma build_huffman_tree_symbols freq :
  symbols (build_huffman_tree freq) ≡ₚ Z.of_nat <$> used_symbols freq.
Proof.
  rewrite <- used_symbols_u16, <- (leaves_symbols freq).
  unfold build_huffman_tree.
  destruct (collect_leaves_spec freq) as (pq & -> & Hperm).
  change (map (leaf_of freq) (used_symbols freq))
    with (leaf_of freq <$> used_symbols freq) in Hperm.
  rewrite <- Hperm.
  pose proof (Permutation_length Hperm) as Hlen. rewrite length_fmap in Hlen.
  rewrite <- Hlen.
  destruct (Z.eqb_spec (Z.of_nat (length pq)) 0) as [Hz|Hnz].
  - destruct pq; [done | simpl in Hz; lia].
  - destruct (Z.eqb_spec (Z.of_nat (length pq)) 1) as [Hone|Hmany].
    + destruct pq as [|only [|? ?]]; simpl in Hone; try lia.
      simpl. by rewrite app_nil_r.
    + destruct (merge_loop_exits (length pq) pq) as [root Hroot];
        [done | by intros ->; simpl in Hnz |].
      rewrite Hroot. simpl.
      rewrite <- (merge_loop_symbols (length pq) pq), Hroot. simpl.
      by rewrite app_nil_r.
Qed.

Lemma used_symbols_NoDup freq : NoDup (used_symbols freq).
Proof. apply NoDup_filter, NoDup_seq. Qed.

Lemma build_huffman_tree_NoDup freq : NoDup (symbols (build_huffman_tree freq)).
Proof.
  rewrite build_huffman_tree_symbols.
  apply NoDup_fmap_2; [apply Nat2Z.inj' | apply used_symbols_NoDup].
Qed.

Lemma build_huffman_tree_has_symbol freq b :
  byte b -> 0 < get 0 freq b -> b ∈ symbols (build_huffman_tree freq).
Proof.
  intros Hb Hpos. rewrite build_huffman_tree_symbols.
  apply list_elem_of_fmap. exists (Z.to_nat b). unfold byte in Hb.
  split; [lia|]. unfold used_symbols.
  apply list_elem_of_filter. rewrite Z2Nat.id by lia. split; [done|].
  apply elem_of_seq. lia.
Qed.

Lemma build_huffman_tree_symbol_range freq s :
  s ∈ symbols (build_huffman_tree freq) -> byte s.
Proof.
  rewrite build_huffman_tree_symbols.
  intros (i & -> & Hi%used_symbols_lt)%list_elem_of_fmap. unfold byte. lia.
Qed.

(** ** The code table holds the root-to-leaf paths *)

Lemma leaf_paths_symbols n : (leaf_paths n).*1 = symbols n.
Proof.
  induction n as [|f [] s l IHl r IHr]; simpl; try done.
  rewrite fmap_app, <- !list_fmap_compose, <- IHl, <- IHr. done.
Qed.

Lemma leaf_paths_bits n s p : (s, p) ∈ leaf_paths n -> Forall is_bit p.
Proof.
  revert p. induction n as [|f [] sym l IHl r IHr]; intros p; simpl.
  - by intros ?%elem_of_nil.
  - intros [= _ ->]%list_elem_of_singleton. constructor.
  - intros [Hin|Hin]%elem_of_app;
      apply list_elem_of_fmap in Hin as ([s' p'] & [= -> ->] & Hin);
      constructor; auto; [by left | by right].
Qed.

Lemma leaf_paths_height n s p :
  (s, p) ∈ leaf_paths n -> (length p <= height n)%nat.
Proof.
  revert p. induction n as [|f [] sym l IHl r IHr]; intros p; simpl.
  - by intros ?%elem_of_nil.
  - by intros [= _ ->]%list_elem_of_singleton.
  - intros [Hin|Hin]%elem_of_app;
      apply list_elem_of_fmap in Hin as ([s' p'] & [= -> ->] & Hin); simpl.
    + specialize (IHl _ Hin). lia.
    + specialize (IHr _ Hin). lia.
Qed.

Lemma build_codes_dfs_paths n table path depth :
  build_codes_dfs n table path depth
  = foldl (store_code path depth) table (leaf_paths n).
Proof.
  revert table path depth.
  induction n as [|f [] s l IHl r IHr]; intros table path depth; simpl;
    try done.
  rewrite foldl_app, !foldl_fmap, IHl, IHr. done.
Qed.

Lemma store_code_length path depth table (entries : list (Z * list Z)) :
  length (foldl (store_code path depth) table entries) = length table.
Proof.
  revert table. induction entries as [|e entries IH]; intros table; simpl;
    [done|].
  rewrite IH. apply set_length.
Qed.

Lemma store_code_other path depth table (entries : list (Z * list Z)) s :
  0 <= s -> Forall (fun k => 0 <= k) entries.*1 -> s ∉ entries.*1 ->
  get (mk_code 0 0) (foldl (store_code path depth) table entries) s
  = get (mk_code 0 0) table s.
Proof.
  intros Hs. revert table.
  induction entries as [|[k p] entries IH]; intros table Hpos Hnotin; simpl;
    [done|].
  simpl in Hpos, Hnotin. inversion_clear Hpos as [|? ? Hk Hpos'].
  apply not_elem_of_cons in Hnotin as [Hne Hnotin].
  rewrite IH by done. unfold store_code. simpl.
  apply get_set_ne. lia.
Qed.

Lemma store_code_found path depth table (entries : list (Z * list Z)) s p :
  NoDup entries.*1 -> Forall (fun k => 0 <= k) entries.*1 ->
  (s, p) ∈ entries -> (Z.to_nat s < length table)%nat ->
  get (mk_code 0 0) (foldl (store_code path depth) table entries) s
  = path_code path depth p.
Proof.
  revert table.
  induction entries as [|[k q] entries IH]; intros table Hnodup Hpos Hin Hlen.
  - by apply elem_of_nil in Hin.
  - simpl in Hnodup, Hpos. apply NoDup_cons in Hnodup as [Hk Hnodup].
    inversion_clear Hpos as [|? ? Hk0 Hpos'].
    apply elem_of_cons in Hin as [[= -> ->]|Hin]; simpl.
    + rewrite store_code_other by done. unfold store_code. simpl.
      by apply get_set_eq.
    + apply IH; try done. unfold store_code. by rewrite set_length.
Qed.

(** ** Bits *)

Lemma lor_shiftl_bit (x b : Z) :
  0 <= x -> is_bit b -> Z.lor (Z.shiftl x 1) b = 2 * x + b.
Proof.
  intros Hx [-> | ->].
  - rewrite Z.lor_0_r, Z.shiftl_mul_pow2 by lia. lia.
  - destruct x as [|x|x]; [reflexivity | reflexivity | lia].
Qed.

Lemma land_1_bit (v b : Z) : is_bit b -> Z.land (2 * v + b) 1 = b.
Proof.
  intros Hb. change 1 with (Z.ones 1). rewrite Z.land_ones by lia.
  change (2 ^ 1) with 2. destruct Hb as [-> | ->].
  - rewrite Z.add_0_r, Z.mul_comm. apply Z.mod_mul. lia.
  - rewrite Z.add_comm, Z.mul_comm, Z.mod_add by lia. reflexivity.
Qed.

Lemma shiftr_succ_bit (v b : Z) (i : nat) :
  is_bit b ->
  Z.shiftr (2 * v + b) (Z.of_nat (S i)) = Z.shiftr v (Z.of_nat i).
Proof.
  intros Hb. rewrite Nat2Z.inj_succ, <- Z.add_1_l.
  rewrite <- Z.shiftr_shiftr by lia. f_equal.
  rewrite Z.shiftr_div_pow2 by lia. change (2 ^ 1) with 2.
  destruct Hb as [-> | ->].
  - rewrite Z.add_0_r, Z.mul_comm. apply Z.div_mul. lia.
  - rewrite Z.add_comm, Z.mul_comm, Z.div_add by lia. reflexivity.
Qed.

Lemma bits_value_snoc acc p b :
  bits_value acc (p ++ [b]) = 2 * bits_value acc p + b.
Proof. unfold bits_value. by rewrite foldl_app. Qed.

Lemma bits_value_range acc p (k : Z) :
  Forall is_bit p -> 0 <= k -> 0 <= acc < 2 ^ k ->
  0 <= bits_value acc p < 2 ^ (k + Z.of_nat (length p)).
Proof.
  intros Hp. revert acc k.
  induction Hp as [|b p Hb Hp IH]; intros acc k Hk Hacc.
  - simpl. by rewrite Z.add_0_r.
  - cbn [bits_value foldl length]. fold (bits_value (2 * acc + b) p).
    replace (k + Z.of_nat (S (length p))) with ((k + 1) + Z.of_nat (length p))
      by lia.
    apply IH; [lia|]. rewrite Z.pow_add_r by lia. change (2 ^ 1) with 2.
    destruct Hb as [-> | ->]; lia.
Qed.

(** The bits that [bw_write_bits] writes for the value of [p] are [p]. *)
Lemma code_bits_value p :
  Forall is_bit p ->
  code_bits (mk_code (bits_value 0 p) (Z.of_nat (length p))) = p.
Proof.
  induction p as [|b p IH] using rev_ind; intros Hp; [done|].
  apply Forall_app in Hp as [Hp Hb]. inversion_clear Hb as [|? ? Hb' _].
  unfold code_bits in *. cbn [code len] in *.
  rewrite Nat2Z.id in *. rewrite length_app, Nat.add_comm. cbn [length Nat.add].
  rewrite bits_value_snoc.
  change (seq 0 (S (length p))) with (0%nat :: seq 1 (length p)).
  rewrite <- fmap_S_seq. cbn [rev]. rewrite map_app. cbn [map].
  rewrite Nat2Z.inj_0, Z.shiftr_0_r, land_1_bit by done.
  f_equal. rewrite <- (IH Hp) at 2.
  change (S <$> seq 0 (length p)) with (map S (seq 0 (length p))).
  rewrite <- map_rev, map_map.
  apply map_ext. intros i. by rewrite shiftr_succ_bit.
Qed.

Lemma path_code_value p path depth :
  Forall is_bit p ->
  0 <= depth -> 0 <= path < 2 ^ depth ->
  0 < depth + Z.of_nat (length p) <= 32 ->
  path_code path depth p
  = mk_code (bits_value path p) (depth + Z.of_nat (length p)).
Proof.
  intros Hp. revert path depth.
  induction Hp as [|b p Hb Hp IH]; intros path depth Hdepth Hpath Hlen.
  - simpl in *. rewrite (proj2 (Z.eqb_neq _ _)) by lia.
    f_equal. lia.
  - cbn [path_code length] in *.
    rewrite lor_shiftl_bit by (done || lia).
    assert (2 * path + b < 2 ^ (depth + 1)) as Hnext.
    { rewrite Z.pow_add_r by lia. change (2 ^ 1) with 2.
      destruct Hb as [-> | ->]; lia. }
    assert (2 ^ (depth + 1) <= 2 ^ 32) as Hpow
      by (apply Z.pow_le_mono_r; lia).
    assert (0 <= 2 * path + b) as Hnn by (destruct Hb as [-> | ->]; lia).
    replace (u32 (2 * path + b)) with (2 * path + b)
      by (unfold u32, wrap; rewrite Z.mod_small; lia).
    replace (u8 (depth + 1)) with (depth + 1)
      by (unfold u8, wrap; rewrite Z.mod_small; lia).
    rewrite IH by lia. unfold bits_value. simpl. f_equal. lia.
Qed.

Lemma leaf_paths_internal n s p :
  node_is_leaf n = false -> (s, p) ∈ leaf_paths n -> p <> [].
Proof.
  destruct n as [|f [] sym l r]; simpl; try done.
  - by intros _ ?%elem_of_nil.
  - intros _ [Hin|Hin]%elem_of_app;
      by apply list_elem_of_fmap in Hin as ([s' p'] & [= -> ->] & Hin).
Qed.

(** In a tree, the path of a leaf is a prefix of no other leaf's path. *)
Lemma leaf_paths_prefix_free n s1 p1 s2 p2 :
  (s1, p1) ∈ leaf_paths n -> (s2, p2) ∈ leaf_paths n ->
  p1 `prefix_of` p2 -> s1 = s2 /\ p1 = p2.
Proof.
  revert p1 p2. induction n as [|f [] sym l IHl r IHr]; intros p1 p2; simpl.
  - by intros ?%elem_of_nil.
  - by intros [= -> ->]%list_elem_of_singleton [= -> ->]%list_elem_of_singleton.
  - intros [H1|H1]%elem_of_app [H2|H2]%elem_of_app Hpre;
      apply list_elem_of_fmap in H1 as ([s1' q1] & [= -> ->] & H1);
      apply list_elem_of_fmap in H2 as ([s2' q2] & [= -> ->] & H2);
      simpl in *.
    + apply prefix_cons_inv_2 in Hpre.
      destruct (IHl _ _ H1 H2 Hpre) as [-> ->]. done.
    + by apply prefix_cons_inv_1 in Hpre.
    + by apply prefix_cons_inv_1 in Hpre.
    + apply prefix_cons_inv_2 in Hpre.
      destruct (IHr _ _ H1 H2 Hpre) as [-> ->]. done.
Qed.

Lemma build_code_table_paths freq :
  build_code_table (build_huffman_tree freq)
  = foldl (store_code 0 0) (replicate 256 (mk_code 0 0))
      (leaf_paths (build_huffman_tree freq)).
Proof.
  unfold build_code_table.
  destruct (build_huffman_tree freq) eqn:Htree; [done|].
  cbn [is_null]. apply build_codes_dfs_paths.
Qed.

(** While the tree is at most 32 deep, the table entry of the symbol of a
    leaf holds the path of that leaf. *)
Lemma code_table_entry freq s p :
  (height (build_huffman_tree freq) <= 32)%nat ->
  (s, p) ∈ leaf_paths (build_huffman_tree freq) ->
  p <> [] /\ Forall is_bit p
  /\ get (mk_code 0 0) (build_code_table (build_huffman_tree freq)) s
     = mk_code (bits_value 0 p) (Z.of_nat (length p)).
Proof.
  intros Hheight Hin.
  pose proof (leaf_paths_internal _ _ _ (build_huffman_tree_not_leaf freq) Hin)
    as Hne.
  pose proof (leaf_paths_bits _ _ _ Hin) as Hbits.
  pose proof (leaf_paths_height _ _ _ Hin) as Hlen.
  assert (s ∈ symbols (build_huffman_tree freq)) as Hs.
  { rewrite <- leaf_paths_symbols. apply list_elem_of_fmap. by exists (s, p). }
  apply build_huffman_tree_symbol_range in Hs.
  split; [done|]. split; [done|].
  rewrite build_code_table_paths.
  rewrite (store_code_found _ _ _ _ s p).
  - rewrite path_code_value;
      [done | done | done | simpl; lia
      | destruct p; [done | simpl length in *; lia]].
  - rewrite leaf_paths_symbols. apply build_huffman_tree_NoDup.
  - rewrite leaf_paths_symbols. apply Forall_forall.
    intros k Hk%build_huffman_tree_symbol_range. unfold byte in Hk. lia.
  - done.
  - rewrite length_replicate. unfold byte in Hs. lia.
Qed.

(** A symbol without a leaf has no code. *)
Lemma code_table_no_entry freq s :
  0 <= s -> s ∉ symbols (build_huffman_tree freq) ->
  get (mk_code 0 0) (build_code_table (build_huffman_tree freq)) s
  = mk_code 0 0.
Proof.
  intros Hs Hnotin. rewrite build_code_table_paths.
  rewrite store_code_other.
  - apply get_replicate.
  - done.
  - rewrite leaf_paths_symbols. apply Forall_forall.
    intros k Hk%build_huffman_tree_symbol_range. unfold byte in Hk. lia.
  - by rewrite leaf_paths_symbols.
Qed.

(** X1: for every frequency table whose tree is at most 32 deep: the code of
    each symbol that occurs has a length greater than 0 and is the path from
    the root to the leaf of the symbol, and no such code is a prefix of the
    code of another symbol. *)
Theorem shallow_codes_are_prefix_free (freq : list Z) :
  (height (build_huffman_tree freq) <= 32)%nat ->
  let root := build_huffman_tree freq in
  let table := build_code_table root in
  (forall s p, (s, p) ∈ leaf_paths root ->
     0 < len (get (mk_code 0 0) table s)
     /\ code_bits (get (mk_code 0 0) table s) = p)
  /\ (forall s1 s2, s1 ∈ symbols root -> s2 ∈ symbols root ->
        code_bits (get (mk_code 0 0) table s1)
          `prefix_of` code_bits (get (mk_code 0 0) table s2) ->
        s1 = s2).
Proof.
  intros Hheight root table.
  assert (forall s p, (s, p) ∈ leaf_paths root ->
     0 < len (get (mk_code 0 0) table s)
     /\ code_bits (get (mk_code 0 0) table s) = p) as Hpaths.
  { intros s p Hin.
    destruct (code_table_entry freq s p Hheight Hin) as (Hne & Hbits & Heq).
    unfold table, root. rewrite Heq. split.
    - simpl. destruct p; [done | simpl; lia].
    - by apply code_bits_value. }
  split; [exact Hpaths|].
  intros s1 s2 Hs1 Hs2.
  rewrite <- leaf_paths_symbols in Hs1, Hs2.
  apply list_elem_of_fmap in Hs1 as ([s1' p1] & -> & Hin1).
  apply list_elem_of_fmap in Hs2 as ([s2' p2] & -> & Hin2). simpl.
  rewrite (proj2 (Hpaths _ _ Hin1)), (proj2 (Hpaths _ _ Hin2)).
  intros Hpre. by destruct (leaf_paths_prefix_free _ _ _ _ _ Hin1 Hin2 Hpre).
Qed.

Lemma shallow_codes_are_prefix_free_witness :
  (height (build_huffman_tree (freq_table [(65, 3); (66, 1); (67, 1)]%Z))
   <= 32)%nat
  /\ let root := build_huffman_tree (freq_table [(65, 3); (66, 1); (67, 1)]) in
     let table := build_code_table root in
     (forall s p, (s, p) ∈ leaf_paths root ->
        0 < len (get (mk_code 0 0) table s)
        /\ code_bits (get (mk_code 0 0) table s) = p)
     /\ (forall s1 s2, s1 ∈ symbols root -> s2 ∈ symbols root ->
           code_bits (get (mk_code 0 0) table s1)
             `prefix_of` code_bits (get (mk_code 0 0) table s2) ->
           s1 = s2).
Proof.
  assert (height (build_huffman_tree (freq_table [(65, 3); (66, 1); (67, 1)]%Z))
          <= 32)%nat as H by (vm_compute; lia).
  split; [exact H|].
  exact (shallow_codes_are_prefix_free
           (freq_table [(65, 3); (66, 1); (67, 1)]) H).
Defined.

(** ** The bit writer *)

Lemma land_1_is_bit (x : Z) : is_bit (Z.land x 1).
Proof.
  change 1 with (Z.ones 1). rewrite Z.land_ones by lia. change (2 ^ 1) with 2.
  pose proof (Z.mod_pos_bound x 2). unfold is_bit. lia.
Qed.

Lemma code_bits_is_bit c : Forall is_bit (code_bits c).
Proof.
  unfold code_bits. apply Forall_forall.
  intros b (i & -> & _)%list_elem_of_fmap. apply land_1_is_bit.
Qed.

Lemma bits_of_bytes_app l k :
  bits_of_bytes (l ++ k) = bits_of_bytes l ++ bits_of_bytes k.
Proof. apply bind_app. Qed.

Lemma bits_of_bytes_singleton b : bits_of_bytes [b] = byte_bits b.
Proof. change (bits_of_bytes [b]) with (byte_bits b ++ []). apply app_nil_r. Qed.

Lemma byte_bits_value q :
  Forall is_bit q -> length q = 8%nat -> byte_bits (bits_value 0 q) = q.
Proof.
  intros Hq Hlen. unfold byte_bits.
  change 8 with (Z.of_nat 8). rewrite <- Hlen. by apply code_bits_value.
Qed.

Lemma bw_init_holds hdr : bw_holds hdr [] (bw_init hdr).
Proof.
  exists [], []. simpl. rewrite app_nil_r.
  repeat split; try done. lia.
Qed.

Lemma bw_write_bit_holds hdr bits bw b :
  bw_holds hdr bits bw -> is_bit b ->
  bw_holds hdr (bits ++ [b]) (bw_write_bit bw b).
Proof.
  intros (bytes & q & Hf & -> & Hq & Hfilled & Hlen & Hbuf) Hb.
  pose proof (bits_value_range 0 q 0 Hq ltac:(lia) ltac:(lia)) as Hrange.
  assert (Forall is_bit (q ++ [b])) as Hqb by (apply Forall_app; auto).
  assert (0 <= bits_value 0 (q ++ [b]) < 2 ^ 8) as Hrange'.
  { pose proof (bits_value_range 0 (q ++ [b]) 0 Hqb ltac:(lia) ltac:(lia))
      as Hr.
    rewrite Z.add_0_l in Hr.
    assert (2 ^ Z.of_nat (length (q ++ [b])) <= 2 ^ 8); [|lia].
    apply Z.pow_le_mono_r; [lia|]. rewrite length_app. simpl. lia. }
  assert (u8 (Z.lor (Z.shiftl (bw_buf bw) 1) (if b =? 0 then 0 else 1))
          = bits_value 0 (q ++ [b])) as Hnew.
  { replace (if b =? 0 then 0 else 1) with b by (by destruct Hb as [-> | ->]).
    rewrite Hbuf, lor_shiftl_bit, <- bits_value_snoc by (done || lia).
    unfold u8, wrap. apply Z.mod_small. lia. }
  unfold bw_write_bit. rewrite Hnew, Hfilled.
  destruct (Z.eqb_spec (Z.of_nat (length q) + 1) 8) as [Hfull|Hnot].
  - exists (bytes ++ [bits_value 0 (q ++ [b])]), []. simpl.
    rewrite Hf, app_nil_r, bits_of_bytes_app, bits_of_bytes_singleton.
    rewrite byte_bits_value by (done || rewrite length_app; simpl; lia).
    rewrite <- !app_assoc. repeat split; try done. lia.
  - exists bytes, (q ++ [b]). simpl. rewrite length_app. simpl.
    rewrite <- app_assoc. repeat split; try done; lia.
Qed.

Lemma bw_write_bits_holds hdr bits bw c l :
  bw_holds hdr bits bw ->
  bw_holds hdr (bits ++ code_bits (mk_code c l)) (bw_write_bits bw c l).
Proof.
  unfold bw_write_bits, code_bits. cbn [code len].
  generalize (Z.to_nat l) as n. intros n. revert bits bw.
  induction n as [|n IH]; intros bits bw Hbw.
  - simpl. by rewrite app_nil_r.
  - rewrite seq_S. cbn [bw_write_bits_from]. rewrite rev_app_distr. simpl.
    rewrite (cons_middle _ bits), app_assoc.
    apply IH, bw_write_bit_holds; [done | apply land_1_is_bit].
Qed.

Lemma encode_loop_holds hdr table data bits bw :
  Forall (fun b => len (get (mk_code 0 0) table b) <> 0) data ->
  bw_holds hdr bits bw ->
  exists bw',
    encode_loop table bw data = (true, bw')
    /\ bw_holds hdr
         (bits ++ (data ≫= fun b => code_bits (get (mk_code 0 0) table b))) bw'.
Proof.
  intros Hdata. revert bits bw.
  induction Hdata as [|b data Hb Hdata IH]; intros bits bw Hbw.
  - exists bw. simpl. by rewrite app_nil_r.
  - cbn [encode_loop]. rewrite (proj2 (Z.eqb_neq _ _)) by done.
    rewrite bind_cons, app_assoc. apply IH.
    destruct (get (mk_code 0 0) table b) as [c l].
    by apply bw_write_bits_holds.
Qed.

Lemma bits_value_zeros acc (k : nat) :
  bits_value acc (replicate k 0) = acc * 2 ^ Z.of_nat k.
Proof.
  revert acc. induction k as [|k IH]; intros acc.
  - simpl. lia.
  - cbn [replicate bits_value foldl]. fold (bits_value (2 * acc + 0) (replicate k 0)).
    rewrite IH, Nat2Z.inj_succ, Z.pow_succ_r by lia. lia.
Qed.

(** After the flush the file holds the bits, padded with fewer than eight
    zero bits. *)
Lemma bw_flush_holds hdr bits bw :
  bw_holds hdr bits bw ->
  exists payload (k : nat),
    bw_f (bw_flush bw) = hdr ++ payload
    /\ bits_of_bytes payload = bits ++ replicate k 0
    /\ (k < 8)%nat.
Proof.
  intros (bytes & q & Hf & -> & Hq & Hfilled & Hlen & Hbuf).
  unfold bw_flush. rewrite Hfilled.
  destruct (Z.gtb_spec (Z.of_nat (length q)) 0) as [Hpos|Hzero].
  - set (k := (8 - length q)%nat).
    assert (u8 (Z.shiftl (bw_buf bw) (8 - Z.of_nat (length q)))
            = bits_value 0 (q ++ replicate k 0)) as Hbyte.
    { unfold bits_value at 1. rewrite foldl_app. fold (bits_value 0 q).
      fold (bits_value (bits_value 0 q) (replicate k 0)).
      rewrite bits_value_zeros, Hbuf, Z.shiftl_mul_pow2 by lia.
      replace (Z.of_nat k) with (8 - Z.of_nat (length q)) by lia.
      pose proof (bits_value_range 0 q 0 Hq ltac:(lia) ltac:(lia)) as Hr.
      rewrite Z.add_0_l in Hr.
      unfold u8, wrap. apply Z.mod_small. split; [lia|].
      replace (2 ^ 8) with
        (2 ^ Z.of_nat (length q) * 2 ^ (8 - Z.of_nat (length q)))
        by (rewrite <- Z.pow_add_r by lia; f_equal; lia).
      apply Z.mul_lt_mono_pos_r; [apply Z.pow_pos_nonneg; lia | lia]. }
    exists (bytes ++ [bits_value 0 (q ++ replicate k 0)]), k. simpl.
    rewrite Hbyte, Hf, <- app_assoc.
    rewrite bits_of_bytes_app, bits_of_bytes_singleton, byte_bits_value.
    + rewrite <- app_assoc. split; [done|]. split; [done | lia].
    + apply Forall_app. split; [done|]. apply Forall_replicate. by left.
    + rewrite length_app, length_replicate. lia.
  - exists bytes, 0%nat. destruct q; [|simpl in Hzero; lia].
    simpl. rewrite !app_nil_r. split; [done|]. split; [done | lia].
Qed.

(** ** The bit reader *)

Lemma byte_bits_cons z :
  byte_bits z = Z.land (Z.shiftr z 7) 1 :: tail (byte_bits z).
Proof. reflexivity. Qed.

Lemma byte_bits_length z : length (byte_bits z) = 8%nat.
Proof. reflexivity. Qed.

Lemma land_shiftr_testbit z i :
  0 <= i -> Z.land (Z.shiftr z i) 1 = Z.b2z (Z.testbit z i).
Proof.
  intros Hi. change 1 with (Z.ones 1). rewrite Z.land_ones by lia.
  change (2 ^ 1) with 2. rewrite <- Z.bit0_mod, Z.shiftr_spec by lia.
  by rewrite Z.add_0_l.
Qed.

Lemma bit_of_shifted_byte z (i : nat) :
  (i < 7)%nat ->
  Z.land (Z.shiftr (u8 (Z.shiftl z 1)) (Z.of_nat (S i))) 1
  = Z.land (Z.shiftr z (Z.of_nat i)) 1.
Proof.
  intros Hi. rewrite !land_shiftr_testbit by lia. f_equal.
  unfold u8, wrap. rewrite Z.mod_pow2_bits_low, Z.shiftl_spec by lia.
  f_equal. lia.
Qed.

Lemma byte_bits_shiftl z :
  byte_bits (u8 (Z.shiftl z 1)) = tail (byte_bits z) ++ [0].
Proof.
  unfold byte_bits, code_bits. cbn [code len].
  change (rev (seq 0 (Z.to_nat 8))) with [7; 6; 5; 4; 3; 2; 1; 0]%nat.
  cbn [map tail app].
  rewrite <- (bit_of_shifted_byte z 6), <- (bit_of_shifted_byte z 5),
    <- (bit_of_shifted_byte z 4), <- (bit_of_shifted_byte z 3),
    <- (bit_of_shifted_byte z 2), <- (bit_of_shifted_byte z 1),
    <- (bit_of_shifted_byte z 0) by lia.
  repeat f_equal.
  rewrite land_shiftr_testbit by lia.
  unfold u8, wrap. rewrite Z.mod_pow2_bits_low, Z.shiftl_spec by lia.
  by rewrite Z.testbit_neg_r.
Qed.

Lemma br_take_bit_stream rd b s :
  0 < br_bits_left rd <= 8 ->
  br_stream rd = b :: s ->
  exists rd',
    br_take_bit rd = (b, true, rd')
    /\ br_stream rd' = s /\ 0 <= br_bits_left rd' <= 8.
Proof.
  intros Hleft. unfold br_stream, br_take_bit.
  replace (Z.to_nat (br_bits_left rd))
    with (S (Z.to_nat (br_bits_left rd - 1))) by lia.
  rewrite byte_bits_cons at 1. cbn [take app]. intros [= <- <-].
  eexists. split; [done|]. cbn [br_bits_left br_buf br_f].
  split; [|lia]. rewrite byte_bits_shiftl, take_app_le; [done|].
  pose proof (byte_bits_length (br_buf rd)) as Hl.
  destruct (byte_bits (br_buf rd)); simpl in *; lia.
Qed.

(** Reading a bit delivers the first bit of the stream. *)
Lemma br_read_bit_stream rd b s :
  0 <= br_bits_left rd <= 8 ->
  br_stream rd = b :: s ->
  exists rd',
    br_read_bit rd = (b, true, rd')
    /\ br_stream rd' = s /\ 0 <= br_bits_left rd' <= 8.
Proof.
  intros Hleft Hstream. unfold br_read_bit.
  destruct (Z.eqb_spec (br_bits_left rd) 0) as [Hz|Hnz].
  - unfold br_stream in Hstream. rewrite Hz in Hstream. simpl in Hstream.
    destruct (br_f rd) as [|byte0 rest]; [done|].
    apply br_take_bit_stream; [simpl; lia|]. exact Hstream.
  - apply br_take_bit_stream; [lia | done].
Qed.

Lemma br_stream_short rd (k : nat) :
  0 <= br_bits_left rd <= 8 ->
  length (br_stream rd) = k -> (k < 8)%nat -> br_f rd = [].
Proof.
  intros Hleft Hlen Hk. unfold br_stream in Hlen.
  destruct (br_f rd) as [|byte0 rest]; [done|].
  rewrite length_app in Hlen. unfold bits_of_bytes in Hlen.
  rewrite bind_cons, length_app, byte_bits_length in Hlen. lia.
Qed.

Lemma br_init_stream payload : br_stream (br_init payload) = bits_of_bytes payload.
Proof. reflexivity. Qed.

(** ** The decoding loop on the bits of a sequence of leaves *)

Section Decoding.

Variable root : Node.
Variable original_size : Z.
Hypothesis original_size_u64 : original_size < 2 ^ 64.

Lemma decode_steps_app n m st st1 st2 :
  decode_steps n root original_size st = Some st1 ->
  decode_steps m root original_size st1 = Some st2 ->
  decode_steps (n + m) root original_size st = Some st2.
Proof.
  revert st. induction n as [|n IH]; intros st; simpl.
  - by intros [= ->].
  - destruct (decode_step root original_size st) as [st'|]; [|done].
    apply IH.
Qed.

Lemma leaf_paths_not_null n : leaf_paths n <> [] -> is_null n = false.
Proof. by destruct n. Qed.

(** From a node, the bits of the path of a leaf below it lead the decoder
    to that leaf. *)
Lemma decode_walk n s p :
  (s, p) ∈ leaf_paths n ->
  forall st rest,
    cur st = n -> written st < original_size ->
    0 <= br_bits_left (br st) <= 8 ->
    br_stream (br st) = p ++ rest ->
    exists st',
      decode_steps (length p) root original_size st = Some st'
      /\ node_is_leaf (cur st') = true /\ node_symbol (cur st') = s
      /\ written st' = written st /\ out st' = out st
      /\ br_stream (br st') = rest /\ 0 <= br_bits_left (br st') <= 8.
Proof.
  revert p. induction n as [|f [] sym l IHl r IHr]; intros p; simpl.
  - by intros ?%elem_of_nil.
  - intros [= -> ->]%list_elem_of_singleton st rest Hcur Hless Hleft Hstream.
    exists st. rewrite Hcur. by repeat split; try lia.
  - intros Hin st rest Hcur Hless Hleft Hstream.
    assert (exists b p' child,
      p = b :: p' /\ (s, p') ∈ leaf_paths child
      /\ (if b =? 0 then node_left (cur st) else node_right (cur st)) = child
      /\ (child = l \/ child = r)) as (b & p' & child & -> & Hin' & Hchild & Hlr).
    { rewrite Hcur. simpl.
      apply elem_of_app in Hin as [Hin|Hin];
        apply list_elem_of_fmap in Hin as ([s' q] & [= -> ->] & Hin).
      - exists 0, q, l. auto.
      - exists 1, q, r. auto. }
    destruct (br_read_bit_stream (br st) b (p' ++ rest) Hleft Hstream)
      as (rd' & Hread & Hstream' & Hleft').
    assert (decode_step root original_size st
            = inl {| written := written st; cur := child;
                     br := rd'; out := out st |}) as Hstep.
    { unfold decode_step. rewrite (proj2 (Z.ltb_lt _ _)) by done.
      rewrite Hcur at 1. cbn [node_is_leaf]. rewrite Hread. cbn [negb].
      rewrite Hchild, leaf_paths_not_null; [done|].
      intros Hnil. rewrite Hnil in Hin'. by apply elem_of_nil in Hin'. }
    cbn [length decode_steps]. rewrite Hstep.
    set (st1 := {| written := written st; cur := child;
                   br := rd'; out := out st |}).
    assert (exists st',
      decode_steps (length p') root original_size st1 = Some st'
      /\ node_is_leaf (cur st') = true /\ node_symbol (cur st') = s
      /\ written st' = written st1 /\ out st' = out st1
      /\ br_stream (br st') = rest /\ 0 <= br_bits_left (br st') <= 8)
      as (st' & Hsteps & Hrest).
    { subst st1. destruct Hlr as [-> | ->];
        [apply (IHl p') | apply (IHr p')]; simpl; done. }
    exists st'. split; [exact Hsteps | exact Hrest].
Qed.

(** At a leaf the decoder writes the symbol and goes back to the root. *)
Lemma decode_emit st :
  node_is_leaf (cur st) = true -> byte (node_symbol (cur st)) ->
  0 <= written st < original_size ->
  decode_step root original_size st
  = inl {| written := written st + 1; cur := root; br := br st;
           out := out st ++ [node_symbol (cur st)] |}.
Proof.
  intros Hleaf Hsym Hw. unfold decode_step.
  rewrite (proj2 (Z.ltb_lt _ _)), Hleaf by lia.
  unfold u64, u8, wrap, byte in *. rewrite !Z.mod_small by lia. done.
Qed.

Variable path_of : Z -> list Z.

Lemma decode_data data :
  Forall (fun b => byte b /\ (b, path_of b) ∈ leaf_paths root) data ->
  forall st rest,
    cur st = root ->
    0 <= written st ->
    written st + Z.of_nat (length data) <= original_size ->
    0 <= br_bits_left (br st) <= 8 ->
    br_stream (br st) = (data ≫= path_of) ++ rest ->
    exists n st',
      decode_steps n root original_size st = Some st'
      /\ cur st' = root
      /\ written st' = written st + Z.of_nat (length data)
      /\ out st' = out st ++ data
      /\ br_stream (br st') = rest /\ 0 <= br_bits_left (br st') <= 8.
Proof.
  induction 1 as [|b data [Hb Hin] Hdata IH];
    intros st rest Hcur Hw0 Hw Hleft Hstream.
  - exists 0%nat, st. simpl in *. rewrite app_nil_r, Z.add_0_r. done.
  - cbn [length] in Hw. rewrite bind_cons, <- app_assoc in Hstream.
    destruct (decode_walk root b (path_of b) Hin st _ Hcur ltac:(lia)
                Hleft Hstream)
      as (st1 & Hwalk & Hleaf & Hsym & Hw1 & Hout1 & Hstream1 & Hleft1).
    pose proof (decode_emit st1 Hleaf ltac:(by rewrite Hsym) ltac:(lia))
      as Hemit.
    set (st2 := {| written := written st1 + 1; cur := root; br := br st1;
                   out := out st1 ++ [node_symbol (cur st1)] |}) in Hemit.
    destruct (IH st2 rest) as (n & st' & Hsteps & Hcur' & Hw' & Hout' & Hrest);
      [done | simpl; lia | simpl; lia | done | done |].
    exists (length (path_of b) + S n)%nat, st'.
    split; [|simpl in *; rewrite Hsym, Hout1, <- app_assoc in Hout';
             repeat split; try tauto; lia].
    eapply decode_steps_app; [exact Hwalk|].
    cbn [decode_steps]. by rewrite Hemit.
Qed.

End Decoding.

(** ** The round trip on inputs the counters and the codes can hold *)

Lemma symbols_leaf_path n s : s ∈ symbols n -> exists p, (s, p) ∈ leaf_paths n.
Proof.
  rewrite <- leaf_paths_symbols.
  intros ([s' p] & -> & Hin)%list_elem_of_fmap. by exists p.
Qed.

(** Decompressing what the encoder wrote gives the input back, for every
    input shorter than [2^32] bytes (no counter wraps around) whose tree is
    at most 32 deep (every path fits the 32-bit code). *)
Lemma bounded_round_trip (data : list Z) :
  Forall byte data ->
  Z.of_nat (length data) < 2 ^ 32 ->
  (height (build_huffman_tree (count_frequencies data).2) <= 32)%nat ->
  (compress_file data).1 = EXIT_SUCCESS
  /\ decompress_file (compress_file data).2
     = {| exit_status := EXIT_SUCCESS; output := data; unread := [] |}.
Proof.
  intros Hdata Hsmall.
  destruct (count_frequencies_small data Hdata Hsmall)
    as (freq & Hcount & Hlen & Hrange & _ & Hpos).
  unfold compress_file. rewrite Hcount. cbn [snd]. intros Hheight.
  set (root := build_huffman_tree freq) in *.
  set (table := build_code_table root).
  set (hdr := write_header [] (Z.of_nat (length data)) freq).
  assert (forall payload,
    read_header (hdr ++ payload) = (Ok (Z.of_nat (length data), freq), payload))
    as Hheader.
  { intros payload. apply read_header_written; [lia | done | done]. }
  destruct (decide (data = [])) as [Hempty|Hnonempty].
  { (* the empty input: header only *)
    specialize (Hheader []). rewrite app_nil_r in Hheader.
    subst data. change (Z.of_nat (length []) >? 0) with false.
    change (bw_f (bw_flush (bw_init hdr))) with hdr. cbn [fst snd].
    split; [done|]. unfold decompress_file. by rewrite Hheader. }
  assert (0 < Z.of_nat (length data)) as Hlong
    by (destruct data; [done | simpl; lia]).
  rewrite (proj2 (Z.gtb_gt _ _)) by lia.
  (* every byte of the input has a leaf, and its code is the path *)
  assert (Forall (fun b => byte b
            /\ (b, code_bits (get (mk_code 0 0) table b)) ∈ leaf_paths root
            /\ len (get (mk_code 0 0) table b) <> 0) data) as Hcodes.
  { apply Forall_forall. intros b Hb.
    assert (byte b) as Hbyte by (by eapply (proj1 (Forall_forall _ _) Hdata)).
    destruct (symbols_leaf_path root b) as [p Hp].
    { apply build_huffman_tree_has_symbol; [done | by apply Hpos]. }
    destruct (code_table_entry freq b p Hheight Hp) as (Hne & Hbits & Hentry).
    fold root in Hentry. fold table in Hentry. rewrite Hentry.
    rewrite code_bits_value by done. split; [done|]. split; [done|].
    simpl. destruct p; [done | simpl; lia]. }
  (* the encoder writes these paths, then pads *)
  destruct (encode_loop_holds hdr table data [] (bw_init hdr))
    as (bw' & Hencode & Hbw').
  { eapply Forall_impl; [exact Hcodes|].
    intros b Hb. cbv beta in Hb. by destruct Hb as (_ & _ & Hb). }
  { apply bw_init_holds. }
  rewrite Hencode. cbn [fst snd]. split; [done|].
  destruct (bw_flush_holds hdr _ bw' Hbw') as (payload & k & -> & Hbits & Hk).
  (* the decoder reads the header back and walks the same tree *)
  unfold decompress_file. rewrite Hheader.
  rewrite (proj2 (Z.eqb_neq _ _)) by lia. fold root.
  assert (is_null root = false) as ->.
  { apply leaf_paths_not_null. intros Hnil.
    destruct data as [|b0 data0]; [done|].
    apply Forall_inv in Hcodes as (_ & Hin & _).
    rewrite Hnil in Hin. by apply elem_of_nil in Hin. }
  assert (Forall (fun b => byte b
            /\ (b, code_bits (get (mk_code 0 0) table b)) ∈ leaf_paths root)
            data) as Hpaths.
  { eapply Forall_impl; [exact Hcodes|].
    intros b Hb. cbv beta in Hb. by destruct Hb as (H1 & H2 & _). }
  pose proof (build_huffman_tree_not_leaf freq) as Hnl. fold root in Hnl.
  assert (decode_measure
            {| written := 0; cur := root; br := br_init payload; out := [] |}
          < decode_fuel (length payload))%nat as Hfuel.
  { unfold decode_measure, decode_fuel.
    cbn [br cur br_init br_bits_left br_f]. rewrite Hnl. lia. }
  destruct (decode_data root (Z.of_nat (length data)) ltac:(lia)
              (fun b => code_bits (get (mk_code 0 0) table b)) data Hpaths
              {| written := 0; cur := root; br := br_init payload; out := [] |}
              (replicate k 0))
    as (n & st' & Hsteps & Hcur & Hw & Hout & Hstream & Hleft);
    cbn [written cur br out br_init br_bits_left]; [done | lia | lia | lia | |].
  { rewrite br_init_stream. exact Hbits. }
  cbn [written out app] in Hw, Hout.
  destruct (decode_loop_steps n _ root _
              {| written := 0; cur := root; br := br_init payload; out := [] |}
              st' Hnl (Z.le_refl 0) Hfuel Hsteps) as (fuel' & Hfuel' & ->).
  destruct fuel' as [|fuel']; [lia|].
  cbn [decode_loop]. unfold decode_step.
  rewrite (proj2 (Z.ltb_ge _ _)) by lia.
  rewrite Hout. f_equal.
  apply (br_stream_short _ k); [done | | done].
  by rewrite Hstream, length_replicate.
Qed.

(** X2: decompressing what [compress_file] wrote gives the input back and
    leaves nothing unread, for every input shorter than [2^32] bytes (no
    counter wraps around) whose tree is at most 32 deep (every path fits the
    32-bit code); [compress_file] exits successfully on such an input. *)
Theorem roundtrip_bounded (data : list Z) :
  Forall byte data ->
  Z.of_nat (length data) < 2 ^ 32 ->
  (height (build_huffman_tree (count_frequencies data).2) <= 32)%nat ->
  (compress_file data).1 = EXIT_SUCCESS
  /\ decompress_file (compress_file data).2
     = {| exit_status := EXIT_SUCCESS; output := data; unread := [] |}.
Proof. apply bounded_round_trip. Qed.

Lemma roundtrip_bounded_witness :
  Forall byte [65; 65; 65; 66; 67]
  /\ Z.of_nat (length [65; 65; 65; 66; 67]) < 2 ^ 32
  /\ (height (build_huffman_tree (count_frequencies [65; 65; 65; 66; 67]%Z).2)
      <= 32)%nat
  /\ (compress_file [65; 65; 65; 66; 67]).1 = EXIT_SUCCESS
  /\ decompress_file (compress_file [65; 65; 65; 66; 67]).2
     = {| exit_status := EXIT_SUCCESS; output := [65; 65; 65; 66; 67];
          unread := [] |}.
Proof.
  assert (Forall byte [65; 65; 65; 66; 67]) as H1
    by (refine (bool_decide_unpack _ _); vm_compute; exact I).
  assert (Z.of_nat (length [65; 65; 65; 66; 67]) < 2 ^ 32) as H2
    by (simpl; lia).
  assert (height (build_huffman_tree (count_frequencies [65; 65; 65; 66; 67]%Z).2)
          <= 32)%nat as H3 by (vm_compute; lia).
  split; [exact H1|]. split; [exact H2|]. split; [exact H3|].
  exact (roundtrip_bounded _ H1 H2 H3).
Defined.

(** ** A single symbol *)

(** For every frequency table with exactly one nonzero entry, the code of
    its symbol is the single bit 0. *)
Lemma single_symbol_code (freq : list Z) (s : nat) :
  used_symbols freq = [s] ->
  get (mk_code 0 0) (build_code_table (build_huffman_tree freq)) (Z.of_nat s)
  = mk_code 0 1
  /\ code_bits (mk_code 0 1) = [0]
  /\ height (build_huffman_tree freq) = 1%nat.
Proof.
  intros Hused. destruct (build_huffman_tree_single freq s Hused) as [Hs ->].
  unfold build_code_table. cbn [is_null build_codes_dfs height Nat.max].
  split; [|done]. apply get_set_eq.
  unfold set. rewrite length_replicate. lia.
Qed.

Lemma used_symbols_single (b x : Z) :
  byte b -> 0 < x ->
  used_symbols (set (replicate 256 0) b x) = [Z.to_nat b].
Proof.
  intros Hb Hx. apply Permutation_singleton_r.
  apply NoDup_Permutation; [apply used_symbols_NoDup | apply NoDup_singleton|].
  intros i. unfold used_symbols.
  rewrite list_elem_of_filter, elem_of_seq, list_elem_of_singleton.
  unfold byte in Hb. split.
  - intros [Hpos Hi]. destruct (decide (i = Z.to_nat b)) as [|Hne]; [done|].
    rewrite get_set_ne, get_replicate in Hpos by lia. lia.
  - intros ->. rewrite Z2Nat.id by lia.
    rewrite get_set_eq by (rewrite length_replicate; lia). lia.
Qed.

(** X3: one byte value repeated [N] times, [1 <= N < 2^32]: the counted table
    has exactly one nonzero entry, and decompressing the compressed input
    gives the [N] copies back. *)
Theorem single_symbol_roundtrip (b : Z) (N : nat) :
  byte b -> (1 <= N)%nat -> Z.of_nat N < 2 ^ 32 ->
  used_symbols (count_frequencies (replicate N b)).2 = [Z.to_nat b]
  /\ (compress_file (replicate N b)).1 = EXIT_SUCCESS
  /\ decompress_file (compress_file (replicate N b)).2
     = {| exit_status := EXIT_SUCCESS; output := replicate N b; unread := [] |}.
Proof.
  intros Hb HN Hsmall.
  assert (used_symbols (count_frequencies (replicate N b)).2 = [Z.to_nat b])
    as Hused.
  { rewrite count_frequencies_replicate by done. cbn [snd].
    apply used_symbols_single; [done|].
    unfold u32, wrap. rewrite Z.mod_small; lia. }
  split; [done|]. apply bounded_round_trip.
  - by apply Forall_replicate.
  - by rewrite length_replicate.
  - destruct (single_symbol_code _ _ Hused) as (_ & _ & ->). lia.
Qed.

Lemma single_symbol_roundtrip_witness :
  byte 65 /\ (1 <= 9)%nat /\ Z.of_nat 9 < 2 ^ 32
  /\ used_symbols (count_frequencies (replicate 9 65)).2 = [Z.to_nat 65]
  /\ (compress_file (replicate 9 65)).1 = EXIT_SUCCESS
  /\ decompress_file (compress_file (replicate 9 65)).2
     = {| exit_status := EXIT_SUCCESS; output := replicate 9 65;
          unread := [] |}.
Proof.
  assert (byte 65) as H1 by (unfold byte; lia).
  assert (1 <= 9)%nat as H2 by lia.
  assert (Z.of_nat 9 < 2 ^ 32) as H3 by (simpl; lia).
  split; [exact H1|]. split; [exact H2|]. split; [exact H3|].
  exact (single_symbol_roundtrip 65 9 H1 H2 H3).
Defined.

(** * Further properties *)

(** ** The queue is kept in ascending order *)

Lemma insert_after_place cur next tree :
  exists l1 l2, next = l1 ++ l2
    /\ insert_after cur next tree = cur :: l1 ++ tree :: l2
    /\ Forall (fun t => node_freq t <= node_freq tree) l1
    /\ (forall t, head l2 = Some t -> node_freq tree < node_freq t).
Proof.
  revert cur. induction next as [|n next IH]; intros cur; simpl.
  - exists [], []. by repeat split.
  - destruct (Z.leb_spec (node_freq n) (node_freq tree)) as [Hle|Hgt].
    + destruct (IH n) as (l1 & l2 & -> & -> & Hl1 & Hl2).
      exists (n :: l1), l2. repeat split; try done. by constructor.
    + exists [], (n :: next). repeat split; try done.
      by intros t [= <-].
Qed.

Lemma list_insert_sorted_place pq tree :
  exists l1 l2, pq = l1 ++ l2
    /\ list_insert_sorted pq tree = l1 ++ tree :: l2
    /\ Forall (fun t => node_freq t <= node_freq tree) l1
    /\ (forall t, head l2 = Some t -> node_freq tree < node_freq t).
Proof.
  destruct pq as [|h rest]; simpl.
  - exists [], []. by repeat split.
  - destruct (Z.gtb_spec (node_freq h) (node_freq tree)) as [Hgt|Hle].
    + exists [], (h :: rest). repeat split; try done.
      intros t [= <-]. lia.
    + destruct (insert_after_place h rest tree) as (l1 & l2 & -> & -> & Hl1 & Hl2).
      exists (h :: l1), l2. repeat split; try done. by constructor.
Qed.

Lemma sorted_tail_above (l2 : list Node) (x : Z) :
  StronglySorted freq_le l2 ->
  (forall t, head l2 = Some t -> x < node_freq t) ->
  Forall (fun t => x < node_freq t) l2.
Proof.
  intros Hsorted Hhead. destruct l2 as [|t l2]; [constructor|].
  specialize (Hhead t eq_refl).
  apply StronglySorted_inv in Hsorted as [_ Hall].
  constructor; [done|].
  eapply Forall_impl; [exact Hall|]. unfold freq_le. intros u Hu. simpl in Hu. lia.
Qed.

(** The place of a tree inserted into an ascending queue: behind every tree
    that is no heavier, in front of every tree that is heavier. *)
Lemma list_insert_sorted_position pq tree :
  StronglySorted freq_le pq ->
  exists l1 l2, pq = l1 ++ l2
    /\ list_insert_sorted pq tree = l1 ++ tree :: l2
    /\ Forall (fun t => node_freq t <= node_freq tree) l1
    /\ Forall (fun t => node_freq tree < node_freq t) l2.
Proof.
  intros Hsorted.
  destruct (list_insert_sorted_place pq tree) as (l1 & l2 & -> & Heq & Hl1 & Hl2).
  exists l1, l2. repeat split; try done.
  apply sorted_tail_above; [|done]. by eapply StronglySorted_app_1_r.
Qed.

Lemma list_insert_sorted_ascending pq tree :
  StronglySorted freq_le pq ->
  StronglySorted freq_le (list_insert_sorted pq tree).
Proof.
  intros Hsorted.
  destruct (list_insert_sorted_position pq tree Hsorted)
    as (l1 & l2 & -> & -> & Hl1 & Hl2).
  apply StronglySorted_app_2.
  - intros x1 x2 Hx1 Hx2. unfold freq_le.
    pose proof (proj1 (Forall_forall _ _) Hl1 x1 Hx1) as H1. simpl in H1.
    apply elem_of_cons in Hx2 as [-> | Hx2]; [done|].
    pose proof (proj1 (Forall_forall _ _) Hl2 x2 Hx2) as H2. simpl in H2. lia.
  - by eapply StronglySorted_app_1_l.
  - constructor; [by eapply StronglySorted_app_1_r|].
    eapply Forall_impl; [exact Hl2|]. unfold freq_le. intros u Hu. simpl in Hu. lia.
Qed.

(** X4: inserting a tree into a queue that is in ascending order of
    frequency gives a queue in ascending order that holds the same trees and
    the new one. *)
Theorem list_insert_sorted_sorted (pq : list Node) (tree : Node) :
  StronglySorted freq_le pq ->
  StronglySorted freq_le (list_insert_sorted pq tree)
  /\ list_insert_sorted pq tree ≡ₚ tree :: pq.
Proof.
  intros Hsorted. split.
  - by apply list_insert_sorted_ascending.
  - apply list_insert_sorted_perm.
Qed.

Lemma list_insert_sorted_sorted_witness :
  StronglySorted freq_le
    [make_node 1 true 66 NULL NULL; make_node 3 true 65 NULL NULL]
  /\ StronglySorted freq_le
       (list_insert_sorted
          [make_node 1 true 66 NULL NULL; make_node 3 true 65 NULL NULL]
          (make_node 1 true 67 NULL NULL))
  /\ list_insert_sorted
       [make_node 1 true 66 NULL NULL; make_node 3 true 65 NULL NULL]
       (make_node 1 true 67 NULL NULL)
     ≡ₚ make_node 1 true 67 NULL NULL
        :: [make_node 1 true 66 NULL NULL; make_node 3 true 65 NULL NULL].
Proof.
  assert (StronglySorted freq_le
    [make_node 1 true 66 NULL NULL; make_node 3 true 65 NULL NULL]) as H
    by (refine (bool_decide_unpack _ _); vm_compute; exact I).
  split; [exact H|].
  exact (list_insert_sorted_sorted _ (make_node 1 true 67 NULL NULL) H).
Defined.

(** X5: in an ascending queue the new tree is placed behind every tree that
    is no heavier (among trees of equal frequency, those inserted earlier
    stay in front) and in front of every tree that is heavier. *)
Theorem list_insert_sorted_is_stable (pq : list Node) (tree : Node) :
  StronglySorted freq_le pq ->
  exists l1 l2, pq = l1 ++ l2
    /\ list_insert_sorted pq tree = l1 ++ tree :: l2
    /\ Forall (fun t => node_freq t <= node_freq tree) l1
    /\ Forall (fun t => node_freq tree < node_freq t) l2.
Proof. apply list_insert_sorted_position. Qed.

Lemma list_insert_sorted_is_stable_witness :
  StronglySorted freq_le
    [make_node 1 true 66 NULL NULL; make_node 3 true 65 NULL NULL]
  /\ exists l1 l2,
       [make_node 1 true 66 NULL NULL; make_node 3 true 65 NULL NULL]
         = l1 ++ l2
       /\ list_insert_sorted
            [make_node 1 true 66 NULL NULL; make_node 3 true 65 NULL NULL]
            (make_node 1 true 67 NULL NULL)
          = l1 ++ make_node 1 true 67 NULL NULL :: l2
       /\ Forall (fun t => node_freq t
                           <= node_freq (make_node 1 true 67 NULL NULL)) l1
       /\ Forall (fun t => node_freq (make_node 1 true 67 NULL NULL)
                           < node_freq t) l2.
Proof.
  assert (StronglySorted freq_le
    [make_node 1 true 66 NULL NULL; make_node 3 true 65 NULL NULL]) as H
    by (refine (bool_decide_unpack _ _); vm_compute; exact I).
  split; [exact H|].
  exact (list_insert_sorted_is_stable _ (make_node 1 true 67 NULL NULL) H).
Defined.

(** ** The queue of [build_huffman_tree] *)

Lemma leaf_lt_freq_le pq :
  StronglySorted leaf_lt pq -> StronglySorted freq_le pq.
Proof.
  induction 1 as [|t pq _ IH Hall]; constructor; [done|].
  eapply Forall_impl; [exact Hall|]. unfold leaf_lt, freq_le. intros u Hu. lia.
Qed.

Lemma list_insert_sorted_leaf pq tree :
  StronglySorted leaf_lt pq ->
  Forall (fun t => node_symbol t < node_symbol tree) pq ->
  StronglySorted leaf_lt (list_insert_sorted pq tree).
Proof.
  intros Hsorted Hsym.
  destruct (list_insert_sorted_position pq tree (leaf_lt_freq_le _ Hsorted))
    as (l1 & l2 & -> & -> & Hl1 & Hl2).
  apply Forall_app in Hsym as [Hsym1 Hsym2].
  apply StronglySorted_app_2.
  - intros x1 x2 Hx1 Hx2. unfold leaf_lt.
    pose proof (proj1 (Forall_forall _ _) Hl1 x1 Hx1) as H1.
    pose proof (proj1 (Forall_forall _ _) Hsym1 x1 Hx1) as H1'.
    simpl in H1, H1'.
    apply elem_of_cons in Hx2 as [-> | Hx2]; [lia|].
    pose proof (proj1 (Forall_forall _ _) Hl2 x2 Hx2) as H2. simpl in H2. lia.
  - by eapply StronglySorted_app_1_l.
  - constructor; [by eapply StronglySorted_app_1_r|].
    eapply Forall_impl; [exact Hl2|]. unfold leaf_lt. intros u Hu. simpl in Hu. lia.
Qed.

Lemma collect_leaves_fold_order freq (n j : nat) pq0 c0 :
  (j + n <= 256)%nat ->
  StronglySorted leaf_lt pq0 ->
  Forall (fun t => node_symbol t < Z.of_nat j) pq0 ->
  StronglySorted leaf_lt (foldl (collect_leaf freq) (pq0, c0) (seq j n)).1.
Proof.
  revert j pq0 c0. induction n as [|n IH]; intros j pq0 c0 Hj Hsorted Hsym.
  - done.
  - cbn [seq foldl]. unfold collect_leaf at 2.
    destruct (get 0 freq (Z.of_nat j) >? 0).
    + fold (leaf_of freq j). apply IH; [lia | |].
      * apply list_insert_sorted_leaf; [done|].
        simpl. rewrite u16_symbol by lia. done.
      * rewrite list_insert_sorted_perm. constructor.
        -- simpl. rewrite u16_symbol by lia. lia.
        -- eapply Forall_impl; [exact Hsym|]. simpl. lia.
    + apply IH; [lia | done |].
      eapply Forall_impl; [exact Hsym|]. simpl. lia.
Qed.

Lemma collect_leaves_order freq :
  StronglySorted leaf_lt (collect_leaves freq).1.
Proof.
  apply collect_leaves_fold_order; [lia | constructor | constructor].
Qed.

(** X6: the queue that the first loop of [build_huffman_tree] builds holds
    the leaves of the symbols with a nonzero count, in ascending order of
    frequency, leaves of equal frequency in ascending order of symbol. *)
Theorem initial_queue_order (freq : list Z) :
  StronglySorted leaf_lt (collect_leaves freq).1
  /\ (collect_leaves freq).1 ≡ₚ leaf_of freq <$> used_symbols freq
  /\ (collect_leaves freq).2 = Z.of_nat (length (used_symbols freq)).
Proof.
  split; [apply collect_leaves_order|].
  destruct (collect_leaves_spec freq) as (pq & -> & Hperm). done.
Qed.

Lemma merge_loop_ascending fuel pq :
  StronglySorted freq_le pq -> StronglySorted freq_le (merge_loop fuel pq).
Proof.
  revert pq. induction fuel as [|fuel IH]; intros pq Hsorted; simpl; [done|].
  destruct pq as [|a [|b rest]]; simpl; try done.
  apply IH, list_insert_sorted_ascending.
  apply StronglySorted_inv in Hsorted as [Hsorted _].
  by apply StronglySorted_inv in Hsorted as [Hsorted _].
Qed.

(** X7: in every iteration of the merging loop of [build_huffman_tree] the
    two trees that are merged are the two lightest of the queue: the first is
    no heavier than the second, and the second no heavier than any other. *)
Theorem merges_take_the_two_lightest
  (freq : list Z) (k : nat) (a b : Node) (rest : list Node) :
  merge_loop k (collect_leaves freq).1 = a :: b :: rest ->
  freq_le a b /\ Forall (freq_le b) rest.
Proof.
  intros Hq.
  pose proof (merge_loop_ascending k _
    (leaf_lt_freq_le _ (collect_leaves_order freq))) as Hsorted.
  rewrite Hq in Hsorted.
  apply StronglySorted_inv in Hsorted as [Hsorted Ha].
  apply StronglySorted_inv in Hsorted as [_ Hb].
  split; [|done]. by apply Forall_inv in Ha.
Qed.

Lemma merges_take_the_two_lightest_witness :
  merge_loop 0 (collect_leaves (freq_table [(65, 3); (66, 1); (67, 1)])).1
  = make_node 1 true 66 NULL NULL
    :: make_node 1 true 67 NULL NULL :: [make_node 3 true 65 NULL NULL]
  /\ freq_le (make_node 1 true 66 NULL NULL) (make_node 1 true 67 NULL NULL)
  /\ Forall (freq_le (make_node 1 true 67 NULL NULL))
       [make_node 3 true 65 NULL NULL].
Proof.
  assert (merge_loop 0
            (collect_leaves (freq_table [(65, 3); (66, 1); (67, 1)])).1
          = make_node 1 true 66 NULL NULL
            :: make_node 1 true 67 NULL NULL
            :: [make_node 3 true 65 NULL NULL]) as H
    by (vm_compute; reflexivity).
  split; [exact H|].
  exact (merges_take_the_two_lightest _ 0 _ _ _ H).
Defined.

(** Every iteration of the merging loop shortens the queue by one tree,
    and the loop stops when one tree is left: after [k] iterations a queue
    of [n >= 1] trees holds [n - k] trees, and never fewer than one. *)
Lemma merge_loop_length (k : nat) (pq : list Node) :
  pq <> [] ->
  length (merge_loop k pq) = (1 `max` (length pq - k))%nat.
Proof.
  revert pq. induction k as [|k IH]; intros pq Hne.
  - simpl. destruct pq; [done | simpl; lia].
  - simpl. destruct (merge_step pq) as [pq'|] eqn:Hstep.
    + pose proof (merge_step_length _ _ Hstep) as Hlen.
      rewrite IH; [lia|]. intros ->.
      destruct pq as [|a [|b rest]]; simpl in *; try done; lia.
    + destruct pq as [|a [|b rest]]; simpl in *; try done; lia.
Qed.

Lemma merge_loop_length_witness :
  [make_node 1 true 66 NULL NULL; make_node 1 true 67 NULL NULL;
   make_node 3 true 65 NULL NULL] <> []
  /\ length (merge_loop 5
       [make_node 1 true 66 NULL NULL; make_node 1 true 67 NULL NULL;
        make_node 3 true 65 NULL NULL])
     = (1 `max` (length
          [make_node 1 true 66 NULL NULL; make_node 1 true 67 NULL NULL;
           make_node 3 true 65 NULL NULL] - 5))%nat.
Proof.
  assert ([make_node 1 true 66 NULL NULL; make_node 1 true 67 NULL NULL;
           make_node 3 true 65 NULL NULL] <> []) as H by discriminate.
  split; [exact H|]. exact (merge_loop_length 5 _ H).
Defined.

(** ** The leaves and the root *)

(** X8: the leaves of the tree built from a frequency table carry exactly
    the symbols whose count is nonzero, each of them once. *)
Theorem tree_leaves_are_the_used_symbols (freq : list Z) :
  symbols (build_huffman_tree freq) ≡ₚ Z.of_nat <$> used_symbols freq
  /\ NoDup (symbols (build_huffman_tree freq))
  /\ (forall s, byte s ->
        s ∈ symbols (build_huffman_tree freq) <-> 0 < get 0 freq s).
Proof.
  split; [apply build_huffman_tree_symbols|].
  split; [apply build_huffman_tree_NoDup|].
  intros s Hs. split; [|by apply build_huffman_tree_has_symbol].
  rewrite build_huffman_tree_symbols.
  intros (i & -> & Hi)%list_elem_of_fmap. by apply used_symbols_pos.
Qed.

Lemma build_huffman_tree_null freq :
  build_huffman_tree freq = NULL <-> used_symbols freq = [].
Proof.
  pose proof (build_huffman_tree_symbols freq) as Hperm. split.
  - intros Hnull. rewrite Hnull in Hperm. simpl in Hperm.
    apply Permutation_nil_l in Hperm. by destruct (used_symbols freq).
  - intros Hnone. unfold build_huffman_tree.
    destruct (collect_leaves_spec freq) as (pq & -> & _). by rewrite Hnone.
Qed.

(** X9: [build_huffman_tree] returns [NULL] exactly when no entry of the
    table is nonzero, and the root it returns is never a leaf. *)
Theorem no_tree_iff_no_symbol (freq : list Z) :
  (build_huffman_tree freq = NULL <-> used_symbols freq = [])
  /\ node_is_leaf (build_huffman_tree freq) = false.
Proof.
  split; [apply build_huffman_tree_null | apply build_huffman_tree_not_leaf].
Qed.

(** ** The frequencies that the nodes carry *)

Lemma sum_entries_app l k : sum_entries (l ++ k) = sum_entries l + sum_entries k.
Proof. induction l as [|x l IH]; simpl; [done|]. rewrite IH. lia. Qed.

Lemma sum_entries_perm l k : l ≡ₚ k -> sum_entries l = sum_entries k.
Proof. induction 1; simpl; lia. Qed.

Lemma weight_wrap n :
  carries_sums n = true -> node_is_leaf n = false ->
  node_freq n = u32 (weight n).
Proof.
  assert (forall m, carries_sums m = true -> u32 (node_freq m) = u32 (weight m))
    as Hall.
  { induction m as [|f [] s l IHl r IHr]; simpl; intros Hc.
    - done.
    - unfold weight. simpl. by rewrite Z.add_0_r.
    - apply andb_prop in Hc as [[Hf%bool_decide_eq_true Hl]%andb_prop Hr].
      rewrite Hf. unfold weight in *. simpl.
      rewrite fmap_app, sum_entries_app.
      unfold u32, wrap in *. rewrite Zmod_mod.
      rewrite Zplus_mod, (IHl Hl), (IHr Hr), <- Zplus_mod. done. }
  destruct n as [|f [] s l r]; simpl; intros Hc Hleaf; try done.
  apply andb_prop in Hc as [[Hf%bool_decide_eq_true Hl]%andb_prop Hr].
  rewrite Hf. unfold weight. simpl. rewrite fmap_app, sum_entries_app.
  unfold u32, wrap. rewrite Zplus_mod.
  pose proof (Hall l Hl) as Hwl. pose proof (Hall r Hr) as Hwr.
  unfold u32, wrap, weight in Hwl, Hwr. rewrite Hwl, Hwr, <- Zplus_mod. done.
Qed.

Lemma merge_loop_leaf_nodes fuel pq :
  merge_loop fuel pq ≫= leaf_nodes ≡ₚ pq ≫= leaf_nodes.
Proof.
  revert pq. induction fuel as [|fuel IH]; intros pq; simpl; [done|].
  destruct pq as [|a [|b rest]]; simpl; try done.
  rewrite IH, list_insert_sorted_perm, bind_cons. simpl.
  by rewrite <- app_assoc.
Qed.

Lemma leaves_leaf_nodes freq (idx : list nat) :
  (leaf_of freq <$> idx) ≫= leaf_nodes = leaf_of freq <$> idx.
Proof.
  induction idx as [|i idx IH]; [done|].
  rewrite !fmap_cons, bind_cons, IH. done.
Qed.

(** The leaves of the tree are the leaves that the first loop made. *)
Lemma build_huffman_tree_leaf_nodes freq :
  leaf_nodes (build_huffman_tree freq) ≡ₚ leaf_of freq <$> used_symbols freq.
Proof.
  rewrite <- (leaves_leaf_nodes freq).
  unfold build_huffman_tree.
  destruct (collect_leaves_spec freq) as (pq & -> & Hperm).
  change (map (leaf_of freq) (used_symbols freq))
    with (leaf_of freq <$> used_symbols freq) in Hperm.
  rewrite <- Hperm.
  pose proof (Permutation_length Hperm) as Hlen. rewrite length_fmap in Hlen.
  rewrite <- Hlen.
  destruct (Z.eqb_spec (Z.of_nat (length pq)) 0) as [Hz|Hnz].
  - destruct pq; [done | simpl in Hz; lia].
  - destruct (Z.eqb_spec (Z.of_nat (length pq)) 1) as [Hone|Hmany].
    + destruct pq as [|only [|? ?]]; simpl in Hone; try lia.
      simpl. by rewrite app_nil_r.
    + destruct (merge_loop_exits (length pq) pq) as [root Hroot];
        [done | by intros ->; simpl in Hnz |].
      rewrite Hroot. simpl.
      rewrite <- (merge_loop_leaf_nodes (length pq) pq), Hroot. simpl.
      by rewrite app_nil_r.
Qed.

Lemma collect_leaves_carry freq pq n :
  collect_leaves freq = (pq, n) -> Forall (fun t => carries_sums t = true) pq.
Proof.
  destruct (collect_leaves_spec freq) as (pq' & -> & Hperm).
  intros [= <- _]. rewrite Hperm. apply Forall_forall.
  by intros t (i & -> & Hi)%list_elem_of_fmap.
Qed.

Lemma build_huffman_tree_carries freq :
  Forall (fun z => 0 <= z < 2 ^ 32) freq ->
  carries_sums (build_huffman_tree freq) = true.
Proof.
  intros Hrange. unfold build_huffman_tree.
  destruct (collect_leaves freq) as [pq n] eqn:Hc.
  pose proof (collect_leaves_carry _ _ _ Hc) as Hcarry.
  destruct (collect_leaves_spec freq) as (pq' & Hc' & Hperm).
  rewrite Hc in Hc'. injection Hc' as <- ->.
  destruct (Z.eqb_spec (Z.of_nat (length (used_symbols freq))) 0); [done|].
  destruct (Z.eqb_spec (Z.of_nat (length (used_symbols freq))) 1) as [Hone|].
  - destruct (used_symbols freq) as [|s [|? ?]]; simpl in Hone; try lia.
    apply Permutation_singleton_r in Hperm as ->. simpl.
    rewrite Z.add_0_r, !andb_true_r. apply bool_decide_eq_true.
    unfold u32, wrap. symmetry. apply Z.mod_small. unfold get.
    destruct (freq !! Z.to_nat (Z.of_nat s)) as [x|] eqn:Hx; simpl; [|lia].
    by apply (proj1 (Forall_lookup _ _) Hrange _ _ Hx).
  - apply Permutation_length in Hperm. rewrite length_map in Hperm.
    destruct (merge_loop_exits (length pq) pq) as [root Hroot];
      [done | intros ->; simpl in Hperm; lia |].
    rewrite Hroot. simpl.
    assert (Forall (fun t => carries_sums t = true) [root]) as Hr.
    { rewrite <- Hroot. apply merge_loop_Forall; [|done].
      intros a b Ha Hb. simpl. rewrite Ha, Hb, !andb_true_r.
      by apply bool_decide_eq_true. }
    by inversion Hr.
Qed.

Lemma sum_used_entries freq (idx : list nat) :
  Forall (fun z => 0 <= z) freq ->
  sum_entries
    (node_freq <$>
       (leaf_of freq <$> filter (fun i : nat => 0 < get 0 freq (Z.of_nat i)) idx))
  = sum_entries ((fun i : nat => get 0 freq (Z.of_nat i)) <$> idx).
Proof.
  intros Hpos. induction idx as [|i idx IH]; [done|].
  rewrite filter_cons. destruct (decide (0 < get 0 freq (Z.of_nat i))) as [Hi|Hi].
  - rewrite !fmap_cons. simpl. by rewrite IH.
  - rewrite fmap_cons. simpl. rewrite IH.
    assert (0 <= get 0 freq (Z.of_nat i)); [|lia].
    unfold get. destruct (freq !! Z.to_nat (Z.of_nat i)) as [x|] eqn:Hx;
      simpl; [|lia].
    by apply (proj1 (Forall_lookup _ _) Hpos _ _ Hx).
Qed.

Lemma entries_by_index (freq : list Z) :
  length freq = 256%nat ->
  (fun i : nat => get 0 freq (Z.of_nat i)) <$> seq 0 256 = freq.
Proof.
  intros Hlen. apply list_eq_same_length with 256%nat;
    [done | by rewrite length_fmap, length_seq |].
  intros i x y Hi. rewrite list_lookup_fmap, lookup_seq_lt by done.
  simpl. unfold get. rewrite Nat2Z.id. intros [= <-] ->. done.
Qed.

Lemma weight_of_built_tree freq :
  length freq = 256%nat -> Forall (fun z => 0 <= z) freq ->
  weight (build_huffman_tree freq) = sum_entries freq.
Proof.
  intros Hlen Hpos. unfold weight.
  rewrite (sum_entries_perm _ (node_freq <$> (leaf_of freq <$> used_symbols freq)))
    by (by rewrite build_huffman_tree_leaf_nodes).
  unfold used_symbols. rewrite sum_used_entries by done.
  by rewrite entries_by_index.
Qed.

(** X10: in the tree built from a table of 256 counts below [2^32], every
    leaf carries the count of its symbol, every internal node carries the
    sum, modulo [2^32], of what its children carry, and the root carries the
    sum of all counts modulo [2^32]. *)
Theorem tree_carries_the_frequencies (freq : list Z) :
  length freq = 256%nat ->
  Forall (fun z => 0 <= z < 2 ^ 32) freq ->
  Forall (fun t => node_freq t = get 0 freq (node_symbol t))
    (leaf_nodes (build_huffman_tree freq))
  /\ carries_sums (build_huffman_tree freq) = true
  /\ node_freq (build_huffman_tree freq) = u32 (sum_entries freq).
Proof.
  intros Hlen Hrange.
  assert (Forall (fun z => 0 <= z) freq) as Hpos
    by (eapply Forall_impl; [exact Hrange | simpl; lia]).
  pose proof (build_huffman_tree_carries freq Hrange) as Hcarry.
  split; [|split; [done|]].
  - rewrite build_huffman_tree_leaf_nodes. apply Forall_forall.
    intros t (i & -> & Hi%used_symbols_lt)%list_elem_of_fmap. simpl.
    by rewrite u16_symbol.
  - pose proof (weight_of_built_tree freq Hlen Hpos) as Hw.
    pose proof (build_huffman_tree_not_leaf freq) as Hnl.
    destruct (build_huffman_tree freq) as [|f lf s l r] eqn:Hroot.
    + rewrite <- Hw. done.
    + rewrite <- Hw. by apply weight_wrap.
Qed.

Lemma tree_carries_the_frequencies_witness :
  length (freq_table [(65, 3); (66, 1); (67, 1)]) = 256%nat
  /\ Forall (fun z => 0 <= z < 2 ^ 32) (freq_table [(65, 3); (66, 1); (67, 1)])
  /\ Forall (fun t => node_freq t
                      = get 0 (freq_table [(65, 3); (66, 1); (67, 1)])
                          (node_symbol t))
       (leaf_nodes (build_huffman_tree (freq_table [(65, 3); (66, 1); (67, 1)])))
  /\ carries_sums (build_huffman_tree (freq_table [(65, 3); (66, 1); (67, 1)]))
     = true
  /\ node_freq (build_huffman_tree (freq_table [(65, 3); (66, 1); (67, 1)]))
     = u32 (sum_entries (freq_table [(65, 3); (66, 1); (67, 1)])).
Proof.
  assert (length (freq_table [(65, 3); (66, 1); (67, 1)]) = 256%nat) as H1
    by reflexivity.
  assert (Forall (fun z => 0 <= z < 2 ^ 32)
            (freq_table [(65, 3); (66, 1); (67, 1)])) as H2
    by (refine (bool_decide_unpack _ _); vm_compute; exact I).
  split; [exact H1|]. split; [exact H2|].
  exact (tree_carries_the_frequencies _ H1 H2).
Defined.

(** ** What the counting pass counts *)

Lemma count_frequencies_snoc data x :
  count_frequencies (data ++ [x]) = count_byte (count_frequencies data) x.
Proof. unfold count_frequencies. by rewrite foldl_app. Qed.

Lemma occurrences_snoc b data x :
  occurrences b (data ++ [x])
  = occurrences b data + (if decide (x = b) then 1 else 0).
Proof.
  unfold occurrences. rewrite filter_app, length_app, filter_cons, filter_nil.
  destruct (decide (x = b)); simpl; lia.
Qed.

Lemma count_frequencies_occurrences (data : list Z) :
  Forall byte data ->
  exists freq,
    count_frequencies data = (u64 (Z.of_nat (length data)), freq)
    /\ length freq = 256%nat
    /\ (forall b, byte b -> get 0 freq b = u32 (occurrences b data)).
Proof.
  induction data as [|x data IH] using rev_ind; intros Hdata.
  - exists (replicate 256 0). split; [done|]. split; [done|].
    intros b _. by rewrite get_replicate.
  - apply Forall_app in Hdata as [Hdata Hx]. apply Forall_inv in Hx.
    destruct (IH Hdata) as (freq & Hcount & Hlen & Hget).
    rewrite count_frequencies_snoc, Hcount. unfold count_byte.
    eexists. split; [|split].
    + f_equal. rewrite length_app. simpl.
      unfold u64. rewrite wrap_wrap_add. f_equal. lia.
    + by rewrite set_length.
    + intros b Hb. rewrite occurrences_snoc.
      unfold byte in Hx, Hb. destruct (decide (x = b)) as [->|Hne].
      * rewrite get_set_eq by lia. rewrite Hget by done.
        unfold u32. by rewrite wrap_wrap_add.
      * rewrite get_set_ne by lia. rewrite Hget by done. by rewrite Z.add_0_r.
Qed.

(** X11: for every input, the counting pass gives the length of the input
    modulo [2^64] as the size, and a table of 256 entries in which the entry
    of each byte value is the number of its occurrences modulo [2^32]. *)
Theorem counting_pass_counts_modulo (data : list Z) :
  Forall byte data ->
  (count_frequencies data).1 = u64 (Z.of_nat (length data))
  /\ length (count_frequencies data).2 = 256%nat
  /\ (forall b, byte b ->
        get 0 (count_frequencies data).2 b = u32 (occurrences b data)).
Proof.
  intros Hdata.
  destruct (count_frequencies_occurrences data Hdata) as (freq & -> & Hrest).
  done.
Qed.

Lemma counting_pass_counts_modulo_witness :
  Forall byte [65; 65; 65; 66; 67]
  /\ (count_frequencies [65; 65; 65; 66; 67]).1
     = u64 (Z.of_nat (length [65; 65; 65; 66; 67]))
  /\ length (count_frequencies [65; 65; 65; 66; 67]).2 = 256%nat
  /\ (forall b, byte b ->
        get 0 (count_frequencies [65; 65; 65; 66; 67]).2 b
        = u32 (occurrences b [65; 65; 65; 66; 67])).
Proof.
  assert (Forall byte [65; 65; 65; 66; 67]) as H
    by (refine (bool_decide_unpack _ _); vm_compute; exact I).
  split; [exact H|]. exact (counting_pass_counts_modulo _ H).
Defined.

Lemma count_frequencies_range (data : list Z) :
  Forall byte data ->
  0 <= (count_frequencies data).1 < 2 ^ 64
  /\ length (count_frequencies data).2 = 256%nat
  /\ Forall (fun z => 0 <= z < 2 ^ 32) (count_frequencies data).2.
Proof.
  intros Hdata.
  destruct (count_frequencies_occurrences data Hdata)
    as (freq & -> & Hlen & Hget). cbn [fst snd].
  split; [unfold u64, wrap; apply Z.mod_pos_bound; lia|]. split; [done|].
  apply Forall_lookup. intros i x Hx.
  assert (i < 256)%nat as Hi by (rewrite <- Hlen; by eapply lookup_lt_Some).
  specialize (Hget (Z.of_nat i) ltac:(unfold byte; lia)).
  unfold get in Hget. rewrite Nat2Z.id, Hx in Hget. simpl in Hget.
  rewrite Hget. unfold u32, wrap. apply Z.mod_pos_bound. lia.
Qed.

(** X12: for an input shorter than [2^32] bytes nothing wraps around: the
    size is the length of the input, the 256 entries sum up to it, every byte
    of the input has a nonzero entry, and the root of the tree built for a
    nonempty input carries the length of the input. *)
Theorem counts_of_a_small_input (data : list Z) :
  Forall byte data -> Z.of_nat (length data) < 2 ^ 32 ->
  (count_frequencies data).1 = Z.of_nat (length data)
  /\ sum_entries (count_frequencies data).2 = Z.of_nat (length data)
  /\ (forall b, b ∈ data -> 0 < get 0 (count_frequencies data).2 b)
  /\ node_freq (build_huffman_tree (count_frequencies data).2)
     = Z.of_nat (length data).
Proof.
  intros Hdata Hsmall.
  destruct (count_frequencies_small data Hdata Hsmall)
    as (freq & -> & Hlen & Hrange & Hsum & Hpos). cbn [fst snd].
  repeat split; try done.
  assert (Forall (fun z => 0 <= z) freq) as Hnn
    by (eapply Forall_impl; [exact Hrange | simpl; lia]).
  pose proof (weight_of_built_tree freq Hlen Hnn) as Hw.
  pose proof (build_huffman_tree_carries freq Hrange) as Hcarry.
  pose proof (build_huffman_tree_not_leaf freq) as Hnl.
  destruct (build_huffman_tree freq) as [|f lf s l r] eqn:Hroot.
  - rewrite <- Hsum, <- Hw. done.
  - rewrite (weight_wrap _ Hcarry Hnl), Hw, Hsum.
    unfold u32, wrap. apply Z.mod_small. lia.
Qed.

Lemma counts_of_a_small_input_witness :
  Forall byte [65; 65; 65; 66; 67]
  /\ Z.of_nat (length [65; 65; 65; 66; 67]) < 2 ^ 32
  /\ (count_frequencies [65; 65; 65; 66; 67]).1
     = Z.of_nat (length [65; 65; 65; 66; 67])
  /\ sum_entries (count_frequencies [65; 65; 65; 66; 67]).2
     = Z.of_nat (length [65; 65; 65; 66; 67])
  /\ (forall b, b ∈ [65; 65; 65; 66; 67] ->
        0 < get 0 (count_frequencies [65; 65; 65; 66; 67]).2 b)
  /\ node_freq (build_huffman_tree (count_frequencies [65; 65; 65; 66; 67]).2)
     = Z.of_nat (length [65; 65; 65; 66; 67]).
Proof.
  assert (Forall byte [65; 65; 65; 66; 67]) as H1
    by (refine (bool_decide_unpack _ _); vm_compute; exact I).
  assert (Z.of_nat (length [65; 65; 65; 66; 67]) < 2 ^ 32) as H2
    by (simpl; lia).
  split; [exact H1|]. split; [exact H2|].
  exact (counts_of_a_small_input _ H1 H2).
Defined.

(** ** The depth of the tree and the lengths of the codes *)

Lemma build_huffman_tree_full (freq : list Z) :
  (2 <= length (used_symbols freq))%nat ->
  full (build_huffman_tree freq) = true.
Proof.
  intros Htwo. unfold build_huffman_tree.
  destruct (collect_leaves_spec freq) as (pq & Hc & Hperm).
  pose proof (collect_leaves_full _ _ _ Hc) as Hfull.
  rewrite Hc. rewrite !(proj2 (Z.eqb_neq _ _)) by lia.
  destruct (merge_loop_exits (length pq) pq) as [root Hroot].
  - done.
  - intros ->. apply Permutation_length in Hperm.
    rewrite length_map in Hperm. simpl in Hperm. lia.
  - rewrite Hroot. simpl.
    assert (Forall (fun t => full t = true) [root]) as Hr.
    { rewrite <- Hroot. apply merge_loop_Forall; [|done].
      intros a b Ha Hb. simpl. by rewrite Ha, Hb. }
    by inversion Hr.
Qed.

Lemma full_height n : full n = true -> (height n < length (symbols n))%nat.
Proof.
  induction n as [|f [] s l IHl r IHr]; simpl; try done.
  - lia.
  - intros [[_ Hl%IHl]%andb_prop Hr%IHr]%andb_prop.
    rewrite length_app. lia.
Qed.

Lemma used_symbols_length freq : (length (used_symbols freq) <= 256)%nat.
Proof.
  unfold used_symbols.
  etransitivity; [apply length_filter|]. by rewrite length_seq.
Qed.

Lemma build_huffman_tree_height freq :
  (height (build_huffman_tree freq) <= 255)%nat.
Proof.
  pose proof (used_symbols_length freq) as Hlen.
  destruct (used_symbols freq) as [|s [|s' used]] eqn:Hused.
  - rewrite (proj2 (build_huffman_tree_null freq)); [simpl; lia|].
    by rewrite Hused.
  - destruct (build_huffman_tree_single freq s Hused) as [_ ->]. simpl. lia.
  - pose proof (build_huffman_tree_full freq) as Hfull.
    rewrite Hused in Hfull. specialize (Hfull ltac:(simpl; lia)).
    apply full_height in Hfull.
    rewrite build_huffman_tree_symbols, length_fmap, Hused in Hfull. lia.
Qed.

Lemma path_code_len p path depth :
  0 <= depth -> 0 < depth + Z.of_nat (length p) <= 255 ->
  len (path_code path depth p) = depth + Z.of_nat (length p).
Proof.
  revert path depth. induction p as [|b p IH]; intros path depth Hd Hlen.
  - simpl in *. rewrite (proj2 (Z.eqb_neq _ _)) by lia. lia.
  - cbn [path_code length] in *.
    replace (u8 (depth + 1)) with (depth + 1)
      by (unfold u8, wrap; rewrite Z.mod_small; lia).
    rewrite IH by lia. lia.
Qed.

Lemma code_table_len freq s p :
  (s, p) ∈ leaf_paths (build_huffman_tree freq) ->
  len (get (mk_code 0 0) (build_code_table (build_huffman_tree freq)) s)
  = Z.of_nat (length p)
  /\ (1 <= length p <= 255)%nat.
Proof.
  intros Hin.
  pose proof (leaf_paths_internal _ _ _ (build_huffman_tree_not_leaf freq) Hin)
    as Hne.
  pose proof (leaf_paths_height _ _ _ Hin) as Hlen.
  pose proof (build_huffman_tree_height freq) as Hheight.
  assert (s ∈ symbols (build_huffman_tree freq)) as Hs.
  { rewrite <- leaf_paths_symbols. apply list_elem_of_fmap. by exists (s, p). }
  apply build_huffman_tree_symbol_range in Hs.
  assert (1 <= length p)%nat as Hone by (destruct p; [done | simpl; lia]).
  split; [|lia].
  rewrite build_code_table_paths.
  rewrite (store_code_found _ _ _ _ s p).
  - rewrite path_code_len by lia. lia.
  - rewrite leaf_paths_symbols. apply build_huffman_tree_NoDup.
  - rewrite leaf_paths_symbols. apply Forall_forall.
    intros k Hk%build_huffman_tree_symbol_range. unfold byte in Hk. lia.
  - done.
  - rewrite length_replicate. unfold byte in Hs. lia.
Qed.

Lemma code_table_len_zero freq b :
  byte b ->
  len (get (mk_code 0 0) (build_code_table (build_huffman_tree freq)) b) = 0
  <-> get 0 freq b <= 0.
Proof.
  intros Hb. split.
  - intros Hzero. destruct (decide (get 0 freq b <= 0)) as [|Hpos]; [done|].
    assert (b ∈ symbols (build_huffman_tree freq)) as Hs
      by (apply build_huffman_tree_has_symbol; [done | lia]).
    apply symbols_leaf_path in Hs as [p Hin].
    destruct (code_table_len freq b p Hin) as [Hlen Hrange]. lia.
  - intros Hle. rewrite code_table_no_entry; [done| |].
    + unfold byte in Hb. lia.
    + rewrite build_huffman_tree_symbols.
      intros (i & -> & Hi%used_symbols_pos)%list_elem_of_fmap. lia.
Qed.

(** X13: for every frequency table the tree is at most 255 deep, so the
    8-bit depth of [build_codes_dfs] never wraps around: the length stored
    for the symbol of a leaf is the depth of the leaf, between 1 and 255; and
    the length stored for a byte value is 0 exactly when the value does not
    occur in the table. *)
Theorem code_length_is_leaf_depth (freq : list Z) :
  let root := build_huffman_tree freq in
  let table := build_code_table root in
  (height root <= 255)%nat
  /\ (forall s p, (s, p) ∈ leaf_paths root ->
        len (get (mk_code 0 0) table s) = Z.of_nat (length p)
        /\ (1 <= length p <= 255)%nat)
  /\ (forall b, byte b ->
        len (get (mk_code 0 0) table b) = 0 <-> get 0 freq b <= 0).
Proof.
  intros root table. split; [apply build_huffman_tree_height|].
  split; [apply code_table_len|]. apply code_table_len_zero.
Qed.

(** ** When compression succeeds *)

Lemma encode_loop_ok table bw data :
  (encode_loop table bw data).1 = true
  <-> Forall (fun b => len (get (mk_code 0 0) table b) <> 0) data.
Proof.
  revert bw. induction data as [|b data IH]; intros bw; simpl.
  - split; [constructor | done].
  - destruct (Z.eqb_spec (len (get (mk_code 0 0) table b)) 0) as [Hz|Hnz].
    + simpl. split; [done|]. by intros [? _]%Forall_cons.
    + rewrite IH. split; [by constructor | by intros [_ ?]%Forall_cons].
Qed.

(** X14: on an input whose tree is at most 32 deep (so that every shift of
    [bw_write_bits] is defined in C), [compress_file] ends with "Internal
    error: missing code." exactly when the size it has counted (the length
    modulo [2^64]) is not 0 and the number of occurrences of some byte of the
    input is a multiple of [2^32]; otherwise it exits successfully.  In
    particular it exits successfully when the input is shorter than [2^32]
    bytes. *)
Theorem compress_file_fails_only_on_a_wrapped_counter (data : list Z) :
  Forall byte data ->
  (height (build_huffman_tree (count_frequencies data).2) <= 32)%nat ->
  ((compress_file data).1 = EXIT_FAILURE "Internal error: missing code."
   <-> 0 < u64 (Z.of_nat (length data))
       /\ exists b, b ∈ data /\ u32 (occurrences b data) = 0)
  /\ ((compress_file data).1 = EXIT_SUCCESS
      <-> ~ (0 < u64 (Z.of_nat (length data))
             /\ exists b, b ∈ data /\ u32 (occurrences b data) = 0))
  /\ (Z.of_nat (length data) < 2 ^ 32 ->
      (compress_file data).1 = EXIT_SUCCESS).
Proof.
  intros Hdata _.
  assert (forall b, b ∈ data -> 0 < occurrences b data) as Hocc.
  { intros b Hb. unfold occurrences.
    assert (b ∈ filter (fun x => x = b) data) as Hin
      by (by apply list_elem_of_filter).
    destruct (filter (fun x => x = b) data); [by apply elem_of_nil in Hin|].
    simpl. lia. }
  assert (forall b, occurrences b data <= Z.of_nat (length data)) as Hle.
  { intros b. unfold occurrences. pose proof (length_filter (fun x => x = b) data).
    lia. }
  destruct (count_frequencies_occurrences data Hdata)
    as (freq & Hcount & Hlen & Hget).
  pose proof (code_table_len_zero freq) as Hzero.
  assert ((compress_file data).1 = EXIT_FAILURE "Internal error: missing code."
   <-> 0 < u64 (Z.of_nat (length data))
       /\ exists b, b ∈ data /\ u32 (occurrences b data) = 0) as Hfail.
  { unfold compress_file. rewrite Hcount.
    destruct (Z.gtb_spec (u64 (Z.of_nat (length data))) 0) as [Hpos|Hnpos].
    - destruct (encode_loop _ _ data) as [[] bw'] eqn:Henc.
      + pose proof (proj1 (encode_loop_ok _ _ _) (f_equal fst Henc)) as Hall.
        simpl. split; [done|]. intros (_ & b & Hb & Hwrap).
        rewrite Forall_forall in Hall, Hdata.
        destruct (Hall b Hb). apply Hzero; [by apply Hdata|].
        rewrite Hget by (by apply Hdata). lia.
      + simpl. split; [|done]. intros _. split; [lia|].
        destruct (decide (Exists (fun b => len (get (mk_code 0 0)
                   (build_code_table (build_huffman_tree freq)) b) = 0) data))
          as [Hex|Hnex].
        * apply Exists_exists in Hex as (b & Hb & Hz). exists b. split; [done|].
          rewrite Forall_forall in Hdata.
          apply Hzero in Hz; [|by apply Hdata].
          rewrite Hget in Hz by (by apply Hdata).
          assert (0 <= u32 (occurrences b data))
            by (unfold u32, wrap; apply Z.mod_pos_bound; lia).
          lia.
        * apply not_Exists_Forall in Hnex; [|intros ?; apply _].
          apply encode_loop_ok with (bw := bw_init
            (write_header [] (u64 (Z.of_nat (length data))) freq)) in Hnex.
          rewrite Henc in Hnex. done.
    - simpl. split; [done|]. lia. }
  assert ((compress_file data).1 = EXIT_SUCCESS
          \/ (compress_file data).1
             = EXIT_FAILURE "Internal error: missing code.") as Hcases.
  { unfold compress_file. rewrite Hcount.
    destruct (_ >? _); [|by left].
    destruct (encode_loop _ _ data) as [[] bw']; [by left | by right]. }
  split; [exact Hfail|]. split.
  - rewrite <- Hfail. destruct Hcases as [-> | ->]; split; done.
  - intros Hsmall. destruct Hcases as [Hok|Hbad]; [done|].
    apply Hfail in Hbad as (_ & b & Hb & Hwrap).
    specialize (Hocc b Hb). specialize (Hle b).
    unfold u32, wrap in Hwrap. rewrite Z.mod_small in Hwrap by lia. lia.
Qed.

Lemma compress_file_fails_only_on_a_wrapped_counter_witness :
  Forall byte [65; 65; 65; 66; 67]
  /\ (height (build_huffman_tree (count_frequencies [65; 65; 65; 66; 67]%Z).2)
      <= 32)%nat
  /\ ((compress_file [65; 65; 65; 66; 67]).1
        = EXIT_FAILURE "Internal error: missing code."
      <-> 0 < u64 (Z.of_nat (length [65; 65; 65; 66; 67]))
          /\ exists b, b ∈ [65; 65; 65; 66; 67]
                       /\ u32 (occurrences b [65; 65; 65; 66; 67]) = 0)
  /\ ((compress_file [65; 65; 65; 66; 67]).1 = EXIT_SUCCESS
      <-> ~ (0 < u64 (Z.of_nat (length [65; 65; 65; 66; 67]))
             /\ exists b, b ∈ [65; 65; 65; 66; 67]
                          /\ u32 (occurrences b [65; 65; 65; 66; 67]) = 0))
  /\ (Z.of_nat (length [65; 65; 65; 66; 67]) < 2 ^ 32 ->
      (compress_file [65; 65; 65; 66; 67]).1 = EXIT_SUCCESS).
Proof.
  assert (Forall byte [65; 65; 65; 66; 67]) as H
    by (refine (bool_decide_unpack _ _); vm_compute; exact I).
  assert (height (build_huffman_tree (count_frequencies [65; 65; 65; 66; 67]%Z).2)
          <= 32)%nat as H' by (vm_compute; lia).
  split; [exact H|]. split; [exact H'|].
  exact (compress_file_fails_only_on_a_wrapped_counter _ H H').
Defined.

(** ** The size of the compressed file *)

Lemma bits_of_bytes_length l : length (bits_of_bytes l) = (8 * length l)%nat.
Proof.
  unfold bits_of_bytes. induction l as [|b l IH]; [done|].
  rewrite bind_cons, length_app, byte_bits_length, IH. simpl. lia.
Qed.






(** ** What the bit reader delivers *)

Lemma br_read_bit_empty rd :
  0 <= br_bits_left rd <= 8 -> br_stream rd = [] ->
  br_read_bit rd = (0, false, rd).
Proof.
  intros Hleft Hnil. unfold br_stream in Hnil.
  apply app_eq_nil in Hnil as [Hbuf Hf].
  apply (f_equal length) in Hbuf, Hf.
  rewrite length_take, byte_bits_length in Hbuf.
  rewrite bits_of_bytes_length in Hf. simpl in Hbuf, Hf.
  unfold br_read_bit. rewrite (proj2 (Z.eqb_eq _ _)) by lia.
  destruct (br_f rd); [done | simpl in Hf; lia].
Qed.

Lemma read_bits_stream (n : nat) (rd : BitReader) :
  0 <= br_bits_left rd <= 8 ->
  read_bits n rd
  = if decide (n <= length (br_stream rd))%nat
    then Some (take n (br_stream rd)) else None.
Proof.
  revert rd. induction n as [|n IH]; intros rd Hleft.
  - cbn [read_bits]. rewrite decide_True by lia. by rewrite take_0.
  - cbn [read_bits]. destruct (br_stream rd) as [|b s] eqn:Hstream.
    + rewrite (br_read_bit_empty rd Hleft Hstream).
      by rewrite decide_False by (simpl; lia).
    + destruct (br_read_bit_stream rd b s Hleft Hstream)
        as (rd' & -> & Hs & Hleft').
      rewrite (IH rd' Hleft'), Hs. simpl length.
      destruct (decide (n <= length s)%nat).
      * by rewrite decide_True by lia.
      * by rewrite decide_False by lia.
Qed.

Lemma read_bits_init (f : list Z) (n : nat) :
  read_bits n (br_init f)
  = if decide (n <= 8 * length f)%nat
    then Some (take n (bits_of_bytes f)) else None.
Proof.
  rewrite read_bits_stream by (simpl; lia).
  by rewrite br_init_stream, bits_of_bytes_length.
Qed.

(** X16: successive calls of [br_read_bit] on a fresh reader deliver the
    bits of the bytes of the file, the most significant bit of each byte
    first; the call after the last bit of the last byte reports the input
    exhausted, and no call before it does. *)
Theorem bit_reader_delivers_msb_first (f : list Z) (n : nat) :
  read_bits n (br_init f)
  = if decide (n <= 8 * length f)%nat
    then Some (take n (bits_of_bytes f)) else None.
Proof. apply read_bits_init. Qed.

(** ** Writing codes and reading them back *)

Lemma write_codes_holds hdr bits bw codes :
  bw_holds hdr bits bw ->
  bw_holds hdr (bits ++ (codes ≫= code_bits)) (write_codes bw codes).
Proof.
  revert bits bw. induction codes as [|[c l] codes IH]; intros bits bw Hbw.
  - simpl. by rewrite app_nil_r.
  - cbn [write_codes foldl]. fold (write_codes (bw_write_bits bw c l) codes).
    rewrite bind_cons, app_assoc. apply IH. by apply bw_write_bits_holds.
Qed.

(** X17: whatever codes of at most 32 bits are written with
    [bw_write_bits] and flushed with [bw_flush], the file gets the bits of
    the codes, each code from its bit [len - 1] down to its bit 0, followed
    by fewer than eight 0 bits that fill the last byte; [br_read_bit] reads
    exactly these bits back. *)
Theorem written_codes_are_read_back (codes : list Code) :
  Forall (fun c => len c <= 32) codes ->
  let f := bw_f (bw_flush (write_codes (bw_init []) codes)) in
  exists k : nat,
    (k < 8)%nat
    /\ (8 * length f = length (codes ≫= code_bits) + k)%nat
    /\ read_bits (8 * length f) (br_init f)
       = Some ((codes ≫= code_bits) ++ replicate k 0).
Proof.
  intros _ f.
  pose proof (write_codes_holds [] [] (bw_init []) codes (bw_init_holds []))
    as Hbw.
  destruct (bw_flush_holds _ _ _ Hbw) as (payload & k & Hf & Hbits & Hk).
  simpl app in Hf, Hbits. fold f in Hf. exists k. split; [done|].
  rewrite read_bits_init, Hf.
  pose proof (f_equal length Hbits) as Hlen.
  rewrite bits_of_bytes_length, length_app, length_replicate in Hlen.
  split; [done|]. rewrite decide_True by lia.
  f_equal. rewrite <- Hbits. apply take_ge.
  rewrite bits_of_bytes_length. lia.
Qed.

Lemma written_codes_are_read_back_witness :
  Forall (fun c => len c <= 32) [mk_code 1 1; mk_code 0 2; mk_code 1 2]
  /\ exists k : nat,
       (k < 8)%nat
       /\ (8 * length (bw_f (bw_flush (write_codes (bw_init [])
                          [mk_code 1 1; mk_code 0 2; mk_code 1 2])))
           = length ([mk_code 1 1; mk_code 0 2; mk_code 1 2] ≫= code_bits) + k)%nat
       /\ read_bits
            (8 * length (bw_f (bw_flush (write_codes (bw_init [])
                           [mk_code 1 1; mk_code 0 2; mk_code 1 2]))))
            (br_init (bw_f (bw_flush (write_codes (bw_init [])
                              [mk_code 1 1; mk_code 0 2; mk_code 1 2]))))
          = Some (([mk_code 1 1; mk_code 0 2; mk_code 1 2] ≫= code_bits)
                  ++ replicate k 0).
Proof.
  assert (Forall (fun c => len c <= 32)
            [mk_code 1 1; mk_code 0 2; mk_code 1 2]) as H
    by (repeat constructor; simpl; lia).
  split; [exact H|].
  exact (written_codes_are_read_back _ H).
Defined.

(** ** The verdicts of the header reader *)

Lemma read_freqs_content n inp freq :
  (4 * n <= length inp)%nat ->
  read_freqs n inp freq
  = (Ok (freq ++ ((fun i : nat => le_value (take 4 (drop (4 * i) inp)))
                    <$> seq 0 n)),
     drop (4 * n) inp).
Proof.
  revert inp freq. induction n as [|n IH]; intros inp freq Hlen.
  - simpl. by rewrite app_nil_r.
  - cbn [read_freqs fread]. rewrite length_take.
    rewrite (proj2 (Nat.eqb_eq _ _)) by lia.
    rewrite IH by (rewrite length_drop; lia).
    rewrite <- app_assoc, drop_drop. cbn [seq fmap list_fmap app].
    rewrite <- fmap_S_seq, <- list_fmap_compose.
    replace (4 + 4 * n)%nat with (4 * S n)%nat by lia.
    change (drop (4 * 0) inp) with inp.
    apply (f_equal (fun l => (Ok (freq ++ le_value (take 4 inp) :: l),
                              drop (4 * S n) inp))).
    apply list_fmap_ext. intros _ i _. simpl.
    rewrite drop_drop. do 3 f_equal. lia.
Qed.

(** X18: what [read_header] answers is decided by the length of the file
    and its first four bytes alone: fewer than 4 bytes, a wrong magic, fewer
    than 12 bytes, and fewer than 1036 bytes each give their own message,
    in this order; every file that starts with "HUF1" and has at least 1036
    bytes is accepted, whatever else it holds, with the size and the 256
    entries read as little-endian numbers and the rest left unread. *)
Theorem read_header_verdicts (inp : list Z) :
  ((length inp < 4)%nat ->
   (read_header inp).1 = Fatal "Invalid or truncated file (magic).")
  /\ ((4 <= length inp)%nat -> take 4 inp <> MAGIC ->
      (read_header inp).1 = Fatal "Not a HUF1 file (bad magic).")
  /\ (take 4 inp = MAGIC -> (length inp < 12)%nat ->
      (read_header inp).1 = Fatal "Truncated header (size).")
  /\ (take 4 inp = MAGIC -> (12 <= length inp < 1036)%nat ->
      (read_header inp).1 = Fatal "Truncated header (freq).")
  /\ (take 4 inp = MAGIC -> (1036 <= length inp)%nat ->
      read_header inp
      = (Ok (le_value (take 8 (drop 4 inp)),
             (fun i : nat => le_value (take 4 (drop (12 + 4 * i) inp)))
               <$> seq 0 256),
         drop 1036 inp)).
Proof.
  assert (take 4 inp = MAGIC -> (4 <= length inp)%nat) as Hmagic_len.
  { intros Hm. apply (f_equal length) in Hm. rewrite length_take in Hm.
    change (length MAGIC) with 4%nat in Hm. lia. }
  unfold read_header, fread. rewrite !length_take, length_drop.
  repeat split.
  - intros Hlen. by rewrite (proj2 (Nat.eqb_neq _ _)) by lia.
  - intros Hlen Hmagic. rewrite (proj2 (Nat.eqb_eq _ _)) by lia. cbn [negb].
    by rewrite bool_decide_false by done.
  - intros Hmagic Hlen. specialize (Hmagic_len Hmagic).
    rewrite (proj2 (Nat.eqb_eq _ _)) by lia. cbn [negb].
    rewrite bool_decide_true by done. cbn [negb].
    by rewrite (proj2 (Nat.eqb_neq _ _)) by lia.
  - intros Hmagic Hlen.
    rewrite (proj2 (Nat.eqb_eq (4 `min` _) _)) by lia. cbn [negb].
    rewrite bool_decide_true by done. cbn [negb].
    rewrite (proj2 (Nat.eqb_eq _ _)) by lia. cbn [negb].
    destruct (read_freqs_short 256 (drop 8 (drop 4 inp)) []) as [r ->];
      [rewrite !length_drop; lia | done].
  - intros Hmagic Hlen.
    rewrite (proj2 (Nat.eqb_eq (4 `min` _) _)) by lia. cbn [negb].
    rewrite bool_decide_true by done. cbn [negb].
    rewrite (proj2 (Nat.eqb_eq _ _)) by lia. cbn [negb].
    rewrite read_freqs_content by (rewrite !length_drop; lia).
    rewrite !drop_drop. cbn [app]. do 3 f_equal.
    apply list_fmap_ext. intros _ i _. simpl. by rewrite !drop_drop.
Qed.

(** ** The header of a compressed file *)

Lemma compress_file_header (data : list Z) :
  exists payload,
    (compress_file data).2
    = write_header [] (count_frequencies data).1 (count_frequencies data).2
      ++ payload.
Proof.
  change (write_header [] (count_frequencies data).1 (count_frequencies data).2
            `prefix_of` (compress_file data).2).
  unfold compress_file.
  destruct (count_frequencies data) as [original_size freq]. cbn [fst snd].
  set (hdr := write_header [] original_size freq).
  assert (hdr `prefix_of` bw_f (bw_flush (bw_init hdr))) as Hflush
    by apply (bw_flush_prefix (bw_init hdr)).
  destruct (original_size >? 0); [|exact Hflush].
  pose proof (encode_loop_prefix
    (build_code_table (build_huffman_tree freq)) (bw_init hdr) data) as Hp.
  destruct (encode_loop _ _ _) as [[] bw']; simpl in *; [|exact Hp].
  etrans; [exact Hp | apply bw_flush_prefix].
Qed.

(** X19: the header that [write_header] writes for a size below [2^64] and
    a table of 256 entries below [2^32] is read back by [read_header] as the
    same size and the same table, with whatever follows left unread. *)
Theorem written_header_is_read_back
  (original_size : Z) (freq payload : list Z) :
  0 <= original_size < 2 ^ 64 ->
  length freq = 256%nat ->
  Forall (fun z => 0 <= z < 2 ^ 32) freq ->
  read_header (write_header [] original_size freq ++ payload)
  = (Ok (original_size, freq), payload).
Proof. apply read_header_written. Qed.

Lemma written_header_is_read_back_witness :
  0 <= 5 < 2 ^ 64
  /\ length (freq_table [(65, 3); (66, 1); (67, 1)]) = 256%nat
  /\ Forall (fun z => 0 <= z < 2 ^ 32) (freq_table [(65, 3); (66, 1); (67, 1)])
  /\ read_header
       (write_header [] 5 (freq_table [(65, 3); (66, 1); (67, 1)]) ++ [226])
     = (Ok (5, freq_table [(65, 3); (66, 1); (67, 1)]), [226]).
Proof.
  assert (0 <= 5 < 2 ^ 64) as H1 by lia.
  assert (length (freq_table [(65, 3); (66, 1); (67, 1)]) = 256%nat) as H2
    by reflexivity.
  assert (Forall (fun z => 0 <= z < 2 ^ 32)
            (freq_table [(65, 3); (66, 1); (67, 1)])) as H3
    by (refine (bool_decide_unpack _ _); vm_compute; exact I).
  split; [exact H1|]. split; [exact H2|]. split; [exact H3|].
  exact (written_header_is_read_back 5 _ [226] H1 H2 H3).
Defined.

(** Whatever the input, also one on which a counter has wrapped around
    or on which compression has failed, the file that [compress_file] leaves
    starts with a header that [read_header] accepts, and the header gives
    back the size and the table of the counting pass. *)
Lemma compressed_file_has_a_readable_header (data : list Z) :
  Forall byte data ->
  exists payload,
    read_header (compress_file data).2
    = (Ok (count_frequencies data), payload)
    /\ (compress_file data).2
       = write_header [] (count_frequencies data).1 (count_frequencies data).2
         ++ payload.
Proof.
  intros Hdata. destruct (compress_file_header data) as [payload Hout].
  exists payload. split; [|done]. rewrite Hout.
  destruct (count_frequencies_range data Hdata) as (Hsize & Hlen & Hrange).
  destruct (count_frequencies data) as [original_size freq].
  by apply read_header_written.
Qed.

Lemma compressed_file_has_a_readable_header_witness :
  Forall byte [65; 65; 65; 66; 67]
  /\ exists payload,
       read_header (compress_file [65; 65; 65; 66; 67]).2
       = (Ok (count_frequencies [65; 65; 65; 66; 67]), payload)
       /\ (compress_file [65; 65; 65; 66; 67]).2
          = write_header [] (count_frequencies [65; 65; 65; 66; 67]).1
              (count_frequencies [65; 65; 65; 66; 67]).2
            ++ payload.
Proof.
  assert (Forall byte [65; 65; 65; 66; 67]) as H
    by (refine (bool_decide_unpack _ _); vm_compute; exact I).
  split; [exact H|].
  exact (compressed_file_has_a_readable_header _ H).
Defined.

(** ** What every run of the decoder satisfies *)

Section DecodingInvariant.

Variable root : Node.
Variable original_size : Z.

(** A property of the states that every continuing iteration keeps, and
    from which every way of ending gives [Q], holds of the run. *)
Lemma decode_loop_invariant (I : decoder -> Prop) (Q : run -> Prop) :
  (forall st st', I st -> decode_step root original_size st = inl st' -> I st') ->
  (forall st r, I st -> decode_step root original_size st = inr r -> Q r) ->
  (forall st, I st ->
     Q {| exit_status := Unfinished; output := out st;
          unread := br_f (br st) |}) ->
  forall fuel st, I st -> Q (decode_loop fuel root original_size st).
Proof.
  intros Hkeep Hend Hfuel fuel.
  induction fuel as [|fuel IH]; intros st Hst; simpl; [by apply Hfuel|].
  destruct (decode_step root original_size st) as [st'|r] eqn:Hstep.
  - apply IH. by eapply Hkeep.
  - by eapply Hend.
Qed.

End DecodingInvariant.

Lemma decode_loop_length fuel root original_size st :
  original_size < 2 ^ 64 ->
  written st = Z.of_nat (length (out st)) -> written st <= original_size ->
  let r := decode_loop fuel root original_size st in
  Z.of_nat (length (output r)) <= original_size
  /\ (exit_status r = EXIT_SUCCESS ->
      Z.of_nat (length (output r)) = original_size)
  /\ (forall msg, exit_status r = EXIT_FAILURE msg ->
      Z.of_nat (length (output r)) < original_size).
Proof.
  intros Hsize Hw Hle.
  apply (decode_loop_invariant root original_size
           (fun st => written st = Z.of_nat (length (out st))
                      /\ written st <= original_size)); [| | |done].
  - clear Hw Hle st. intros st st' [Hw Hle]. unfold decode_step.
    destruct (Z.ltb_spec (written st) original_size) as [Hlt|]; [|done].
    destruct (node_is_leaf (cur st)).
    + intros [= <-]. simpl. rewrite length_app. simpl.
      unfold u64, wrap. rewrite Z.mod_small; lia.
    + destruct (br_read_bit (br st)) as [[bit ok] rd'].
      destruct ok; simpl; [|done].
      destruct (is_null _); [done|]. by intros [= <-].
  - clear Hw Hle st. intros st r [Hw Hle]. unfold decode_step.
    destruct (Z.ltb_spec (written st) original_size) as [Hlt|Hge].
    + destruct (node_is_leaf (cur st)); [done|].
      destruct (br_read_bit (br st)) as [[bit ok] rd'].
      destruct ok; simpl.
      * destruct (is_null _); [|done]. intros [= <-]. simpl.
        split; [lia|]. split; [done|]. intros _ _. lia.
      * intros [= <-]. simpl. split; [lia|]. split; [done|]. intros _ _. lia.
    + intros [= <-]. simpl. split; [lia|]. split; [lia | done].
  - clear Hw Hle st. intros st [Hw Hle]. simpl. split; [lia|]. split; done.
Qed.

(** X20: when the header is read, the decoder never writes more bytes than
    the header declares, and it exits successfully exactly when it has
    written that many; every failure leaves a shorter output. *)
Theorem decoded_length_and_status
  (inp : list Z) (original_size : Z) (freq rest : list Z) :
  Forall byte inp ->
  read_header inp = (Ok (original_size, freq), rest) ->
  Z.of_nat (length (output (decompress_file inp))) <= original_size
  /\ (exit_status (decompress_file inp) = EXIT_SUCCESS
      <-> Z.of_nat (length (output (decompress_file inp))) = original_size).
Proof.
  intros Hbytes Hheader.
  pose proof (read_header_size_range _ _ _ _ Hbytes Hheader) as Hsize.
  unfold decompress_file. rewrite Hheader.
  destruct (Z.eqb_spec original_size 0) as [->|Hnz]; [done|].
  destruct (is_null (build_huffman_tree freq)) eqn:Hnull.
  { simpl. split; [lia|]. split; [done | lia]. }
  set (st := {| written := 0; cur := build_huffman_tree freq;
                br := br_init rest; out := [] |}).
  destruct (decode_loop_length (decode_fuel (length rest))
              (build_huffman_tree freq) original_size st)
    as (Hle & Hok & Hfail); [lia | done | simpl; lia |].
  split; [exact Hle|]. split; [exact Hok|].
  intros Hlen.
  pose proof (decode_loop_finishes (decode_fuel (length rest))
                (build_huffman_tree freq) original_size st
                (build_huffman_tree_not_leaf freq)) as Hfin.
  destruct (exit_status (decode_loop _ _ _ st)) as [|msg|] eqn:Hstatus.
  - done.
  - specialize (Hfail msg eq_refl). lia.
  - destruct Hfin; [simpl; lia | | done].
    unfold decode_measure, decode_fuel. subst st.
    cbn [br cur br_init br_bits_left br_f].
    rewrite build_huffman_tree_not_leaf. lia.
Qed.

Lemma decoded_length_and_status_witness :
  Forall byte truncated_container
  /\ read_header truncated_container = (Ok (9, freq_table [(65, 9)]), [0])
  /\ Z.of_nat (length (output (decompress_file truncated_container))) <= 9
  /\ (exit_status (decompress_file truncated_container) = EXIT_SUCCESS
      <-> Z.of_nat (length (output (decompress_file truncated_container))) = 9).
Proof.
  assert (Forall byte truncated_container) as H1
    by (refine (bool_decide_unpack _ _); vm_compute; exact I).
  assert (read_header truncated_container
          = (Ok (9, freq_table [(65, 9)]), [0])) as H2
    by (vm_compute; reflexivity).
  split; [exact H1|]. split; [exact H2|].
  exact (decoded_length_and_status truncated_container 9
           (freq_table [(65, 9)]) [0] H1 H2).
Defined.

(** ** The bytes that the decoder writes *)

Lemma symbols_child n :
  node_is_leaf n = false ->
  symbols (node_left n) ⊆ symbols n /\ symbols (node_right n) ⊆ symbols n.
Proof.
  destruct n as [|f [] s l r]; simpl; try done.
  intros _. split; intros x Hx; apply elem_of_app; auto.
Qed.

Lemma symbols_leaf n :
  node_is_leaf n = true -> node_symbol n ∈ symbols n.
Proof. destruct n as [|f [] s l r]; simpl; try done. intros _. by left. Qed.

Lemma decode_loop_symbols fuel root original_size st :
  symbols (cur st) ⊆ symbols root ->
  Forall (fun b => b ∈ symbols root) (out st) ->
  (forall s, s ∈ symbols root -> byte s) ->
  Forall (fun b => b ∈ symbols root)
         (output (decode_loop fuel root original_size st)).
Proof.
  intros Hcur Hout Hbyte.
  apply (decode_loop_invariant root original_size
           (fun st => symbols (cur st) ⊆ symbols root
                      /\ Forall (fun b => b ∈ symbols root) (out st)));
    [| | |done].
  - clear Hcur Hout st. intros st st' [Hcur Hout]. unfold decode_step.
    destruct (written st <? original_size); [|done].
    destruct (node_is_leaf (cur st)) eqn:Hleaf.
    + intros [= <-]. simpl. split; [done|].
      apply Forall_app. split; [done|]. apply Forall_singleton.
      pose proof (Hcur _ (symbols_leaf _ Hleaf)) as Hin.
      specialize (Hbyte _ Hin). unfold byte in Hbyte.
      unfold u8, wrap. by rewrite Z.mod_small by lia.
    + destruct (br_read_bit (br st)) as [[bit ok] rd'].
      destruct ok; simpl; [|done].
      destruct (is_null _); [done|]. intros [= <-]. simpl.
      split; [|done]. destruct (symbols_child _ Hleaf) as [Hl Hr].
      destruct (bit =? 0); set_solver.
  - clear Hcur Hout st. intros st r [Hcur Hout]. unfold decode_step.
    repeat (case_match; try done); by intros [= <-].
  - clear Hcur Hout st. by intros st [Hcur Hout].
Qed.

(** X21: every byte that the decoder writes is a symbol with a nonzero
    entry in the frequency table of the header, whatever the payload is. *)
Theorem decoder_writes_only_counted_symbols (inp : list Z) :
  match read_header inp with
  | (Ok (original_size, freq), rest) =>
      Forall (fun b => byte b /\ 0 < get 0 freq b)
             (output (decompress_file inp))
  | (Fatal msg, rest) => output (decompress_file inp) = []
  end.
Proof.
  unfold decompress_file.
  destruct (read_header inp) as [[[original_size freq]|msg] rest]; [|done].
  destruct (original_size =? 0); [by constructor|].
  destruct (is_null (build_huffman_tree freq)); [by constructor|].
  eapply Forall_impl.
  - apply decode_loop_symbols; cbn [cur out]; [done | by constructor|].
    apply build_huffman_tree_symbol_range.
  - intros b Hb. cbv beta in Hb. split.
    + by eapply build_huffman_tree_symbol_range.
    + rewrite build_huffman_tree_symbols in Hb.
      apply list_elem_of_fmap in Hb as (i & -> & Hi).
      by apply used_symbols_pos.
Qed.

(** ** The message "Corrupt Huffman tree or data." *)

Lemma full_not_null n : full n = true -> is_null n = false.
Proof. by destruct n. Qed.

Lemma full_child n :
  full n = true -> node_is_leaf n = false ->
  full (node_left n) = true /\ full (node_right n) = true.
Proof.
  destruct n as [|f [] s l r]; simpl; try done.
  by intros [[_ Hl]%andb_prop Hr]%andb_prop _.
Qed.

Lemma decode_loop_full fuel root original_size st :
  full root = true -> full (cur st) = true ->
  exit_status (decode_loop fuel root original_size st)
  <> EXIT_FAILURE "Corrupt Huffman tree or data.".
Proof.
  intros Hroot Hcur.
  apply (decode_loop_invariant root original_size
           (fun st => full (cur st) = true)); [| | |done].
  - clear Hcur st. intros st st' Hcur. unfold decode_step.
    destruct (written st <? original_size); [|done].
    destruct (node_is_leaf (cur st)) eqn:Hleaf.
    + by intros [= <-].
    + destruct (br_read_bit (br st)) as [[bit ok] rd'].
      destruct ok; simpl; [|done].
      destruct (is_null _); [done|]. intros [= <-]. simpl.
      destruct (full_child _ Hcur Hleaf). by destruct (bit =? 0).
  - clear Hcur st. intros st r Hcur. unfold decode_step.
    destruct (written st <? original_size); [|by intros [= <-]].
    destruct (node_is_leaf (cur st)) eqn:Hleaf; [done|].
    destruct (br_read_bit (br st)) as [[bit ok] rd'].
    destruct ok; simpl; [|by intros [= <-]].
    destruct (full_child _ Hcur Hleaf) as [Hl Hr].
    destruct (bit =? 0); by rewrite full_not_null.
  - done.
Qed.

(** X22: the decoder can end with "Corrupt Huffman tree or data." only
    when exactly one entry of the frequency table of the header is nonzero:
    with two or more symbols every step from an internal node finds a child,
    whatever the payload is. *)
Theorem corrupt_tree_needs_a_single_symbol
  (inp : list Z) (original_size : Z) (freq rest : list Z) :
  read_header inp = (Ok (original_size, freq), rest) ->
  exit_status (decompress_file inp)
    = EXIT_FAILURE "Corrupt Huffman tree or data." ->
  exists s, used_symbols freq = [s].
Proof.
  intros Hheader. unfold decompress_file. rewrite Hheader.
  destruct (original_size =? 0); [done|].
  destruct (is_null (build_huffman_tree freq)) eqn:Hnull; [done|].
  intros Hcorrupt.
  destruct (used_symbols freq) as [|s [|s' used]] eqn:Hused.
  - rewrite (proj2 (build_huffman_tree_null freq)) in Hnull; [done|].
    by rewrite Hused.
  - by exists s.
  - pose proof (build_huffman_tree_full freq) as Hfull.
    rewrite Hused in Hfull. specialize (Hfull ltac:(simpl; lia)).
    by apply decode_loop_full in Hcorrupt.
Qed.

Lemma corrupt_tree_needs_a_single_symbol_witness :
  read_header (write_header [] 1 (freq_table [(65, 1)]) ++ [128])
    = (Ok (1, freq_table [(65, 1)]), [128])
  /\ exit_status
       (decompress_file (write_header [] 1 (freq_table [(65, 1)]) ++ [128]))
     = EXIT_FAILURE "Corrupt Huffman tree or data."
  /\ exists s, used_symbols (freq_table [(65, 1)]) = [s].
Proof.
  assert (read_header (write_header [] 1 (freq_table [(65, 1)]) ++ [128])
          = (Ok (1, freq_table [(65, 1)]), [128])) as H1
    by (vm_compute; reflexivity).
  assert (exit_status
            (decompress_file
               (write_header [] 1 (freq_table [(65, 1)]) ++ [128]))
          = EXIT_FAILURE "Corrupt Huffman tree or data.") as H2
    by (vm_compute; reflexivity).
  split; [exact H1|]. split; [exact H2|].
  exact (corrupt_tree_needs_a_single_symbol _ 1 _ [128] H1 H2).
Defined.

(** X23: with a table of a single symbol the only code is the bit 0: a
    payload that starts with a 1 bit makes the decoder step to the missing
    right child of the root, and the run ends with "Corrupt Huffman tree or
    data." before a byte is written. *)
Theorem one_bit_under_a_single_symbol_is_corrupt
  (inp : list Z) (original_size : Z) (freq : list Z) (s : nat)
  (b : Z) (rest : list Z) :
  read_header inp = (Ok (original_size, freq), b :: rest) ->
  0 < original_size ->
  used_symbols freq = [s] ->
  128 <= b < 256 ->
  decompress_file inp
  = {| exit_status := EXIT_FAILURE "Corrupt Huffman tree or data.";
       output := []; unread := rest |}.
Proof.
  intros Hheader Hsize Hused Hb. unfold decompress_file. rewrite Hheader.
  rewrite (proj2 (Z.eqb_neq _ _)) by lia.
  destruct (build_huffman_tree_single freq s Hused) as [_ ->].
  cbn [is_null]. unfold decode_fuel.
  replace (16 * length (b :: rest) + 2)%nat
    with (S (16 * length (b :: rest) + 1))%nat by lia.
  cbn [decode_loop]. unfold decode_step. cbn [written cur node_is_leaf br].
  rewrite (proj2 (Z.ltb_lt _ _)) by lia.
  unfold br_read_bit, br_init, br_take_bit.
  cbn [br_bits_left br_f br_buf Z.eqb negb].
  assert (Z.land (Z.shiftr b 7) 1 = 1) as ->.
  { rewrite Z.shiftr_div_pow2 by lia. change (2 ^ 7) with 128.
    replace (b / 128) with 1; [done|].
    apply Z.div_unique with (r := b - 128); lia. }
  done.
Qed.

Lemma one_bit_under_a_single_symbol_is_corrupt_witness :
  read_header (write_header [] 1 (freq_table [(65, 1)]) ++ [128; 7])
    = (Ok (1, freq_table [(65, 1)]), [128; 7])
  /\ 0 < 1
  /\ used_symbols (freq_table [(65, 1)]) = [65%nat]
  /\ 128 <= 128 < 256
  /\ decompress_file (write_header [] 1 (freq_table [(65, 1)]) ++ [128; 7])
     = {| exit_status := EXIT_FAILURE "Corrupt Huffman tree or data.";
          output := []; unread := [7] |}.
Proof.
  assert (read_header (write_header [] 1 (freq_table [(65, 1)]) ++ [128; 7])
          = (Ok (1, freq_table [(65, 1)]), [128; 7])) as H1
    by (vm_compute; reflexivity).
  assert (0 < 1) as H2 by lia.
  assert (used_symbols (freq_table [(65, 1)]) = [65%nat]) as H3
    by (vm_compute; reflexivity).
  assert (128 <= 128 < 256) as H4 by lia.
  repeat (split; [assumption|]).
  exact (one_bit_under_a_single_symbol_is_corrupt _ 1 _ 65%nat 128 [7]
           H1 H2 H3 H4).
Defined.

(** ** The command line *)




Lemma main_compress prog inpath outpath fs :
  Cli.main [prog; "-c"; inpath; outpath] fs
  = Cli.compress_file inpath outpath fs.
Proof. reflexivity. Qed.

Lemma main_decompress prog inpath outpath fs :
  Cli.main [prog; "-d"; inpath; outpath] fs
  = Cli.decompress_file inpath outpath fs.
Proof. reflexivity. Qed.



(** X26: the output file is opened, and so emptied, before the input is
    looked at.  Compressing a file onto itself therefore succeeds and leaves
    the 1036-byte container of the empty input in its place, whatever the
    file held; decompressing a file onto itself leaves it empty and fails on
    the magic. *)
Theorem in_place_runs_lose_the_input
  (prog path : string) (data : list Z) (fs : Cli.files) :
  fs !! path = Some data ->
  Cli.main [prog; "-c"; path; path] fs
  = (EXIT_SUCCESS, <[path := write_header [] 0 (replicate 256 0)]> fs)
  /\ Cli.main [prog; "-d"; path; path] fs
     = (EXIT_FAILURE "Invalid or truncated file (magic).", <[path := []]> fs).
Proof.
  intros Hin. rewrite main_compress, main_decompress.
  unfold Cli.compress_file, Cli.decompress_file. rewrite Hin.
  rewrite lookup_insert_eq. cbn [from_option id].
  change (compress_file [])
    with (EXIT_SUCCESS, write_header [] 0 (replicate 256 0)).
  change (decompress_file [])
    with {| exit_status := EXIT_FAILURE "Invalid or truncated file (magic).";
            output := []; unread := [] |}.
  cbn [exit_status output]. by rewrite !insert_insert_eq.
Qed.

Lemma in_place_runs_lose_the_input_witness :
  sample_files !! "a.txt"
    = Some [65; 65; 65; 66; 67]
  /\ Cli.main ["huff"; "-c"; "a.txt"; "a.txt"]
       sample_files
     = (EXIT_SUCCESS,
        <["a.txt" := write_header [] 0 (replicate 256 0)]>
          sample_files)
  /\ Cli.main ["huff"; "-d"; "a.txt"; "a.txt"]
       sample_files
     = (EXIT_FAILURE "Invalid or truncated file (magic).",
        <["a.txt" := []]> sample_files).
Proof.
  assert (sample_files !! "a.txt"
          = Some [65; 65; 65; 66; 67]) as H1 by apply lookup_singleton_eq.
  split; [exact H1|].
  exact (in_place_runs_lose_the_input "huff" "a.txt" _ _ H1).
Defined.

(** X27: a decompression that fails leaves an output file all the same: when
    the input is not a container (wrong magic, or shorter than the header),
    the file at the output path is empty after the run, whatever it held
    before, and the run has failed with a format message. *)
Theorem failed_decompression_empties_the_output
  (prog inpath outpath : string) (inp : list Z) (fs : Cli.files) :
  fs !! inpath = Some inp ->
  take 4 inp <> MAGIC \/ (length inp < 1036)%nat ->
  exists msg,
    format_error msg
    /\ Cli.main [prog; "-d"; inpath; outpath] fs
       = (EXIT_FAILURE msg, <[outpath := []]> fs).
Proof.
  intros Hin Hbad. rewrite main_decompress.
  unfold Cli.decompress_file. rewrite Hin.
  destruct (decide (outpath = inpath)) as [->|Hne].
  - rewrite lookup_insert_eq. cbn [from_option id].
    exists "Invalid or truncated file (magic).".
    split; [unfold format_error; repeat constructor|].
    change (decompress_file [])
      with {| exit_status := EXIT_FAILURE "Invalid or truncated file (magic).";
              output := []; unread := [] |}.
    cbn [exit_status output]. by rewrite insert_insert_eq.
  - rewrite lookup_insert_ne, Hin by done. cbn [from_option id].
    destruct (read_header_bad inp Hbad) as (msg & rest & Hread & Hmsg).
    exists msg. split; [done|]. unfold decompress_file. rewrite Hread.
    cbn [exit_status output]. by rewrite insert_insert_eq.
Qed.

Lemma failed_decompression_empties_the_output_witness :
  sample_files !! "a.txt"
    = Some [65; 65; 65; 66; 67]
  /\ (take 4 [65; 65; 65; 66; 67] <> MAGIC
      \/ (length [65; 65; 65; 66; 67] < 1036)%nat)
  /\ exists msg,
       format_error msg
       /\ Cli.main ["huff"; "-d"; "a.txt"; "b.txt"]
            sample_files
          = (EXIT_FAILURE msg,
             <["b.txt" := []]> sample_files).
Proof.
  assert (sample_files !! "a.txt"
          = Some [65; 65; 65; 66; 67]) as H1 by apply lookup_singleton_eq.
  assert (take 4 [65; 65; 65; 66; 67] <> MAGIC
          \/ (length [65; 65; 65; 66; 67] < 1036)%nat) as H2
    by (right; simpl; lia).
  split; [exact H1|]. split; [exact H2|].
  exact (failed_decompression_empties_the_output "huff" "a.txt" "b.txt" _ _
           H1 H2).
Defined.

(** ** The depth of the tree grows with the logarithm of the size *)

Lemma fib_step n : fib (S (S n)) = fib (S n) + fib n.
Proof. done. Qed.

Lemma fib_nonneg n : 0 <= fib n /\ 0 <= fib (S n).
Proof.
  induction n as [|n [IH0 IH1]]; [simpl; lia|].
  split; [done|]. rewrite fib_step. lia.
Qed.

Lemma fib_mono n m : (n <= m)%nat -> fib n <= fib m.
Proof.
  induction 1 as [|m _ IH]; [lia|].
  etrans; [exact IH|]. destruct m as [|m]; [simpl; lia|].
  rewrite fib_step. pose proof (fib_nonneg m). lia.
Qed.

Lemma fib_iter n :
  Nat.iter n (fun p : Z * Z => (p.2, p.1 + p.2)) (0, 1) = (fib n, fib (S n)).
Proof.
  induction n as [|n IH]; [done|].
  rewrite Nat.iter_succ, IH, (fib_step n). cbn [fst snd].
  f_equal. lia.
Qed.

Lemma fib_iter_fst n :
  (Nat.iter n (fun p : Z * Z => (p.2, p.1 + p.2)) (0, 1)).1 = fib n.
Proof. by rewrite fib_iter. Qed.

Lemma fib_35 : fib 35 = 9227465.
Proof. rewrite <- (fib_iter_fst 35). vm_compute. reflexivity. Qed.

Lemma merged_in_order_pos n : merged_in_order n -> 1 <= node_freq n.
Proof.
  induction n as [|f [] s l IHl r IHr]; simpl; try done.
  intros (-> & _ & _ & Hl%IHl & Hr%IHr). lia.
Qed.

(** A tree of depth [h] that is merged in order carries at least the
    Fibonacci number [h + 2]. *)
Lemma merged_in_order_fib n :
  merged_in_order n ->
  fib (S (S (height n))) <= node_freq n
  /\ (node_is_leaf n = false -> fib (S (height n)) <= top n).
Proof.
  induction n as [|f [] s l IHl r IHr]; cbn [merged_in_order]; try done.
  intros (-> & Htl & Htr & Hl & Hr).
  destruct (IHl Hl) as [Hfl Hil]. destruct (IHr Hr) as [Hfr Hir].
  pose proof (merged_in_order_pos _ Hl) as Hpl.
  pose proof (merged_in_order_pos _ Hr) as Hpr.
  assert (fib (S (height l)) <= node_freq r) as Hur.
  { destruct (node_is_leaf l) eqn:Hleaf.
    - destruct l as [|? [] ? ? ?]; simpl in *; try done; lia.
    - specialize (Hil eq_refl). lia. }
  assert (fib (S (height r)) <= node_freq l) as Hul.
  { destruct (node_is_leaf r) eqn:Hleaf.
    - destruct r as [|? [] ? ? ?]; simpl in *; try done; lia.
    - specialize (Hir eq_refl). lia. }
  cbn [height node_freq node_is_leaf top].
  destruct (Nat.max_spec (height l) (height r)) as [[Hlt ->]|[Hge ->]].
  - rewrite (fib_step (S (height r))). split; [lia|]. intros _. lia.
  - rewrite (fib_step (S (height l))). split; [lia|]. intros _. lia.
Qed.

Lemma sum_freq_nonneg pq :
  Forall merged_in_order pq -> 0 <= sum_entries (node_freq <$> pq).
Proof.
  induction 1 as [|t pq Ht%merged_in_order_pos _ IH]; [simpl; lia|].
  change (0 <= node_freq t + sum_entries (node_freq <$> pq)). lia.
Qed.

Lemma merge_step_queue_ok pq pq' :
  queue_ok pq -> sum_entries (node_freq <$> pq) < 2 ^ 32 ->
  merge_step pq = Some pq' ->
  queue_ok pq'
  /\ sum_entries (node_freq <$> pq') = sum_entries (node_freq <$> pq).
Proof.
  intros (Hsorted & Hmerged & Htop) Hsum.
  destruct pq as [|a [|b rest]]; cbn [merge_step]; try done. intros [= <-].
  apply StronglySorted_inv in Hsorted as [Hsorted Ha].
  apply StronglySorted_inv in Hsorted as [Hsorted Hb].
  apply Forall_cons in Ha as [Hab Ha].
  apply Forall_cons in Hmerged as [Hma Hmerged].
  apply Forall_cons in Hmerged as [Hmb Hmerged].
  pose proof (merged_in_order_pos _ Hma) as Hpa.
  pose proof (merged_in_order_pos _ Hmb) as Hpb.
  pose proof (sum_freq_nonneg _ Hmerged) as Hrest.
  rewrite !fmap_cons in Hsum. cbn [sum_entries foldr] in Hsum.
  fold (sum_entries (node_freq <$> rest)) in Hsum.
  assert (u32 (node_freq a + node_freq b) = node_freq a + node_freq b) as Hnw
    by (unfold u32, wrap; apply Z.mod_small; lia).
  rewrite Hnw. unfold freq_le in Hab.
  set (m := make_node (node_freq a + node_freq b) false 0 a b).
  assert (merged_in_order m) as Hm.
  { cbn [m merged_in_order]. split; [done|].
    split; [apply Htop; by repeat constructor|].
    split; [apply Htop; by repeat constructor|]. done. }
  split; [split; [|split]|].
  - by apply list_insert_sorted_ascending.
  - by apply list_insert_sorted_Forall.
  - intros t u. rewrite !list_insert_sorted_perm.
    intros [->|Ht]%elem_of_cons [->|Hu]%elem_of_cons.
    + cbn [m top node_freq]. clearbody m. lia.
    + cbn [m top]. pose proof (proj1 (Forall_forall _ _) Hb u Hu) as Hbu.
      unfold freq_le in Hbu. clearbody m. lia.
    + cbn [m node_freq].
      assert (top t <= node_freq a) by (apply Htop; by repeat constructor).
      clearbody m. lia.
    + apply Htop; by repeat constructor.
  - rewrite (sum_entries_perm _ (node_freq <$> m :: rest))
      by (by rewrite list_insert_sorted_perm).
    rewrite !fmap_cons. unfold sum_entries. cbn [foldr m node_freq].
    clearbody m. lia.
Qed.

Lemma merge_loop_queue_ok fuel pq :
  queue_ok pq -> sum_entries (node_freq <$> pq) < 2 ^ 32 ->
  queue_ok (merge_loop fuel pq)
  /\ sum_entries (node_freq <$> merge_loop fuel pq)
     = sum_entries (node_freq <$> pq).
Proof.
  revert pq. induction fuel as [|fuel IH]; intros pq Hok Hsum; [done|].
  cbn [merge_loop]. destruct (merge_step pq) as [pq'|] eqn:Hstep; [|done].
  destruct (merge_step_queue_ok pq pq' Hok Hsum Hstep) as [Hok' Hsum'].
  rewrite <- Hsum'. apply IH; [done | by rewrite Hsum'].
Qed.

Lemma collect_leaves_queue_ok freq : queue_ok (collect_leaves freq).1.
Proof.
  pose proof (collect_leaves_order freq) as Hsorted.
  destruct (collect_leaves_spec freq) as (pq & Hc & Hperm).
  rewrite Hc in *. cbn [fst] in *.
  assert (forall t, t ∈ pq -> 1 <= node_freq t /\ top t = 0
                               /\ merged_in_order t) as Hleaves.
  { intros t. rewrite Hperm.
    intros (i & -> & Hi%used_symbols_pos)%list_elem_of_fmap. simpl. lia. }
  split; [by apply leaf_lt_freq_le|]. split.
  - apply Forall_forall. intros t Ht. by apply Hleaves.
  - intros t u Ht Hu. destruct (Hleaves t Ht) as (_ & -> & _).
    destruct (Hleaves u Hu) as (? & _). lia.
Qed.

Lemma collect_leaves_sum freq :
  length freq = 256%nat -> Forall (fun z => 0 <= z) freq ->
  sum_entries (node_freq <$> (collect_leaves freq).1) = sum_entries freq.
Proof.
  intros Hlen Hpos. destruct (collect_leaves_spec freq) as (pq & -> & Hperm).
  cbn [fst].
  rewrite (sum_entries_perm _ (node_freq <$> (leaf_of freq <$> used_symbols freq)))
    by (by rewrite Hperm).
  unfold used_symbols. rewrite sum_used_entries by done.
  by rewrite entries_by_index.
Qed.

Lemma build_huffman_tree_fib freq :
  length freq = 256%nat -> Forall (fun z => 0 <= z) freq ->
  sum_entries freq < 2 ^ 32 ->
  (height (build_huffman_tree freq) <= 1)%nat
  \/ fib (S (S (height (build_huffman_tree freq)))) <= sum_entries freq.
Proof.
  intros Hlen Hpos Hsum.
  destruct (used_symbols freq) as [|s [|s' used]] eqn:Hused.
  - left. rewrite (proj2 (build_huffman_tree_null freq)); [simpl; lia|].
    by rewrite Hused.
  - left. destruct (build_huffman_tree_single freq s Hused) as [_ ->].
    simpl. lia.
  - right. pose proof (collect_leaves_queue_ok freq) as Hok.
    pose proof (collect_leaves_sum freq Hlen Hpos) as Hs.
    unfold build_huffman_tree.
    destruct (collect_leaves_spec freq) as (pq & Hc & Hperm).
    rewrite Hc in *. cbn [fst] in *.
    apply Permutation_length in Hperm. rewrite length_map, Hused in Hperm.
    rewrite Hused. simpl length in *.
    rewrite !(proj2 (Z.eqb_neq _ _)) by lia.
    destruct (merge_loop_exits (length pq) pq) as [root Hroot];
      [done | by intros -> |].
    destruct (merge_loop_queue_ok (length pq) pq Hok ltac:(lia))
      as [(_ & Hmerged & _) Hsum'].
    rewrite Hroot in *. cbn [list_pop_front]. apply Forall_inv in Hmerged.
    destruct (merged_in_order_fib root Hmerged) as [Hfib _].
    simpl in Hsum'. lia.
Qed.

(** X28: the tree built from a table of 256 counts whose sum is below
    [2^32] is at most one level deep, or its depth [h] is so small that the
    Fibonacci number [h + 2] is at most the sum of the counts; a tree deeper
    than 32 therefore needs counts that sum up to at least 9227465. *)
Theorem tree_depth_is_bounded_by_the_size (freq : list Z) :
  length freq = 256%nat -> Forall (fun z => 0 <= z) freq ->
  sum_entries freq < 2 ^ 32 ->
  ((height (build_huffman_tree freq) <= 1)%nat
   \/ fib (S (S (height (build_huffman_tree freq)))) <= sum_entries freq)
  /\ (sum_entries freq < 9227465 ->
      (height (build_huffman_tree freq) <= 32)%nat).
Proof.
  intros Hlen Hpos Hsum.
  pose proof (build_huffman_tree_fib freq Hlen Hpos Hsum) as Hfib.
  split; [exact Hfib|]. intros Hsmall.
  destruct Hfib as [|Hfib]; [lia|].
  destruct (decide (height (build_huffman_tree freq) <= 32)%nat) as [|Hdeep];
    [done|].
  pose proof (fib_mono 35 (S (S (height (build_huffman_tree freq))))
                ltac:(lia)) as Hmono.
  rewrite fib_35 in Hmono. lia.
Qed.

Lemma tree_depth_is_bounded_by_the_size_witness :
  length (freq_table [(65, 3); (66, 1); (67, 1)]%Z) = 256%nat
  /\ Forall (fun z => 0 <= z) (freq_table [(65, 3); (66, 1); (67, 1)]%Z)
  /\ sum_entries (freq_table [(65, 3); (66, 1); (67, 1)]%Z) < 2 ^ 32
  /\ ((height (build_huffman_tree (freq_table [(65, 3); (66, 1); (67, 1)]%Z))
       <= 1)%nat
      \/ fib (S (S (height (build_huffman_tree
                              (freq_table [(65, 3); (66, 1); (67, 1)]%Z)))))
         <= sum_entries (freq_table [(65, 3); (66, 1); (67, 1)]%Z))
  /\ (sum_entries (freq_table [(65, 3); (66, 1); (67, 1)]%Z) < 9227465 ->
      (height (build_huffman_tree (freq_table [(65, 3); (66, 1); (67, 1)]%Z))
       <= 32)%nat).
Proof.
  assert (length (freq_table [(65, 3); (66, 1); (67, 1)]%Z) = 256%nat) as H1
    by reflexivity.
  assert (Forall (fun z => 0 <= z) (freq_table [(65, 3); (66, 1); (67, 1)]%Z))
    as H2 by (refine (bool_decide_unpack _ _); vm_compute; exact I).
  assert (sum_entries (freq_table [(65, 3); (66, 1); (67, 1)]%Z) < 2 ^ 32) as H3
    by (vm_compute; reflexivity).
  split; [exact H1|]. split; [exact H2|]. split; [exact H3|].
  exact (tree_depth_is_bounded_by_the_size _ H1 H2 H3).
Defined.

(** X29: every input shorter than 9227465 bytes is compressed successfully,
    and decompressing the compressed file gives the input back and leaves
    nothing unread: on such an input no counter wraps around and no code is
    longer than 32 bits. *)
Theorem small_files_round_trip (data : list Z) :
  Forall byte data ->
  Z.of_nat (length data) < 9227465 ->
  (compress_file data).1 = EXIT_SUCCESS
  /\ decompress_file (compress_file data).2
     = {| exit_status := EXIT_SUCCESS; output := data; unread := [] |}.
Proof.
  intros Hdata Hsmall. apply bounded_round_trip; [done | lia |].
  destruct (count_frequencies_small data Hdata ltac:(lia))
    as (freq & -> & Hlen & Hrange & Hsum & _). cbn [snd].
  assert (Forall (fun z => 0 <= z) freq) as Hpos
    by (eapply Forall_impl; [exact Hrange | simpl; lia]).
  destruct (build_huffman_tree_fib freq Hlen Hpos ltac:(lia)) as [|Hfib];
    [lia|].
  destruct (decide (height (build_huffman_tree freq) <= 32)%nat) as [|Hdeep];
    [done|].
  pose proof (fib_mono 35 (S (S (height (build_huffman_tree freq))))
                ltac:(lia)) as Hmono.
  rewrite fib_35 in Hmono. lia.
Qed.

Lemma small_files_round_trip_witness :
  Forall byte [65; 65; 65; 66; 67]
  /\ Z.of_nat (length [65; 65; 65; 66; 67]) < 9227465
  /\ (compress_file [65; 65; 65; 66; 67]).1 = EXIT_SUCCESS
  /\ decompress_file (compress_file [65; 65; 65; 66; 67]).2
     = {| exit_status := EXIT_SUCCESS; output := [65; 65; 65; 66; 67];
          unread := [] |}.
Proof.
  assert (Forall byte [65; 65; 65; 66; 67]) as H1
    by (refine (bool_decide_unpack _ _); vm_compute; exact I).
  assert (Z.of_nat (length [65; 65; 65; 66; 67]) < 9227465) as H2
    by (simpl; lia).
  split; [exact H1|]. split; [exact H2|].
  exact (small_files_round_trip _ H1 H2).
Defined.

(** ** Every run of the decoder ends *)

Lemma read_freqs_fatal n inp freq msg rest :
  read_freqs n inp freq = (Fatal msg, rest) -> msg = "Truncated header (freq).".
Proof.
  revert inp freq. induction n as [|n IH]; intros inp freq; [done|].
  cbn [read_freqs fread]. destruct (_ =? _)%nat; [apply IH|].
  by intros [= <- _].
Qed.

Lemma read_header_fatal inp msg rest :
  read_header inp = (Fatal msg, rest) -> format_error msg.
Proof.
  unfold read_header, fread, format_error.
  destruct (negb _); [intros [= <- _]; repeat constructor|].
  destruct (negb _); [intros [= <- _]; repeat constructor|].
  destruct (negb _); [intros [= <- _]; repeat constructor|].
  destruct (read_freqs 256 _ []) as [[freq|msg'] in3] eqn:Hfreqs; [done|].
  intros [= <- _]. apply read_freqs_fatal in Hfreqs as ->.
  repeat constructor.
Qed.

Lemma decode_loop_messages fuel root original_size st :
  match exit_status (decode_loop fuel root original_size st) with
  | EXIT_FAILURE msg => decoding_error msg
  | _ => True
  end.
Proof.
  apply (decode_loop_invariant root original_size (fun _ => True)
           (fun r => match exit_status r with
                     | EXIT_FAILURE msg => decoding_error msg
                     | _ => True
                     end)); try done.
  clear st. intros st r _. unfold decode_step, decoding_error.
  destruct (written st <? original_size); [|by intros [= <-]].
  destruct (node_is_leaf (cur st)); [done|].
  destruct (br_read_bit (br st)) as [[bit ok] rd'].
  destruct ok; cbn [negb]; [|intros [= <-]; simpl; repeat constructor].
  destruct (is_null _); [|done]. intros [= <-]. simpl. repeat constructor.
Qed.

(** X30: every run of [decompress_file] ends, whatever the input holds: the
    decoding loop stops after at most two iterations for each bit of the
    payload, and the run exits successfully, with one of the four format
    messages of the header, or with one of the three messages of the
    decoder. *)
Theorem decompress_file_ends (inp : list Z) :
  exit_status (decompress_file inp) = EXIT_SUCCESS
  \/ exists msg,
       exit_status (decompress_file inp) = EXIT_FAILURE msg
       /\ (format_error msg \/ decoding_error msg).
Proof.
  unfold decompress_file.
  destruct (read_header inp) as [[[original_size freq]|msg] rest] eqn:Hheader.
  - destruct (original_size =? 0); [by left|].
    destruct (is_null _).
    { right. eexists. split; [done|]. right. repeat constructor. }
    set (st := {| written := 0; cur := build_huffman_tree freq;
                  br := br_init rest; out := [] |}).
    pose proof (decode_loop_messages (decode_fuel (length rest))
                  (build_huffman_tree freq) original_size st) as Hmsg.
    pose proof (decode_loop_finishes (decode_fuel (length rest))
                  (build_huffman_tree freq) original_size st
                  (build_huffman_tree_not_leaf freq)) as Hfin.
    destruct (exit_status (decode_loop _ _ _ st)) as [|msg|].
    + by left.
    + right. exists msg. by split; [|right].
    + destruct Hfin; [simpl; lia | | done].
      unfold decode_measure, decode_fuel. subst st.
      cbn [br cur br_init br_bits_left br_f].
      rewrite build_huffman_tree_not_leaf. lia.
  - right. exists msg. split; [done|]. left.
    by eapply read_header_fatal.
Qed.

(** ** Releasing the tree *)

Lemma full_null_inv n : is_null n = true -> n = NULL.
Proof. by destruct n. Qed.

Lemma free_tree_full n :
  full n = true -> S (length (free_tree n)) = (2 * length (symbols n))%nat.
Proof.
  induction n as [|f [] s l IHl r IHr]; simpl; try done.
  - by intros [[->%full_null_inv ->%full_null_inv]%andb_prop _]%andb_prop.
  - intros [[_ Hl%IHl]%andb_prop Hr%IHr]%andb_prop.
    rewrite !length_app. simpl. lia.
Qed.

(** [free_tree] releases the root last, and of the tree built from a table
    in which [n >= 2] symbols occur it releases [2 * n - 1] nodes: the [n]
    leaves and the [n - 1] nodes of the merges. *)
Lemma free_tree_releases_every_node (freq : list Z) :
  (2 <= length (used_symbols freq))%nat ->
  S (length (free_tree (build_huffman_tree freq)))
  = (2 * length (used_symbols freq))%nat
  /\ last (free_tree (build_huffman_tree freq)) = Some (build_huffman_tree freq).
Proof.
  intros Htwo. pose proof (build_huffman_tree_full freq Htwo) as Hfull.
  split.
  - rewrite (free_tree_full _ Hfull).
    by rewrite build_huffman_tree_symbols, length_fmap.
  - destruct (build_huffman_tree freq) as [|f lf s l r]; [done|].
    cbn [free_tree]. by rewrite app_assoc, last_snoc.
Qed.
